(** * Open Design SDK: loading, dependency resolution and readiness

    A shallow embedding of the artboard loading pipeline of the SDK:

    - [DesignFacade] (sdk/src/design-facade.ts): [loadArtboard],
      [unloadArtboard], [_loadArtboardContent], [downloadBitmapAsset],
      [downloadBitmapAssets], [_loadRenderingDesignPage],
      [_loadRenderingDesignArtboard], [_loadFontsToRendering];
    - [ArtboardFacade] (sdk/src/artboard-facade.ts): [load],
      [getBitmapAssets], [getFonts];
    - [RenderingDesign]: [isArtboardLoaded], [isArtboardReady],
      [loadArtboard], [loadFont], [loadImage], [markArtboardAsReady],
      [unloadArtboards], [unloadArtboard];
    - [RenderingArtboard]: [load], [_getPendingArtboardDependencies],
      [markAsReady], [unload];
    - [RenderingSession] (rendering/src/rendering-session.ts):
      [execCommand], [_ensureDesign], [_createDesign];
    - octopus-reader/src/utils/assets-utils.ts:
      [keepUniqueBitmapAssetDescriptors], [keepUniqueFontDescriptors];
    - [Text] (octopus-reader/src/layer-info/text.ts): [getFonts];
    - [LocalDesignCache] (sdk, local/local-design-cache):
      [getDesignOctopusFilename], [setDesignOctopusFilename] and the
      private functions under them;
    - [LocalDesignManager] (sdk, local/local-design-manager):
      [sanitizeName];
    - [File] (octopus-reader, nodes/file): [addArtboard], [removeArtboard]
      and the getters of the artboards.

    The asynchronous functions are written once, in a small monad of
    resumptions ([Async]), and read like the TypeScript they embed.  The
    collaborators that are not part of these sources (the local cache, the
    API, the font source, the rendering process) are an environment that
    answers the requests, given the requests issued so far.  The monad has
    two interpreters: [exec] runs one call to completion (every awaited
    operation answers before anything else happens), and [advance] with
    [step] runs a pool of calls that interleave at their suspension points,
    as the single-threaded event loop does.  The aggregation of asset
    descriptors, the fonts of a text, the cache of file names and the
    artboards of a file are pure or thread their own state, and stand
    apart, each in a module of its own. *)

From Stdlib Require Import Lia.
From stdpp Require Import base option list gmap sets strings sorting.

Open Scope string_scope.
Open Scope list_scope.

(** ** Identifiers and errors *)

Abbreviation ArtboardId := string (only parsing).
Abbreviation ComponentId := string (only parsing).
Abbreviation PageId := string (only parsing).

(** The errors the embedded functions throw, one constructor per message of
    the source; [Cancelled] is the operation-cancelled error thrown by
    [cancelToken.throwIfCancelled()], [Collaborator] an error raised inside a
    collaborator (local cache, API, font manager). *)
Inductive Error : Type :=
| RenderingNotConfigured      (* 'The rendering engine is not configured' *)
| LocalCacheNotConfigured     (* 'Local cache is not configured' *)
| NoSuchArtboard              (* 'No such artboard' *)
| OctopusLocationUnavailable  (* 'The artboard octopus location is not available' *)
| DependencyUnavailable       (* 'A dependency component artboard is not available' *)
| NotLoadedToReadyState       (* 'The artboard failed to be loaded to a ready state' *)
| LoadArtboardFailed          (* 'Failed to load design artboard' *)
| DependencyListFailed        (* 'Failed to get pending artboard dependency list' *)
| CannotMarkAsReady           (* 'The artboard cannot be marked as ready' *)
| ArtboardNotReady            (* 'The artboard is not ready' *)
| UnloadFailed                (* 'Failed to unload artboard' *)
| CreateDesignFailed          (* 'Failed to create a design rendering session' *)
| NotLocallyAvailable         (* 'The artboard is not locally available and the API is not configured' *)
| CannotBeLoaded              (* 'The artboard cannot be loaded' *)
| ApiNotConfigured            (* 'The API is not configured, cannot download bitmap assets' *)
| NotALocalFile               (* 'The design is not configured to be a local file' *)
| Cancelled
| Collaborator (msg : string).

#[global] Instance Error_eq_dec : EqDecision Error.
Proof. solve_decision. Defined.

(** ** Requests to the collaborators *)

(** A cancellation token is modelled by the moment it fires: [Some t] is a
    token that is cancelled once [t] requests have been issued ([Some 0] is
    a token cancelled from the start), [None] is the absent token
    ([params.cancelToken || null]). *)
Abbreviation CancelToken := (option nat) (only parsing).

(** Commands of the rendering process (rendering/src/types/commands.type). *)
Inductive Command : Type :=
| CreateDesign
| LoadArtboardCmd (artboard : ArtboardId) (file : string)
    (symbol : option ComponentId) (page : option PageId)
| GetArtboardDependencies (artboard : ArtboardId)
| LoadFont (key file : string) (face : option string)
| LoadImage (key file : string)
| FinalizeArtboard (artboard : ArtboardId)
| UnloadArtboardCmd (artboard : ArtboardId).

#[global] Instance Command_eq_dec : EqDecision Command.
Proof. solve_decision. Defined.

(** The response of the rendering process: the success flag and, for
    [get-artboard-dependencies], the ['symbols'] field. *)
Record CommandResult : Type := mkResult {
  ok : bool;
  symbols : option (list ComponentId);
}.

(** What the artboard entity extracts from an octopus document for the
    pipeline: the names of its bitmap assets and the postscript names of
    its fonts. *)
Record OctopusDocument : Type := mkOctopus {
  bitmapAssetNames : list string;
  fontPostScriptNames : list string;
}.

Record FontMatch : Type := mkFontMatch {
  fontFilename : string;
  fontPostscriptName : string;
}.

Abbreviation Fallible X := (Error + X)%type (only parsing).

(** A request is one awaited call that leaves the modelled code: a command
    of the rendering process, or a call of the local cache, the API or the
    font source.  The index is the type of the answer; calls of the
    collaborators may throw. *)
Inductive Request : Type -> Type :=
| Process (c : Command) : Request CommandResult
| HasArtboardContent (a : ArtboardId) : Request (Fallible bool)
| GetArtboardContentJsonStream (a : ArtboardId) (tok : CancelToken)
    : Request (Fallible unit)
| SaveArtboardContentJsonStream (a : ArtboardId) (tok : CancelToken)
    : Request (Fallible unit)
| LocalGetArtboardContent (a : ArtboardId) (tok : CancelToken)
    : Request (Fallible OctopusDocument)
| ApiGetArtboardContent (a : ArtboardId) (tok : CancelToken)
    : Request (Fallible OctopusDocument)
| GetArtboardContentFilename (a : ArtboardId) (tok : CancelToken)
    : Request (Fallible (option string))
| ResolveBitmapAsset (name : string) (tok : CancelToken)
    : Request (Fallible (bool * string))
| GetBitmapAssetStream (name : string) (tok : CancelToken)
    : Request (Fallible unit)
| SaveBitmapAssetStream (name : string) (tok : CancelToken)
    : Request (Fallible string)
| ResolveFontPath (font : string) (tok : CancelToken)
    : Request (Fallible (option FontMatch)).

(** An event is a request that was issued. *)
Inductive Event : Type :=
| Issued {X : Type} (r : Request X).

(** The collaborators: the answer to a request, given the requests issued
    before it. *)
Definition Environment : Type :=
  forall X : Type, list Event -> Request X -> X.

(** ** State *)

Inductive Promise : Type :=
| Pending
| Resolved
| Rejected (e : Error).

(** [RenderingArtboard]: [symbolId], [_pageId], [_ready],
    [_pendingSymbolIds]. *)
Record RenderingArtboard : Type := mkRenderingArtboard {
  symbolId : option ComponentId;
  _pageId : option PageId;
  _ready : bool;
  _pendingSymbolIds : list ComponentId;
}.

(** The artboard entity of the octopus reader, as far as the pipeline looks
    at it: [componentId], [pageId] and the octopus content ([isLoaded()] is
    whether it is present). *)
Record Artboard : Type := mkArtboard {
  componentId : option ComponentId;
  pageId : option PageId;
  octopus : option OctopusDocument;
}.

(** An entry of the trace: a request, and what [RenderingDesign._artboards]
    held at the moment the request was issued. *)
Record Entry : Type := mkEntry {
  event : Event;
  artboardsAt : gmap ArtboardId RenderingArtboard;
}.

(** The objects the pipeline works on: the [DesignFacade] with its design
    entity, the [RenderingDesign], its [RenderingSession], and the trace of
    requests. *)
Record World : Type := mkWorld {
  (* DesignFacade *)
  _renderingDesign : bool;      (* this._renderingDesign is not null *)
  _localDesign : bool;          (* this._localDesign is not null *)
  _apiDesign : bool;            (* this._apiDesign is not null *)
  _fontSource : bool;           (* this._fontSource is not null *)
  _loadingArtboardPromises : gmap ArtboardId Promise;
  (* design entity *)
  _artboardsById : gmap ArtboardId Artboard;
  _artboardsByComponentId : gmap ComponentId ArtboardId;
  (* RenderingDesign *)
  _artboards : gmap ArtboardId RenderingArtboard;
  _loadedBitmaps : gset string;
  _loadedFonts : gset string;
  (* RenderingSession *)
  _designPromise : option Promise;
  (* requests issued so far, the latest first *)
  trace : list Entry;
}.

(** The promises that are stored in a field and awaited by other calls. *)
Inductive PromiseKey : Type :=
| LoadingArtboard (a : ArtboardId)   (* this._loadingArtboardPromises.get(a) *)
| DesignSession.                     (* this._designPromise *)

Definition promise (w : World) (p : PromiseKey) : option Promise :=
  match p with
  | LoadingArtboard a => _loadingArtboardPromises w !! a
  | DesignSession => _designPromise w
  end.

Definition with_trace (t : list Entry) (w : World) : World :=
  mkWorld (_renderingDesign w) (_localDesign w) (_apiDesign w) (_fontSource w)
    (_loadingArtboardPromises w) (_artboardsById w) (_artboardsByComponentId w)
    (_artboards w) (_loadedBitmaps w) (_loadedFonts w) (_designPromise w) t.

Definition with_loadingArtboardPromises (m : gmap ArtboardId Promise)
    (w : World) : World :=
  mkWorld (_renderingDesign w) (_localDesign w) (_apiDesign w) (_fontSource w)
    m (_artboardsById w) (_artboardsByComponentId w)
    (_artboards w) (_loadedBitmaps w) (_loadedFonts w) (_designPromise w)
    (trace w).

Definition with_designPromise (p : option Promise) (w : World) : World :=
  mkWorld (_renderingDesign w) (_localDesign w) (_apiDesign w) (_fontSource w)
    (_loadingArtboardPromises w) (_artboardsById w) (_artboardsByComponentId w)
    (_artboards w) (_loadedBitmaps w) (_loadedFonts w) p (trace w).

Definition with_artboardsById (m : gmap ArtboardId Artboard) (w : World)
    : World :=
  mkWorld (_renderingDesign w) (_localDesign w) (_apiDesign w) (_fontSource w)
    (_loadingArtboardPromises w) m (_artboardsByComponentId w)
    (_artboards w) (_loadedBitmaps w) (_loadedFonts w) (_designPromise w)
    (trace w).

Definition with_artboards (m : gmap ArtboardId RenderingArtboard) (w : World)
    : World :=
  mkWorld (_renderingDesign w) (_localDesign w) (_apiDesign w) (_fontSource w)
    (_loadingArtboardPromises w) (_artboardsById w) (_artboardsByComponentId w)
    m (_loadedBitmaps w) (_loadedFonts w) (_designPromise w) (trace w).

Definition with_loadedBitmaps (s : gset string) (w : World) : World :=
  mkWorld (_renderingDesign w) (_localDesign w) (_apiDesign w) (_fontSource w)
    (_loadingArtboardPromises w) (_artboardsById w) (_artboardsByComponentId w)
    (_artboards w) s (_loadedFonts w) (_designPromise w) (trace w).

Definition with_loadedFonts (s : gset string) (w : World) : World :=
  mkWorld (_renderingDesign w) (_localDesign w) (_apiDesign w) (_fontSource w)
    (_loadingArtboardPromises w) (_artboardsById w) (_artboardsByComponentId w)
    (_artboards w) (_loadedBitmaps w) s (_designPromise w) (trace w).

Definition set_promise (p : PromiseKey) (v : Promise) (w : World) : World :=
  match p with
  | LoadingArtboard a =>
      with_loadingArtboardPromises (<[a := v]> (_loadingArtboardPromises w)) w
  | DesignSession => with_designPromise (Some v) w
  end.

(** ** The monad of asynchronous functions *)

(** An asynchronous function body, as a tree of what it does next:
    - [Ret], [Throw]: the function returns, or throws;
    - [OutOfFuel]: the recursion budget of the embedding is spent;
    - [Get], [Put]: synchronous access to the objects;
    - [Io]: [await] of a request, a suspension point;
    - [Await]: [await] of a promise stored in a field; a rejection is
      rethrown;
    - [Fork]: a call of an asynchronous function whose promise is stored in
      a field instead of being awaited on the spot;
    - [Both]: [await Promise.all([p1, p2])]: both branches are started, and
      the first rejection is rethrown once they have run. *)
Inductive Async (A : Type) : Type :=
| Ret (a : A)
| Throw (e : Error)
| OutOfFuel
| Get (k : World -> Async A)
| Put (w : World) (k : Async A)
| Io {X : Type} (r : Request X) (k : X -> Async A)
| Await (p : PromiseKey) (k : Async A)
| Fork (p : PromiseKey) (body : Async unit) (k : Async A)
| Both (p1 p2 : Async unit) (k : Async A).

Arguments Ret {A} a.
Arguments Throw {A} e.
Arguments OutOfFuel {A}.
Arguments Get {A} k.
Arguments Put {A} w k.
Arguments Io {A X} r k.
Arguments Await {A} p k.
Arguments Fork {A} p body k.
Arguments Both {A} p1 p2 k.

Fixpoint bind {A B : Type} (m : Async A) (f : A -> Async B) : Async B :=
  match m with
  | Ret a => f a
  | Throw e => Throw e
  | OutOfFuel => OutOfFuel
  | Get k => Get (fun w => bind (k w) f)
  | Put w k => Put w (bind k f)
  | Io r k => Io r (fun x => bind (k x) f)
  | Await p k => Await p (bind k f)
  | Fork p body k => Fork p body (bind k f)
  | Both p1 p2 k => Both p1 p2 (bind k f)
  end.

#[global] Instance Async_ret : MRet Async := @Ret.
#[global] Instance Async_bind : MBind Async := fun A B f m => bind m f.

Definition get : Async World := Get Ret.
Definition modify (f : World -> World) : Async unit :=
  Get (fun w => Put (f w) (Ret tt)).
Definition io {X : Type} (r : Request X) : Async X := Io r Ret.
Definition await (p : PromiseKey) : Async unit := Await p (Ret tt).
Definition fork (p : PromiseKey) (body : Async unit) : Async unit :=
  Fork p body (Ret tt).
Definition both (p1 p2 : Async unit) : Async unit := Both p1 p2 (Ret tt).

(** A call of a collaborator that may throw. *)
Definition call {X : Type} (r : Request (Fallible X)) : Async X :=
  Io r (fun x => match x with inl e => Throw e | inr v => Ret v end).

(** ** The embedded functions *)

(** [cancelToken?.throwIfCancelled()] *)
Definition throwIfCancelled (cancelToken : CancelToken) : Async unit :=
  match cancelToken with
  | None => Ret tt
  | Some t =>
      w ← get;
      if decide (t ≤ List.length (trace w))%nat then Throw Cancelled else Ret tt
  end.

(** [sequence] of utils/async-utils: the items are processed one after the
    other, each call awaited before the next one starts. *)
Fixpoint sequence {A B : Type} (items : list A) (f : A -> Async B)
    : Async (list B) :=
  match items with
  | [] => Ret []
  | item :: rest =>
      r ← f item;
      rs ← sequence rest f;
      Ret (r :: rs)
  end.

(** [value || null] on an optional string: the empty string is falsy. *)
Definition or_null (value : option string) : option string :=
  match value with
  | Some "" => None
  | _ => value
  end.

(** *** RenderingSession *)

Definition _createDesign : Async unit :=
  result ← io (Process CreateDesign);
  if ok result then Ret tt else Throw CreateDesignFailed.

Definition _ensureDesign : Async unit :=
  w ← get;
  (if _designPromise w is None then fork DesignSession _createDesign
   else Ret tt);;
  await DesignSession.

Definition execCommand (cmd : Command) : Async CommandResult :=
  _ensureDesign;;
  io (Process cmd).

(** *** RenderingArtboard

    The artboard objects live in [RenderingDesign._artboards]; a method of
    the object [artboardId] reads and writes that entry. *)

Definition update_artboard (artboardId : ArtboardId)
    (f : RenderingArtboard -> RenderingArtboard) : Async unit :=
  modify (fun w => with_artboards (alter f artboardId (_artboards w)) w).

Definition set_pendingSymbolIds (pendingSymbolIds : list ComponentId)
    (this : RenderingArtboard) : RenderingArtboard :=
  mkRenderingArtboard (symbolId this) (_pageId this) (_ready this)
    pendingSymbolIds.

Definition set_ready (ready : bool) (this : RenderingArtboard)
    : RenderingArtboard :=
  mkRenderingArtboard (symbolId this) (_pageId this) ready
    (_pendingSymbolIds this).

Definition _getPendingArtboardDependencies (artboardId : ArtboardId)
    : Async (list ComponentId) :=
  dependencyResult ← execCommand (GetArtboardDependencies artboardId);
  if ok dependencyResult then Ret (default [] (symbols dependencyResult))
  else Throw DependencyListFailed.

Definition RenderingArtboard_load (artboardId : ArtboardId)
    (this : RenderingArtboard) (octopusFilename : string) : Async unit :=
  loadResult ← execCommand
    (LoadArtboardCmd artboardId octopusFilename (symbolId this) (_pageId this));
  if ok loadResult then
    pendingSymbolIds ← _getPendingArtboardDependencies artboardId;
    update_artboard artboardId (set_pendingSymbolIds pendingSymbolIds)
  else Throw LoadArtboardFailed.

Definition markAsReady (artboardId : ArtboardId) : Async unit :=
  finalizeResult ← execCommand (FinalizeArtboard artboardId);
  if ok finalizeResult then update_artboard artboardId (set_ready true)
  else Throw CannotMarkAsReady.

Definition RenderingArtboard_unload (artboardId : ArtboardId)
    (this : RenderingArtboard) : Async unit :=
  if _ready this then
    update_artboard artboardId (set_ready false);;
    result ← execCommand (UnloadArtboardCmd artboardId);
    if ok result then Ret tt else Throw UnloadFailed
  else Throw ArtboardNotReady.

(** *** RenderingDesign *)

Definition isArtboardReady (w : World) (artboardId : ArtboardId) : bool :=
  match _artboards w !! artboardId with
  | Some artboard => _ready artboard
  | None => false
  end.

Definition RenderingDesign_loadArtboard (artboardId : ArtboardId)
    (octopusFilename : string) (symbolId pageId : option string)
    : Async RenderingArtboard :=
  w ← get;
  match _artboards w !! artboardId with
  | Some prevArtboard => Ret prevArtboard
  | None =>
      let artboard :=
        mkRenderingArtboard (or_null symbolId) (or_null pageId) false [] in
      modify (fun w => with_artboards (<[artboardId := artboard]> (_artboards w)) w);;
      RenderingArtboard_load artboardId artboard octopusFilename;;
      w ← get;
      Ret (default artboard (_artboards w !! artboardId))
  end.

Definition loadFont (postscriptName filename : string)
    (facePostscriptName : option string) : Async unit :=
  w ← get;
  if decide (postscriptName ∈ _loadedFonts w) then Ret tt
  else
    modify (fun w => with_loadedFonts ({[postscriptName]} ∪ _loadedFonts w) w);;
    execCommand (LoadFont postscriptName filename (or_null facePostscriptName));;
    Ret tt.

Definition loadImage (bitmapKey filename : string) : Async unit :=
  w ← get;
  if decide (bitmapKey ∈ _loadedBitmaps w) then Ret tt
  else
    execCommand (LoadImage bitmapKey filename);;
    modify (fun w => with_loadedBitmaps ({[bitmapKey]} ∪ _loadedBitmaps w) w).

Definition markArtboardAsReady (artboardId : ArtboardId) : Async unit :=
  w ← get;
  match _artboards w !! artboardId with
  | Some _ => markAsReady artboardId
  | None => Throw NoSuchArtboard
  end.

Definition RenderingDesign_unloadArtboard (artboardId : ArtboardId)
    : Async unit :=
  w ← get;
  match _artboards w !! artboardId with
  | Some artboard =>
      RenderingArtboard_unload artboardId artboard;;
      modify (fun w => with_artboards (delete artboardId (_artboards w)) w)
  | None => Throw NoSuchArtboard
  end.

(** *** ArtboardFacade and DesignFacade *)

Definition isLoaded (w : World) (artboardId : ArtboardId) : bool :=
  match _artboardsById w !! artboardId with
  | Some artboard => bool_decide (is_Some (octopus artboard))
  | None => false
  end.

Definition setOctopus (artboardId : ArtboardId) (content : option OctopusDocument)
    : Async unit :=
  modify (fun w =>
    with_artboardsById
      (alter (fun a => mkArtboard (componentId a) (pageId a) content)
         artboardId (_artboardsById w)) w).

Definition getArtboardByComponentId (w : World) (componentId : ComponentId)
    : option ArtboardId :=
  artboardId ← _artboardsByComponentId w !! componentId;
  _ ← _artboardsById w !! artboardId;
  Some artboardId.

Definition _loadArtboardContent (artboardId : ArtboardId)
    (cancelToken : CancelToken) : Async OctopusDocument :=
  w ← get;
  if _localDesign w then
    available ← call (HasArtboardContent artboardId);
    (if available : bool then Ret tt
     else if _apiDesign w then
       call (GetArtboardContentJsonStream artboardId cancelToken);;
       call (SaveArtboardContentJsonStream artboardId cancelToken)
     else Throw NotLocallyAvailable);;
    call (LocalGetArtboardContent artboardId cancelToken)
  else if _apiDesign w then call (ApiGetArtboardContent artboardId cancelToken)
  else Throw CannotBeLoaded.

Definition loadArtboard (artboardId : ArtboardId) (cancelToken : CancelToken)
    : Async unit :=
  w ← get;
  match _artboardsById w !! artboardId with
  | None => Throw NoSuchArtboard
  | Some _ =>
      match _loadingArtboardPromises w !! artboardId with
      | Some _ => await (LoadingArtboard artboardId)
      | None =>
          if isLoaded w artboardId then Ret tt
          else
            fork (LoadingArtboard artboardId)
              (content ← _loadArtboardContent artboardId cancelToken;
               setOctopus artboardId (Some content));;
            await (LoadingArtboard artboardId)
      end
  end.

Definition ArtboardFacade_load (artboardId : ArtboardId)
    (cancelToken : CancelToken) : Async unit :=
  w ← get;
  if isLoaded w artboardId then Ret tt
  else loadArtboard artboardId cancelToken.

Definition unloadArtboard (artboardId : ArtboardId) : Async unit :=
  w ← get;
  match _artboardsById w !! artboardId with
  | None => Throw NoSuchArtboard
  | Some _ =>
      if isLoaded w artboardId then
        setOctopus artboardId None;;
        if _renderingDesign w then RenderingDesign_unloadArtboard artboardId
        else Ret tt
      else Ret tt
  end.

Definition getBitmapAssets (artboardId : ArtboardId) : Async (list string) :=
  ArtboardFacade_load artboardId None;;
  w ← get;
  Ret (default [] (bitmapAssetNames <$> (_artboardsById w !! artboardId ≫= octopus))).

Definition getFonts (artboardId : ArtboardId) : Async (list string) :=
  ArtboardFacade_load artboardId None;;
  w ← get;
  Ret (default [] (fontPostScriptNames <$> (_artboardsById w !! artboardId ≫= octopus))).

Definition downloadBitmapAsset (name : string) (cancelToken : CancelToken)
    : Async string :=
  w ← get;
  if _apiDesign w then
    if _localDesign w then
      '(available, filename) ← call (ResolveBitmapAsset name cancelToken);
      if available : bool then Ret filename
      else
        call (GetBitmapAssetStream name cancelToken);;
        call (SaveBitmapAssetStream name cancelToken)
    else Throw NotALocalFile
  else Throw ApiNotConfigured.

Definition downloadBitmapAssets (bitmapAssetDescs : list string)
    (cancelToken : CancelToken) : Async unit :=
  sequence bitmapAssetDescs (fun name => downloadBitmapAsset name cancelToken);;
  Ret tt.

Definition _loadFontsToRendering (fonts : list string)
    (cancelToken : CancelToken) : Async unit :=
  w ← get;
  if _fontSource w then
    if _renderingDesign w then
      sequence fonts (fun fontPostScriptName =>
        fontMatch ← call (ResolveFontPath fontPostScriptName cancelToken);
        match fontMatch with
        | Some fontMatch =>
            loadFont fontPostScriptName (fontFilename fontMatch)
              (Some (fontPostscriptName fontMatch));;
            throwIfCancelled cancelToken
        | None => Ret tt
        end);;
      Ret tt
    else Throw RenderingNotConfigured
  else Ret tt.

Record LoadParams : Type := mkParams {
  loadAssets : bool;
  cancelToken : CancelToken;
}.

(** One activation of [_loadRenderingDesignArtboard]; [self] is the
    function itself, for the recursive call on a pending component. *)
Definition _loadRenderingDesignArtboard_body
    (self : ArtboardId -> LoadParams -> Async unit)
    (artboardId : ArtboardId) (params : LoadParams) : Async unit :=
  w ← get;
  if negb (_renderingDesign w) then Throw RenderingNotConfigured
  else if isArtboardReady w artboardId then Ret tt
  else if negb (_localDesign w) then Throw LocalCacheNotConfigured
  else
    match _artboardsById w !! artboardId with
    | None => Throw NoSuchArtboard
    | Some artboard =>
        let cancelToken := cancelToken params in
        ArtboardFacade_load artboardId cancelToken;;
        octopusFilename ←
          call (GetArtboardContentFilename artboardId cancelToken);
        match or_null octopusFilename with
        | None => Throw OctopusLocationUnavailable
        | Some octopusFilename =>
            desc ← RenderingDesign_loadArtboard artboardId octopusFilename
                     (componentId artboard) (pageId artboard);
            throwIfCancelled cancelToken;;
            sequence (_pendingSymbolIds desc) (fun componentId =>
              w ← get;
              match getArtboardByComponentId w componentId with
              | None => Throw DependencyUnavailable
              | Some componentArtboardId => self componentArtboardId params
              end);;
            (if loadAssets params then
               bitmapAssetDescs ← getBitmapAssets artboardId;
               throwIfCancelled cancelToken;;
               fonts ← getFonts artboardId;
               throwIfCancelled cancelToken;;
               both (downloadBitmapAssets bitmapAssetDescs cancelToken)
                    (_loadFontsToRendering fonts cancelToken)
             else Ret tt);;
            markArtboardAsReady artboardId;;
            throwIfCancelled cancelToken;;
            w ← get;
            if isArtboardReady w artboardId then Ret tt
            else Throw NotLoadedToReadyState
        end
    end.

(** [_loadRenderingDesignArtboard]; [fuel] bounds the depth of the recursion
    through the pending components. *)
Fixpoint _loadRenderingDesignArtboard (fuel : nat) (artboardId : ArtboardId)
    (params : LoadParams) : Async unit :=
  match fuel with
  | O => OutOfFuel
  | S fuel =>
      _loadRenderingDesignArtboard_body (_loadRenderingDesignArtboard fuel)
        artboardId params
  end.

Lemma _loadRenderingDesignArtboard_S fuel artboardId params :
  _loadRenderingDesignArtboard (S fuel) artboardId params
  = _loadRenderingDesignArtboard_body (_loadRenderingDesignArtboard fuel)
      artboardId params.
Proof. reflexivity. Qed.

(** *** Pages and unloading *)

(** [RenderingDesign.isArtboardLoaded] *)
Definition isArtboardLoaded (w : World) (artboardId : ArtboardId) : bool :=
  bool_decide (is_Some (_artboards w !! artboardId)).

(** [RenderingDesign.unloadArtboards].  [entries] stands for the ids of
    [[...this._artboards.entries()]]: the registered artboards in the order
    of the [Map], which the state does not record. *)
Definition unloadArtboards (entries : list ArtboardId) : Async unit :=
  sequence entries RenderingDesign_unloadArtboard;;
  Ret tt.

(** [DesignFacade._loadRenderingDesignPage]; [pageArtboards] stands for the
    ids of [this.getPageArtboards(pageId)]. *)
Definition _loadRenderingDesignPage (fuel : nat)
    (pageArtboards : list ArtboardId) (params : LoadParams) : Async unit :=
  sequence pageArtboards (fun artboardId =>
    _loadRenderingDesignArtboard fuel artboardId params);;
  Ret tt.

(** ** A design to run the embedding on

    The scenario of the testable properties: artboard ["A"] uses the
    component ["sym1"], which artboard ["B"] defines.  Every collaborator
    succeeds; the rendering process reports ["sym1"] as pending for ["A"]. *)

Definition scenario_env : Environment := fun X hist r =>
  match r in Request X return X with
  | Process (GetArtboardDependencies a) =>
      if String.eqb a "A" then mkResult true (Some ["sym1"])
      else mkResult true None
  | Process _ => mkResult true None
  | HasArtboardContent _ => inr true
  | GetArtboardContentJsonStream _ _ => inr tt
  | SaveArtboardContentJsonStream _ _ => inr tt
  | LocalGetArtboardContent _ _ => inr (mkOctopus ["img"] ["Arial"])
  | ApiGetArtboardContent _ _ => inr (mkOctopus ["img"] ["Arial"])
  | GetArtboardContentFilename a _ => inr (Some (a +:+ ".json"))
  | ResolveBitmapAsset name _ => inr (true, name)
  | GetBitmapAssetStream _ _ => inr tt
  | SaveBitmapAssetStream name _ => inr name
  | ResolveFontPath font _ => inr (Some (mkFontMatch (font +:+ ".ttf") font))
  end.

Definition scenario : World :=
  mkWorld true true true true ∅
    (<["A" := mkArtboard None None None]>
       (<["B" := mkArtboard (Some "sym1") None None]> ∅))
    (<["sym1" := "B"]> ∅)
    ∅ ∅ ∅ None [].

(** The commands the rendering process received, the first one first. *)
Definition commands (w : World) : list Command :=
  omap (fun entry =>
          match event entry with
          | Issued (Process c) => Some c
          | Issued _ => None
          end) (reverse (trace w)).

(** ** Running one call to completion *)

Inductive Outcome (A : Type) : Type :=
| Returned (a : A)     (* the promise of the call is resolved *)
| Failed (e : Error)   (* the promise of the call is rejected *)
| Exhausted            (* the recursion budget was not enough *)
| Stuck.               (* the call awaits a promise that nobody settles *)

Arguments Returned {A} a.
Arguments Failed {A} e.
Arguments Exhausted {A}.
Arguments Stuck {A}.

Definition history (w : World) : list Event := event <$> trace w.

Definition record_request {X : Type} (r : Request X) (w : World) : World :=
  with_trace (mkEntry (Issued r) (_artboards w) :: trace w) w.

Section Sequential.

Variable env : Environment.

(** [exec m w] runs the call [m] from [w] when nothing else runs in between:
    each request is answered at once, and a forked call has settled its
    promise by the time the caller goes on. *)
Fixpoint exec {A : Type} (m : Async A) (w : World) : Outcome A * World :=
  match m with
  | Ret a => (Returned a, w)
  | Throw e => (Failed e, w)
  | OutOfFuel => (Exhausted, w)
  | Get k => exec (k w) w
  | Put w' k => exec k w'
  | Io r k => exec (k (env _ (history w) r)) (record_request r w)
  | Await p k =>
      match promise w p with
      | Some Resolved => exec k w
      | Some (Rejected e) => (Failed e, w)
      | Some Pending | None => (Stuck, w)
      end
  | Fork p body k =>
      let '(o, w1) := exec body (set_promise p Pending w) in
      match o with
      | Returned _ => exec k (set_promise p Resolved w1)
      | Failed e => exec k (set_promise p (Rejected e) w1)
      | Exhausted => (Exhausted, w1)
      | Stuck => exec k w1
      end
  | Both p1 p2 k =>
      let '(o1, w1) := exec p1 w in
      let '(o2, w2) := exec p2 w1 in
      match o1, o2 with
      | Exhausted, _ | _, Exhausted => (Exhausted, w2)
      | Stuck, _ | _, Stuck => (Stuck, w2)
      | Failed e, _ => (Failed e, w2)
      | _, Failed e => (Failed e, w2)
      | Returned _, Returned _ => exec k w2
      end
  end.

(** Sequencing: the continuation runs from the state the first part left,
    unless the first part did not return. *)
Definition continue {A B : Type} (r : Outcome A * World)
    (f : A -> World -> Outcome B * World) : Outcome B * World :=
  match r with
  | (Returned a, w) => f a w
  | (Failed e, w) => (Failed e, w)
  | (Exhausted, w) => (Exhausted, w)
  | (Stuck, w) => (Stuck, w)
  end.

Lemma exec_bind {A B : Type} (m : Async A) (f : A -> Async B) (w : World) :
  exec (m ≫= f) w = continue (exec m w) (fun a w' => exec (f a) w').
Proof.
  unfold mbind, Async_bind. revert B f w.
  induction m as [A a|A e|A|A k IH|A w' k IH|A X r k IH|A p k IH
                 |A p body _ k IH|A p1 _ p2 _ k IH];
    intros B f w; simpl; try reflexivity.
  - apply IH.
  - apply IH.
  - apply IH.
  - destruct (promise w p) as [[| |e]|]; try reflexivity. apply IH.
  - destruct (exec body (set_promise p Pending w)) as [[?|e| |] w1];
      try reflexivity; apply IH.
  - destruct (exec p1 w) as [o1 w1], (exec p2 w1) as [o2 w2].
    destruct o1, o2; try reflexivity; apply IH.
Qed.

Lemma exec_bind' {A B : Type} (m : Async A) (f : A -> Async B) (w : World) :
  exec (bind m f) w = continue (exec m w) (fun a w' => exec (f a) w').
Proof. apply exec_bind. Qed.

(** *** How a call changes the objects *)

(** [only_session w w']: nothing but the trace and the promise of the
    rendering session differs. *)
Definition forget_session (w : World) : World :=
  with_trace [] (with_designPromise None w).

Record only_session (w w' : World) : Prop := mkOnlySession {
  os_objects : forget_session w' = forget_session w;
  os_trace : suffix (trace w) (trace w');
}.

(** [evolves w w']: what every step of the loading pipeline keeps.  The
    requests issued stay in the trace; the configuration and the identity
    of the artboards do not change; an artboard registered with the
    rendering design stays registered, keeps its pending components and,
    once ready, stays ready; an artboard is only ever made ready by a
    [finalize-artboard] command that succeeded; a settled content promise
    stays as it is; the sets of loaded fonts and bitmaps only grow. *)
Record evolves (w w' : World) : Prop := mkEvolves {
  ev_trace : suffix (trace w) (trace w');
  ev_renderingDesign : _renderingDesign w' = _renderingDesign w;
  ev_localDesign : _localDesign w' = _localDesign w;
  ev_apiDesign : _apiDesign w' = _apiDesign w;
  ev_fontSource : _fontSource w' = _fontSource w;
  ev_byComponentId :
    _artboardsByComponentId w' = _artboardsByComponentId w;
  ev_byId : forall a,
    (fun e => (componentId e, pageId e)) <$> _artboardsById w' !! a
    = (fun e => (componentId e, pageId e)) <$> _artboardsById w !! a;
  ev_registered : forall a ra, _artboards w !! a = Some ra ->
    exists ra', _artboards w' !! a = Some ra'
      /\ _pendingSymbolIds ra' = _pendingSymbolIds ra
      /\ (_ready ra = true -> _ready ra' = true);
  ev_pending : forall a ra', _artboards w' !! a = Some ra' ->
    _artboards w !! a = None ->
    _pendingSymbolIds ra' = []
    \/ exists hist, _pendingSymbolIds ra'
         = default [] (symbols (env _ hist (Process (GetArtboardDependencies a))));
  ev_ready : forall a, isArtboardReady w' a = true ->
    isArtboardReady w a = true
    \/ exists hist, ok (env _ hist (Process (FinalizeArtboard a))) = true;
  ev_promises : forall a p, _loadingArtboardPromises w !! a = Some p ->
    p <> Pending -> _loadingArtboardPromises w' !! a = Some p;
  ev_fonts : _loadedFonts w ⊆ _loadedFonts w';
  ev_bitmaps : _loadedBitmaps w ⊆ _loadedBitmaps w';
}.

#[local] Instance only_session_preorder : PreOrder only_session.
Proof.
  split.
  - intros w. by split.
  - intros w1 w2 w3 [H1 H1'] [H2 H2']. split; [congruence | by etrans].
Qed.

#[local] Instance evolves_preorder : PreOrder evolves.
Proof.
  split.
  - intros w. split; try done; eauto. congruence.
  - intros w1 w2 w3 H1 H2. split.
    + etrans; [apply H1 | apply H2].
    + rewrite (ev_renderingDesign _ _ H2). apply H1.
    + rewrite (ev_localDesign _ _ H2). apply H1.
    + rewrite (ev_apiDesign _ _ H2). apply H1.
    + rewrite (ev_fontSource _ _ H2). apply H1.
    + rewrite (ev_byComponentId _ _ H2). apply H1.
    + intros a. rewrite (ev_byId _ _ H2). apply H1.
    + intros a ra Ha.
      destruct (ev_registered _ _ H1 _ _ Ha) as (ra' & Ha' & Hp & Hr).
      destruct (ev_registered _ _ H2 _ _ Ha') as (ra'' & Ha'' & Hp' & Hr').
      exists ra''. split_and!; [done | congruence | auto].
    + intros a ra'' Ha'' Ha.
      destruct (_artboards w2 !! a) as [ra'|] eqn:Ha'.
      * destruct (ev_registered _ _ H2 _ _ Ha') as (ra3 & Ha3 & Hp & _).
        assert (ra3 = ra'') as -> by congruence. rewrite Hp.
        by apply (ev_pending _ _ H1 a).
      * by apply (ev_pending _ _ H2 a).
    + intros a Ha. destruct (ev_ready _ _ H2 _ Ha) as [Ha'|]; [|by right].
      by apply (ev_ready _ _ H1).
    + intros a p Ha Hp. apply (ev_promises _ _ H2); [|done].
      by apply (ev_promises _ _ H1).
    + etrans; [apply H1 | apply H2].
    + etrans; [apply H1 | apply H2].
Qed.

Lemma only_session_fields (w w' : World) :
  only_session w w' ->
  _renderingDesign w' = _renderingDesign w
  /\ _localDesign w' = _localDesign w
  /\ _apiDesign w' = _apiDesign w
  /\ _fontSource w' = _fontSource w
  /\ _loadingArtboardPromises w' = _loadingArtboardPromises w
  /\ _artboardsById w' = _artboardsById w
  /\ _artboardsByComponentId w' = _artboardsByComponentId w
  /\ _artboards w' = _artboards w
  /\ _loadedBitmaps w' = _loadedBitmaps w
  /\ _loadedFonts w' = _loadedFonts w.
Proof.
  intros [H _]. unfold forget_session in H.
  split_and!.
  - apply (f_equal _renderingDesign) in H. exact H.
  - apply (f_equal _localDesign) in H. exact H.
  - apply (f_equal _apiDesign) in H. exact H.
  - apply (f_equal _fontSource) in H. exact H.
  - apply (f_equal _loadingArtboardPromises) in H. exact H.
  - apply (f_equal _artboardsById) in H. exact H.
  - apply (f_equal _artboardsByComponentId) in H. exact H.
  - apply (f_equal _artboards) in H. exact H.
  - apply (f_equal _loadedBitmaps) in H. exact H.
  - apply (f_equal _loadedFonts) in H. exact H.
Qed.

Lemma only_session_evolves (w w' : World) : only_session w w' -> evolves w w'.
Proof.
  intros H. pose proof (os_trace _ _ H) as Ht.
  apply only_session_fields in H
    as (H1 & H2 & H3 & H4 & H5 & H6 & H7 & H8 & H9 & H10).
  split; try done.
  - intros a. by rewrite H6.
  - intros a ra Ha. exists ra. by rewrite H8.
  - intros a ra Ha Hn. congruence.
  - intros a Ha. left. unfold isArtboardReady in *. by rewrite <- H8.
  - intros a p Ha _. by rewrite H5.
  - by rewrite H10.
  - by rewrite H9.
Qed.

Lemma only_session_record {X : Type} (r : Request X) (w : World) :
  only_session w (record_request r w).
Proof. split; [done | by apply suffix_cons_r]. Qed.

Lemma only_session_designPromise (p : option Promise) (w : World) :
  only_session w (with_designPromise p w).
Proof. by split. Qed.

(** *** Equations of the primitives *)

Lemma exec_get_bind {A : Type} (k : World -> Async A) (w : World) :
  exec (get ≫= k) w = exec (k w) w.
Proof. reflexivity. Qed.

Lemma exec_modify_bind {A : Type} (f : World -> World) (k : unit -> Async A)
    (w : World) :
  exec (modify f ≫= k) w = exec (k tt) (f w).
Proof. reflexivity. Qed.

Lemma exec_io {X : Type} (r : Request X) (w : World) :
  exec (io r) w = (Returned (env _ (history w) r), record_request r w).
Proof. reflexivity. Qed.

Lemma exec_call {X : Type} (r : Request (Fallible X)) (w : World) :
  exec (call r) w =
  (match env _ (history w) r with inl e => Failed e | inr v => Returned v end,
   record_request r w).
Proof. unfold call. simpl. by destruct (env _ (history w) r). Qed.

Lemma exec_throwIfCancelled (cancelToken : CancelToken) (w : World) :
  exec (throwIfCancelled cancelToken) w =
  (match cancelToken with
   | Some t =>
       if decide (t ≤ List.length (trace w))%nat then Failed Cancelled
       else Returned tt
   | None => Returned tt
   end, w).
Proof.
  destruct cancelToken as [t|]; [|done]. simpl.
  by destruct (decide (t ≤ List.length (trace w))%nat).
Qed.

Lemma exec_fork_bind {A : Type} p (body : Async unit) (k : unit -> Async A) w :
  exec (fork p body ≫= k) w =
  match exec body (set_promise p Pending w) with
  | (Returned _, w1) => exec (k tt) (set_promise p Resolved w1)
  | (Failed e, w1) => exec (k tt) (set_promise p (Rejected e) w1)
  | (Exhausted, w1) => (Exhausted, w1)
  | (Stuck, w1) => exec (k tt) w1
  end.
Proof.
  change (exec (fork p body ≫= k) w) with
    (let '(o, w1) := exec body (set_promise p Pending w) in
     match o with
     | Returned _ => exec (k tt) (set_promise p Resolved w1)
     | Failed e => exec (k tt) (set_promise p (Rejected e) w1)
     | Exhausted => (Exhausted, w1)
     | Stuck => exec (k tt) w1
     end).
  by destruct (exec body (set_promise p Pending w)) as [[] ?].
Qed.

Lemma exec_await p w :
  exec (await p) w =
  match promise w p with
  | Some Resolved => (Returned tt, w)
  | Some (Rejected e) => (Failed e, w)
  | Some Pending | None => (Stuck, w)
  end.
Proof. simpl. by destruct (promise w p) as [[]|]. Qed.

(** *** Properties kept along a call *)

(** How a call ended, without the value. *)
Inductive Kind : Type := KReturned | KFailed | KExhausted | KStuck.

Definition kind {A : Type} (o : Outcome A) : Kind :=
  match o with
  | Returned _ => KReturned
  | Failed _ => KFailed
  | Exhausted => KExhausted
  | Stuck => KStuck
  end.

(** The kind of [await Promise.all([p1, p2])], from the kinds of the
    branches. *)
Definition both_kind (k1 k2 : Kind) : Kind :=
  match k1, k2 with
  | KExhausted, _ | _, KExhausted => KExhausted
  | KStuck, _ | _, KStuck => KStuck
  | KFailed, _ | _, KFailed => KFailed
  | KReturned, KReturned => KReturned
  end.

(** A property [Q w k w'] of the runs of calls (from [w], ending in the
    manner [k] in [w']) that can be proved along the code: it holds of a
    call that returns or throws at once, and of a sequence when it holds of
    the parts. *)
Class Composable (Q : World -> Kind -> World -> Prop) : Prop := {
  comp_ret : forall w, Q w KReturned w;
  comp_failed : forall w, Q w KFailed w;
  comp_trans : forall w w' w'' k,
    Q w KReturned w' -> Q w' k w'' -> Q w k w'';
}.

(** Such a property holds of [await Promise.all([p1, p2])] when it holds of
    one branch after the other, however they end. *)
Class Parallel (Q : World -> Kind -> World -> Prop) : Prop :=
  par_both : forall w w1 w2 k1 k2,
    Q w k1 w1 -> Q w1 k2 w2 -> Q w (both_kind k1 k2) w2.

(** A relation between the state before and the state after. *)
Definition rel (R : relation World) : World -> Kind -> World -> Prop :=
  fun w _ w' => R w w'.

#[global] Instance rel_composable (R : relation World) `{!PreOrder R} :
  Composable (rel R).
Proof.
  split; unfold rel.
  - intros w. reflexivity.
  - intros w. reflexivity.
  - intros w w' w'' _ H1 H2. by etrans.
Qed.

#[global] Instance rel_parallel (R : relation World) `{!PreOrder R} :
  Parallel (rel R).
Proof. intros w w1 w2 k1 k2 H1 H2. unfold rel in *. by etrans. Qed.

Section Sat.

Context (Q : World -> Kind -> World -> Prop) `{!Composable Q}.

(** [sat w m]: the property holds of the run of the call [m] from [w]. *)
Definition sat {A : Type} (w : World) (m : Async A) : Prop :=
  Q w (kind (exec m w).1) (exec m w).2.

Lemma sat_ret {A : Type} (a : A) w : sat w (Ret a).
Proof. apply comp_ret. Qed.

Lemma sat_throw {A : Type} e w : sat w (@Throw A e).
Proof. apply comp_failed. Qed.

Lemma sat_bind {A B : Type} (m : Async A) (f : A -> Async B) w :
  sat w m ->
  (forall a w', exec m w = (Returned a, w') -> sat w' (f a)) ->
  sat w (m ≫= f).
Proof.
  unfold sat. intros Hm Hf. rewrite exec_bind.
  destruct (exec m w) as [[a|e| |] w'] eqn:E; simpl in *; try done.
  eapply comp_trans; [exact Hm | by apply Hf].
Qed.

Lemma sat_get_bind {A : Type} (k : World -> Async A) w :
  sat w (k w) -> sat w (get ≫= k).
Proof. done. Qed.

Lemma sat_modify_bind {A : Type} (f : World -> World) (k : unit -> Async A) w :
  Q w KReturned (f w) -> sat (f w) (k tt) -> sat w (modify f ≫= k).
Proof.
  unfold sat. rewrite exec_modify_bind. intros. by eapply comp_trans.
Qed.

Lemma sat_modify (f : World -> World) w :
  Q w KReturned (f w) -> sat w (modify f).
Proof. done. Qed.

Lemma sat_io {X : Type} (r : Request X) w :
  Q w KReturned (record_request r w) -> sat w (io r).
Proof. done. Qed.

Lemma sat_call {X : Type} (r : Request (Fallible X)) w :
  Q w KReturned (record_request r w) ->
  Q w KFailed (record_request r w) ->
  sat w (call r).
Proof.
  unfold sat. rewrite exec_call. by destruct (env _ (history w) r).
Qed.

Lemma sat_throwIfCancelled tok w : sat w (throwIfCancelled tok).
Proof.
  unfold sat. rewrite exec_throwIfCancelled. simpl.
  destruct tok as [t|]; [|apply comp_ret].
  destruct (decide _); [apply comp_failed | apply comp_ret].
Qed.

Lemma sat_both `{!Parallel Q} (p1 p2 : Async unit) w :
  sat w p1 -> (forall w', sat w' p2) -> sat w (both p1 p2).
Proof.
  unfold sat. intros H1 H2. simpl. specialize (H2 (exec p1 w).2).
  destruct (exec p1 w) as [o1 w1]. simpl in *.
  destruct (exec p2 w1) as [o2 w2]. simpl in *.
  pose proof (par_both _ _ _ _ _ H1 H2) as H.
  by destruct o1, o2.
Qed.

Lemma sat_sequence {A B : Type} (items : list A) (f : A -> Async B) w :
  (forall item w', sat w' (f item)) -> sat w (sequence items f).
Proof.
  intros Hf. revert w. induction items as [|item rest IH]; intros w.
  - apply sat_ret.
  - simpl. apply sat_bind; [apply Hf|]. intros r w1 _.
    apply sat_bind; [apply IH|]. intros rs w2 _. apply sat_ret.
Qed.

End Sat.

Abbreviation keeps R := (sat (rel R)).

Lemma keeps_await (R : relation World) `{!PreOrder R} p w :
  keeps R w (await p).
Proof.
  unfold sat, rel. simpl. by destruct (promise w p) as [[]|]; simpl.
Qed.

Lemma keeps_out_of_fuel (R : relation World) `{!PreOrder R} {A : Type} w :
  keeps R w (@OutOfFuel A).
Proof. unfold sat, rel. simpl. reflexivity. Qed.


(** The request of [execCommand] is issued from a state that differs from
    the one of the call in the session only. *)
Lemma exec_execCommand (cmd : Command) (w : World) :
  exists w1, only_session w w1 /\
    (exec (execCommand cmd) w
       = (Returned (env _ (history w1) (Process cmd)),
          record_request (Process cmd) w1)
     \/ exec (execCommand cmd) w = (Stuck, w1)
     \/ exists e, exec (execCommand cmd) w = (Failed e, w1)).
Proof.
  unfold execCommand, _ensureDesign, _createDesign. simpl.
  destruct (_designPromise w) as [[| |e]|] eqn:E; simpl; rewrite ?E.
  - exists w. split; [done|]. right. by left.
  - exists w. split; [done|]. by left.
  - exists w. split; [done|]. right. right. by exists e.
  - destruct (ok (env CommandResult
                     (history (with_designPromise (Some Pending) w))
                     (Process CreateDesign))); simpl.
    + eexists. split; [|by left].
      etrans; [|apply only_session_designPromise].
      etrans; [|apply only_session_record].
      apply only_session_designPromise.
    + eexists. split; [|right; right; by eexists].
      etrans; [|apply only_session_designPromise].
      etrans; [|apply only_session_record].
      apply only_session_designPromise.
Qed.

Lemma exec_execCommand_resolved (cmd : Command) (w : World) :
  _designPromise w = Some Resolved ->
  exec (execCommand cmd) w
  = (Returned (env _ (history w) (Process cmd)),
     record_request (Process cmd) w).
Proof.
  intros E. unfold execCommand, _ensureDesign. simpl. by rewrite E; simpl; rewrite E.
Qed.

Lemma keeps_execCommand (R : relation World) `{!PreOrder R} cmd w :
  (forall p w', R w' (with_designPromise p w')) ->
  (forall w', R w' (record_request (Process CreateDesign) w')) ->
  (forall w', _artboards w' = _artboards w ->
     R w' (record_request (Process cmd) w')) ->
  keeps R w (execCommand cmd).
Proof.
  intros Hp Hc Hcmd. unfold sat, rel, execCommand, _ensureDesign, _createDesign.
  simpl.
  destruct (_designPromise w) as [[| |e]|] eqn:E; simpl; rewrite ?E; simpl;
    try reflexivity.
  - by apply Hcmd.
  - destruct (ok (env CommandResult
                     (history (with_designPromise (Some Pending) w))
                     (Process CreateDesign))); simpl.
    + etrans; [apply (Hp (Some Pending))|]. etrans; [apply Hc|].
      etrans; [apply (Hp (Some Resolved))|]. by apply Hcmd.
    + etrans; [apply (Hp (Some Pending))|]. etrans; [apply Hc|].
      apply (Hp (Some (Rejected CreateDesignFailed))).
Qed.


(** *** The pipeline keeps [evolves] *)

Ltac composable :=
  try lazymatch goal with
      | |- Composable _ => apply _
      | |- Parallel _ => apply _
      end.

Ltac keeps_step :=
  lazymatch goal with
  | |- sat _ _ (get ≫= _) => apply sat_get_bind; composable
  | |- sat _ _ (_ ≫= _) => apply sat_bind; composable; [|intros ? ? ?]
  | |- sat _ _ (Ret _) => apply sat_ret; composable
  | |- sat _ _ (Throw _) => apply sat_throw; composable
  | |- sat (rel _) _ OutOfFuel => apply keeps_out_of_fuel; apply _
  | |- sat (rel _) _ (await _) => apply keeps_await; apply _
  | |- sat _ _ (throwIfCancelled _) => apply sat_throwIfCancelled; composable
  | |- sat _ _ (if ?b then _ else _) => destruct b eqn:?
  | |- sat _ _ (match ?x with _ => _ end) => destruct x eqn:?
  end.

Lemma evolves_call {X : Type} (r : Request (Fallible X)) w :
  keeps evolves w (call r).
Proof.
  apply sat_call; composable; apply only_session_evolves, only_session_record.
Qed.

Lemma evolves_execCommand cmd w : keeps evolves w (execCommand cmd).
Proof.
  apply keeps_execCommand; [apply _|..]; intros;
    apply only_session_evolves;
    [apply only_session_designPromise | apply only_session_record..].
Qed.

Lemma evolves__loadArtboardContent a tok w :
  keeps evolves w (_loadArtboardContent a tok).
Proof.
  unfold _loadArtboardContent.
  repeat first [apply evolves_call | keeps_step].
Qed.

Lemma evolves_setOctopus a content w : keeps evolves w (setOctopus a content).
Proof.
  apply sat_modify; composable. split; simpl; try done; eauto; try congruence.
  intros x. destruct (decide (a = x)) as [->|].
  - rewrite lookup_alter_eq. by destruct (_artboardsById w !! x).
  - by rewrite lookup_alter_ne.
Qed.

Lemma evolves_fork_loading a (body : Async unit) w :
  _loadingArtboardPromises w !! a = None ->
  keeps evolves (set_promise (LoadingArtboard a) Pending w) body ->
  keeps evolves w (fork (LoadingArtboard a) body).
Proof.
  unfold sat, rel. simpl. intros Hnone Hbody.
  assert (forall w1, evolves (set_promise (LoadingArtboard a) Pending w) w1 ->
            forall w2, trace w2 = trace w1 ->
              _renderingDesign w2 = _renderingDesign w1 ->
              _localDesign w2 = _localDesign w1 ->
              _apiDesign w2 = _apiDesign w1 ->
              _fontSource w2 = _fontSource w1 ->
              _artboardsByComponentId w2 = _artboardsByComponentId w1 ->
              _artboardsById w2 = _artboardsById w1 ->
              _artboards w2 = _artboards w1 ->
              _loadedFonts w2 = _loadedFonts w1 ->
              _loadedBitmaps w2 = _loadedBitmaps w1 ->
              (forall x, x <> a -> _loadingArtboardPromises w2 !! x
                                  = _loadingArtboardPromises w1 !! x) ->
              evolves w w2) as Hgen.
  { intros w1 H w2 E1 E2 E3 E4 E5 E6 E7 E8 E9 E10 E11.
    destruct H as [H1 H2 H3 H4 H5 H6 H7 H8 H8' H9 H10 H11 H12]. simpl in *.
    split; try congruence.
    - intros x ra Hx. rewrite E8. by apply H8.
    - intros x ra Hx. rewrite E8 in Hx. by apply H8'.
    - intros x Hx. unfold isArtboardReady in Hx. rewrite E8 in Hx.
      by apply H9 in Hx.
    - intros x q Hx Hq. assert (x <> a) by congruence.
      rewrite E11; [|done]. apply H10; [|done]. by rewrite lookup_insert_ne.
    - by rewrite E9.
    - by rewrite E10. }
  destruct (exec body _) as [[[]|e| |] w1]; simpl in *.
  - apply (Hgen w1 Hbody); try done. intros x ?. simpl. by rewrite lookup_insert_ne.
  - apply (Hgen w1 Hbody); try done. intros x ?. simpl. by rewrite lookup_insert_ne.
  - by apply (Hgen w1 Hbody).
  - by apply (Hgen w1 Hbody).
Qed.

Lemma evolves_loadArtboard a tok w : keeps evolves w (loadArtboard a tok).
Proof.
  unfold loadArtboard.
  repeat first
    [ apply evolves_fork_loading; [done|]
    | apply evolves__loadArtboardContent | apply evolves_setOctopus
    | keeps_step ].
Qed.

Lemma evolves_ArtboardFacade_load a tok w :
  keeps evolves w (ArtboardFacade_load a tok).
Proof.
  unfold ArtboardFacade_load.
  repeat first [apply evolves_loadArtboard | keeps_step].
Qed.

Lemma evolves_getBitmapAssets a w : keeps evolves w (getBitmapAssets a).
Proof.
  unfold getBitmapAssets.
  repeat first [apply evolves_ArtboardFacade_load | keeps_step].
Qed.

Lemma evolves_getFonts a w : keeps evolves w (getFonts a).
Proof.
  unfold getFonts.
  repeat first [apply evolves_ArtboardFacade_load | keeps_step].
Qed.

Lemma evolves_downloadBitmapAsset name tok w :
  keeps evolves w (downloadBitmapAsset name tok).
Proof.
  unfold downloadBitmapAsset.
  repeat first [apply evolves_call | keeps_step].
Qed.

Lemma evolves_downloadBitmapAssets names tok w :
  keeps evolves w (downloadBitmapAssets names tok).
Proof.
  unfold downloadBitmapAssets.
  repeat first [ apply sat_sequence; composable; intros
               | apply evolves_downloadBitmapAsset | keeps_step].
Qed.

Lemma evolves_loadFont name file face w :
  keeps evolves w (loadFont name file face).
Proof.
  unfold loadFont. keeps_step. keeps_step; [keeps_step|].
  apply sat_modify_bind; composable.
  { split; simpl; try done; eauto; try congruence; set_solver. }
  repeat first [apply evolves_execCommand | keeps_step].
Qed.

Lemma evolves_loadImage key file w : keeps evolves w (loadImage key file).
Proof.
  unfold loadImage. keeps_step. keeps_step; [keeps_step|].
  keeps_step; [apply evolves_execCommand|].
  apply sat_modify; composable. split; simpl; try done; eauto; try congruence; set_solver.
Qed.

Lemma evolves__loadFontsToRendering fonts tok w :
  keeps evolves w (_loadFontsToRendering fonts tok).
Proof.
  unfold _loadFontsToRendering.
  repeat first [ apply sat_sequence; composable; intros
               | apply evolves_call | apply evolves_loadFont
               | keeps_step].
Qed.

(** *** The rendering design *)

Lemma execCommand_cases (cmd : Command) (w : World)
    (Q : Outcome CommandResult * World -> Prop) :
  (forall w1, only_session w w1 ->
     Q (Returned (env _ (history w1) (Process cmd)),
        record_request (Process cmd) w1)) ->
  (forall w1, only_session w w1 -> Q (Stuck, w1)) ->
  (forall e w1, only_session w w1 -> Q (Failed e, w1)) ->
  Q (exec (execCommand cmd) w).
Proof.
  intros H1 H2 H3.
  destruct (exec_execCommand cmd w) as (w1 & Hw1 & [E|[E|[e E]]]);
    rewrite E; auto.
Qed.

(** [touches a w w']: besides the session, only the entry of [a] in
    [RenderingDesign._artboards] differs; its [_ready] flag does not, and
    its pending components are replaced, if at all, by those the rendering
    process answered. *)
Record touches (a : ArtboardId) (w w' : World) : Prop := mkTouches {
  to_objects :
    forget_session (with_artboards ∅ w') = forget_session (with_artboards ∅ w);
  to_trace : suffix (trace w) (trace w');
  to_others : forall x, x <> a -> _artboards w' !! x = _artboards w !! x;
  to_ready : _ready <$> _artboards w' !! a = _ready <$> _artboards w !! a;
  to_pending :
    _pendingSymbolIds <$> _artboards w' !! a
    = _pendingSymbolIds <$> _artboards w !! a
    \/ exists hist, _pendingSymbolIds <$> _artboards w' !! a
         = Some (default []
                   (symbols (env _ hist (Process (GetArtboardDependencies a)))));
}.

#[local] Instance touches_preorder a : PreOrder (touches a).
Proof.
  split.
  - intros w. split; auto.
  - intros w1 w2 w3 [H1 H2 H3 H4 H5] [G1 G2 G3 G4 G5]. split.
    + congruence.
    + by etrans.
    + intros x Hx. rewrite G3, H3; done.
    + congruence.
    + destruct G5 as [G5|G5]; [|by right]. rewrite G5. exact H5.
Qed.

Lemma only_session_touches a w w' : only_session w w' -> touches a w w'.
Proof.
  intros H. pose proof (os_trace _ _ H) as Ht.
  pose proof (os_objects _ _ H) as Ho.
  apply only_session_fields in H
    as (H1 & H2 & H3 & H4 & H5 & H6 & H7 & H8 & H9 & H10).
  split; [|done|intros; by rewrite H8|by rewrite H8|left; by rewrite H8].
  unfold forget_session in *. by apply (f_equal (with_artboards ∅)) in Ho.
Qed.

Lemma touches_fields a w w' :
  touches a w w' ->
  _renderingDesign w' = _renderingDesign w
  /\ _localDesign w' = _localDesign w
  /\ _apiDesign w' = _apiDesign w
  /\ _fontSource w' = _fontSource w
  /\ _loadingArtboardPromises w' = _loadingArtboardPromises w
  /\ _artboardsById w' = _artboardsById w
  /\ _artboardsByComponentId w' = _artboardsByComponentId w
  /\ _loadedBitmaps w' = _loadedBitmaps w
  /\ _loadedFonts w' = _loadedFonts w.
Proof.
  intros [H _ _ _ _]. unfold forget_session in H.
  split_and!.
  - apply (f_equal _renderingDesign) in H. exact H.
  - apply (f_equal _localDesign) in H. exact H.
  - apply (f_equal _apiDesign) in H. exact H.
  - apply (f_equal _fontSource) in H. exact H.
  - apply (f_equal _loadingArtboardPromises) in H. exact H.
  - apply (f_equal _artboardsById) in H. exact H.
  - apply (f_equal _artboardsByComponentId) in H. exact H.
  - apply (f_equal _loadedBitmaps) in H. exact H.
  - apply (f_equal _loadedFonts) in H. exact H.
Qed.

Lemma touches_execCommand a cmd w : keeps (touches a) w (execCommand cmd).
Proof.
  apply keeps_execCommand; [apply _|..]; intros;
    apply only_session_touches;
    [apply only_session_designPromise | apply only_session_record..].
Qed.

Lemma touches_set_pendingSymbolIds a hist w :
  touches a w
    (with_artboards
       (alter (set_pendingSymbolIds
                 (default []
                    (symbols (env _ hist (Process (GetArtboardDependencies a))))))
          a (_artboards w)) w).
Proof.
  split; simpl; try done.
  - intros x Hx. by rewrite lookup_alter_ne.
  - rewrite lookup_alter_eq. by destruct (_artboards w !! a).
  - rewrite lookup_alter_eq. destruct (_artboards w !! a); [right|by left].
    by exists hist.
Qed.

Lemma exec__getPendingArtboardDependencies a w l w' :
  exec (_getPendingArtboardDependencies a) w = (Returned l, w') ->
  exists hist,
    l = default [] (symbols (env _ hist (Process (GetArtboardDependencies a)))).
Proof.
  unfold _getPendingArtboardDependencies. rewrite exec_bind.
  pattern (exec (execCommand (GetArtboardDependencies a)) w).
  apply execCommand_cases; simpl; try done.
  intros w1 _. destruct (ok _); simpl; [|done]. intros [= <- _]. eauto.
Qed.

Lemma touches_RenderingArtboard_load a this file w :
  keeps (touches a) w (RenderingArtboard_load a this file).
Proof.
  unfold RenderingArtboard_load.
  keeps_step; [apply touches_execCommand|]. keeps_step; [|keeps_step].
  keeps_step.
  - unfold _getPendingArtboardDependencies.
    repeat first [apply touches_execCommand | keeps_step].
  - apply exec__getPendingArtboardDependencies in H0 as [hist ->].
    apply sat_modify; composable. apply touches_set_pendingSymbolIds.
Qed.

(** [RenderingDesign.loadArtboard] returns the registered artboard; a new
    one is registered as not ready. *)
Lemma exec_RenderingDesign_loadArtboard a file sym page w :
  match _artboards w !! a with
  | Some prev =>
      exec (RenderingDesign_loadArtboard a file sym page) w = (Returned prev, w)
  | None =>
      exists ra w1,
        _ready ra = false
        /\ _pendingSymbolIds ra = []
        /\ touches a (with_artboards (<[a := ra]> (_artboards w)) w) w1
        /\ (exec (RenderingDesign_loadArtboard a file sym page) w).2 = w1
        /\ forall desc,
             (exec (RenderingDesign_loadArtboard a file sym page) w).1
             = Returned desc ->
             _artboards w1 !! a = Some desc
  end.
Proof.
  unfold RenderingDesign_loadArtboard. rewrite exec_get_bind.
  destruct (_artboards w !! a) as [prev|] eqn:E; [done|].
  rewrite exec_modify_bind, exec_bind.
  set (ra := mkRenderingArtboard (or_null sym) (or_null page) false []).
  set (w0 := with_artboards (<[a:=ra]> (_artboards w)) w).
  pose proof (touches_RenderingArtboard_load a ra file w0) as Ht.
  unfold sat, rel in Ht.
  destruct (exec (RenderingArtboard_load a ra file) w0) as [[[]|e| |] w1];
    simpl in *; exists ra, w1; split_and!; try done.
  intros desc [= <-].
  pose proof (to_ready _ _ _ Ht) as Hr. subst w0. simpl in Hr.
  rewrite lookup_insert_eq in Hr.
  by destruct (_artboards w1 !! a).
Qed.

Lemma evolves_register a ra w w1 :
  _artboards w !! a = None ->
  _ready ra = false ->
  _pendingSymbolIds ra = [] ->
  touches a (with_artboards (<[a := ra]> (_artboards w)) w) w1 ->
  evolves w w1.
Proof.
  intros Hnone Hra Hpe Ht.
  pose proof (touches_fields _ _ _ Ht)
    as (H1 & H2 & H3 & H4 & H5 & H6 & H7 & H8 & H9).
  destruct Ht as [_ Ht Ho Hr Hp]. simpl in *.
  split; try done.
  - intros x. by rewrite H6.
  - intros x rx Hx. assert (x <> a) by congruence.
    exists rx. rewrite Ho, lookup_insert_ne; done.
  - intros x rx Hx Hn. destruct (decide (x = a)) as [->|].
    + rewrite lookup_insert_eq, Hx in Hp. simpl in Hp.
      destruct Hp as [Hp|[hist Hp]]; [left|right; exists hist]; congruence.
    + rewrite Ho, lookup_insert_ne in Hx by done. congruence.
  - intros x Hx. left. unfold isArtboardReady in *.
    destruct (decide (x = a)) as [->|].
    + rewrite lookup_insert_eq in Hr. simpl in Hr.
      destruct (_artboards w1 !! a); simplify_eq/=. congruence.
    + by rewrite Ho, lookup_insert_ne in Hx.
  - intros x q Hx _. by rewrite H5.
  - by rewrite H9.
  - by rewrite H8.
Qed.

Lemma evolves_RenderingDesign_loadArtboard a file sym page w :
  keeps evolves w (RenderingDesign_loadArtboard a file sym page).
Proof.
  unfold sat, rel.
  pose proof (exec_RenderingDesign_loadArtboard a file sym page w) as H.
  destruct (_artboards w !! a) as [prev|] eqn:E.
  - rewrite H. reflexivity.
  - destruct H as (ra & w1 & Hra & Hpe & Ht & <- & _).
    by eapply evolves_register.
Qed.

(** [markArtboardAsReady] either returns, after a [finalize-artboard]
    command that succeeded, with the flag of the artboard set, or does not
    return and leaves every artboard as it was. *)
Lemma exec_markArtboardAsReady a w :
  (exists w1,
      only_session w w1
      /\ ok (env _ (history w1) (Process (FinalizeArtboard a))) = true
      /\ is_Some (_artboards w !! a)
      /\ exec (markArtboardAsReady a) w
         = (Returned tt,
            with_artboards (alter (set_ready true) a (_artboards w))
              (record_request (Process (FinalizeArtboard a)) w1)))
  \/ ((exec (markArtboardAsReady a) w).1 <> Returned tt
      /\ only_session w (exec (markArtboardAsReady a) w).2).
Proof.
  unfold markArtboardAsReady, markAsReady, update_artboard.
  rewrite exec_get_bind.
  destruct (_artboards w !! a) as [ra|] eqn:E; [|by right].
  rewrite exec_bind.
  pattern (exec (execCommand (FinalizeArtboard a)) w).
  apply execCommand_cases; simpl.
  - intros w1 Hw1.
    destruct (ok (env CommandResult (history w1) (Process (FinalizeArtboard a))))
      eqn:Hok; simpl.
    + left. exists w1. split_and!; try done.
      apply only_session_fields in Hw1
        as (H1 & H2 & H3 & H4 & H5 & H6 & H7 & H8 & H9 & H10).
      by rewrite H8.
    + right. split; [done|]. etrans; [done|apply only_session_record].
  - intros w1 Hw1. by right.
  - intros e w1 Hw1. by right.
Qed.

Lemma evolves_set_ready a hist w :
  ok (env _ hist (Process (FinalizeArtboard a))) = true ->
  evolves w (with_artboards (alter (set_ready true) a (_artboards w)) w).
Proof.
  intros Hok. split; simpl; try done; eauto; try congruence.
  - intros x rx Hx. destruct (decide (x = a)) as [->|].
    + exists (set_ready true rx). rewrite lookup_alter_eq, Hx. done.
    + exists rx. by rewrite lookup_alter_ne.
  - intros x rx Hx Hn. destruct (decide (x = a)) as [->|].
    + rewrite lookup_alter_eq, Hn in Hx. done.
    + rewrite lookup_alter_ne in Hx by done. congruence.
  - intros x Hx. destruct (decide (x = a)) as [->|]; [right; eauto|left].
    unfold isArtboardReady in *. simpl in Hx.
    by rewrite lookup_alter_ne in Hx.
Qed.

Lemma evolves_markArtboardAsReady a w :
  keeps evolves w (markArtboardAsReady a).
Proof.
  unfold sat, rel.
  destruct (exec_markArtboardAsReady a w)
    as [(w1 & Hw1 & Hok & _ & E)|[_ H]].
  - rewrite E. simpl.
    etrans; [apply only_session_evolves; exact Hw1|].
    etrans; [apply only_session_evolves,
               (only_session_record (Process (FinalizeArtboard a)))|].
    pose proof (evolves_set_ready a _
                  (record_request (Process (FinalizeArtboard a)) w1) Hok) as H.
    simpl in H. apply only_session_fields in Hw1
      as (H1 & H2 & H3 & H4 & H5 & H6 & H7 & H8 & H9 & H10).
    by rewrite H8 in H.
  - by apply only_session_evolves.
Qed.

Lemma evolves__loadRenderingDesignArtboard fuel a params w :
  keeps evolves w (_loadRenderingDesignArtboard fuel a params).
Proof.
  revert a w. induction fuel as [|fuel IH]; intros a w.
  - apply keeps_out_of_fuel. apply _.
  - rewrite _loadRenderingDesignArtboard_S.
    unfold _loadRenderingDesignArtboard_body.
    repeat first
      [ apply evolves_ArtboardFacade_load | apply evolves_call
      | apply evolves_RenderingDesign_loadArtboard
      | apply evolves_getBitmapAssets | apply evolves_getFonts
      | apply evolves_markArtboardAsReady
      | apply sat_both; composable; [|intros]
      | apply evolves_downloadBitmapAssets
      | apply evolves__loadFontsToRendering
      | apply sat_sequence; composable; intros
      | apply IH
      | keeps_step ].
Qed.

(** *** What a call that returned went through *)

Lemma exec_bind_returned {A B : Type} (m : Async A) (f : A -> Async B) w b w' :
  exec (m ≫= f) w = (Returned b, w') ->
  exists a w1, exec m w = (Returned a, w1) /\ exec (f a) w1 = (Returned b, w').
Proof.
  rewrite exec_bind. destruct (exec m w) as [[a|e| |] w1]; simpl; try done.
  eauto.
Qed.

Ltac returned H :=
  repeat first
    [ rewrite exec_get_bind in H
    | match type of H with
      | exec (if ?b then _ else _) _ = _ => destruct b eqn:?
      | exec (match ?x with _ => _ end) _ = _ => destruct x eqn:?
      | exec (Throw _) _ = _ => discriminate H
      | exec OutOfFuel _ = _ => discriminate H
      end ].

(** What [evolves] says of a call [lem] whose run is [H]. *)
Ltac evolved H lem :=
  let Hev := fresh "Hev" in
  pose proof lem as Hev; unfold sat, rel in Hev; rewrite H in Hev;
  simpl in Hev.

(** A load that returns leaves the artboard ready. *)
Lemma returned__loadRenderingDesignArtboard fuel a params w w' :
  exec (_loadRenderingDesignArtboard fuel a params) w = (Returned tt, w') ->
  isArtboardReady w' a = true.
Proof.
  destruct fuel as [|fuel]; [done|]. rewrite _loadRenderingDesignArtboard_S.
  unfold _loadRenderingDesignArtboard_body. intros H. returned H.
  { by simplify_eq/=. }
  apply exec_bind_returned in H as (? & w1 & _ & H).
  apply exec_bind_returned in H as (? & w2 & _ & H). returned H.
  apply exec_bind_returned in H as (? & w3 & _ & H).
  apply exec_bind_returned in H as (? & w4 & _ & H).
  apply exec_bind_returned in H as (? & w5 & _ & H).
  apply exec_bind_returned in H as (? & w6 & _ & H).
  apply exec_bind_returned in H as (? & w7 & _ & H).
  apply exec_bind_returned in H as (? & w8 & _ & H).
  returned H. by simplify_eq/=.
Qed.



(** ** Idempotence after success *)

(** C4. When the artboard is already ready in the rendering design, the
    load returns at once: the state, and with it the trace of requests to
    the content store and to the rendering process, is the one the call
    started from.  This holds for any parameters, a cancelled token
    included. *)
Theorem load_of_ready_artboard_is_noop (fuel : nat)
    (artboardId : ArtboardId) (params : LoadParams) (w : World) :
  _renderingDesign w = true ->
  isArtboardReady w artboardId = true ->
  exec (_loadRenderingDesignArtboard (S fuel) artboardId params) w
  = (Returned tt, w).
Proof.
  intros Hrd Hready. rewrite _loadRenderingDesignArtboard_S.
  unfold _loadRenderingDesignArtboard_body. rewrite exec_get_bind.
  by rewrite Hrd, Hready.
Qed.


(** *** Calls that settle *)

(** No promise is pending: nothing else is in flight. *)
Definition settled (w : World) : Prop :=
  (forall a, _loadingArtboardPromises w !! a <> Some Pending)
  /\ _designPromise w <> Some Pending.

(** [settles]: from a state where nothing is pending, the call returns or
    throws, and leaves nothing pending. *)
Definition settles : World -> Kind -> World -> Prop :=
  fun w k w' => settled w -> (k = KReturned \/ k = KFailed) /\ settled w'.

#[local] Instance settles_composable : Composable settles.
Proof.
  split; unfold settles.
  - auto.
  - auto.
  - intros w w' w'' k H1 H2 Hs. destruct (H1 Hs) as [_ Hs']. auto.
Qed.

#[local] Instance settles_parallel : Parallel settles.
Proof.
  intros w w1 w2 k1 k2 H1 H2 Hs. destruct (H1 Hs) as [Hk1 Hs1].
  destruct (H2 Hs1) as [Hk2 Hs2]. split; [|done].
  destruct Hk1 as [-> | ->], Hk2 as [-> | ->]; simpl; auto.
Qed.

Ltac settles_prim :=
  idtac;
  lazymatch goal with
  | |- settles _ _ _ => intros Hs; split; [auto | exact Hs]
  end.

Ltac sat_crush prim :=
  repeat first
    [ keeps_step
    | apply sat_sequence; composable; intros
    | apply sat_both; composable; [|intros]
    | apply sat_io; composable; prim
    | apply sat_call; composable; prim
    | apply sat_modify; composable; prim
    | prim ].

Lemma settles_execCommand cmd w : sat settles w (execCommand cmd).
Proof.
  unfold sat, settles, execCommand, _ensureDesign, _createDesign.
  intros [Hs1 Hs2]. simpl.
  destruct (_designPromise w) as [[| |e]|] eqn:E; simpl; rewrite ?E; simpl.
  - done.
  - split; [auto|]. split; simpl; [done | by rewrite E].
  - split; [auto|]. split; simpl; [done | by rewrite E].
  - destruct (ok (env CommandResult
                     (history (with_designPromise (Some Pending) w))
                     (Process CreateDesign))); simpl.
    + split; [auto|]. by split.
    + split; [auto|]. by split.
Qed.

Lemma settles__loadArtboardContent a tok w :
  sat settles w (_loadArtboardContent a tok).
Proof. unfold _loadArtboardContent. sat_crush ltac:(settles_prim). Qed.

Lemma settles_setOctopus a content w : sat settles w (setOctopus a content).
Proof. unfold setOctopus. sat_crush ltac:(settles_prim). Qed.

(** The stored promise of a content load, as the outcome of awaiting it. *)
Definition awaited {A : Type} (a : A) (p : Promise) : Outcome A :=
  match p with
  | Resolved => Returned a
  | Rejected e => Failed e
  | Pending => Stuck
  end.

(** The first [loadArtboard] of an artboard that is not loaded stores a
    promise, which is settled when the call ends, and ends as the promise
    does. *)
Lemma exec_loadArtboard_first a tok w :
  is_Some (_artboardsById w !! a) ->
  isLoaded w a = false ->
  _loadingArtboardPromises w !! a = None ->
  exists p,
    _loadingArtboardPromises (exec (loadArtboard a tok) w).2 !! a = Some p
    /\ p <> Pending
    /\ (exec (loadArtboard a tok) w).1 = awaited tt p
    /\ (forall x, x <> a ->
         _loadingArtboardPromises (exec (loadArtboard a tok) w).2 !! x
         = _loadingArtboardPromises w !! x)
    /\ _designPromise (exec (loadArtboard a tok) w).2 = _designPromise w.
Proof.
  intros [ent Hent] Hl Hn. unfold loadArtboard. rewrite exec_get_bind.
  rewrite Hent, Hn, Hl. rewrite exec_fork_bind.
  set (w0 := set_promise (LoadingArtboard a) Pending w).
  set (body := _ ≫= _).
  set (plain := fun (w : World) (k : Kind) (w' : World) =>
                  _loadingArtboardPromises w' = _loadingArtboardPromises w
                  /\ _designPromise w' = _designPromise w
                  /\ (k = KReturned \/ k = KFailed)).
  assert (sat plain w0 body) as (Hsame & Hd & Hk).
  { assert (Composable plain) as Hc.
    { split; unfold plain; auto.
      intros ???? (-> & -> & _) (-> & -> & ?). done. }
    subst body. unfold _loadArtboardContent, setOctopus.
    sat_crush ltac:(by unfold plain; auto). }
  destruct (exec body w0) as [[[]|e| |] w1]; simpl in Hsame, Hd, Hk;
    try (by destruct Hk); rewrite exec_await; simpl;
    rewrite lookup_insert_eq; simpl; rewrite lookup_insert_eq.
  - exists Resolved. split_and!; try done. intros x Hx.
    rewrite lookup_insert_ne, Hsame by done. subst w0. simpl.
    by rewrite lookup_insert_ne.
  - exists (Rejected e). split_and!; try done. intros x Hx.
    rewrite lookup_insert_ne, Hsame by done. subst w0. simpl.
    by rewrite lookup_insert_ne.
Qed.

(** A later [loadArtboard] awaits the stored promise and does nothing
    else. *)
Lemma exec_loadArtboard_again a tok p w :
  is_Some (_artboardsById w !! a) ->
  _loadingArtboardPromises w !! a = Some p ->
  exec (loadArtboard a tok) w = (awaited tt p, w).
Proof.
  intros [ent Hent] Hp. unfold loadArtboard. rewrite exec_get_bind.
  rewrite Hent, Hp. simpl. rewrite Hp. by destruct p.
Qed.

Lemma settles_loadArtboard a tok w : sat settles w (loadArtboard a tok).
Proof.
  unfold sat, settles. intros Hs.
  destruct (_artboardsById w !! a) as [ent|] eqn:Hent; cycle 1.
  { unfold loadArtboard. rewrite exec_get_bind, Hent. simpl. auto. }
  destruct (_loadingArtboardPromises w !! a) as [p|] eqn:Hp.
  { rewrite (exec_loadArtboard_again a tok p) by eauto.
    destruct p; simpl; auto. by destruct Hs as [Hs _]; destruct (Hs a). }
  destruct (isLoaded w a) eqn:Hl.
  { unfold loadArtboard. rewrite exec_get_bind, Hent, Hp, Hl. simpl. auto. }
  destruct (exec_loadArtboard_first a tok w) as (p & H1 & H2 & H3 & H4 & H5);
    eauto.
  destruct (exec (loadArtboard a tok) w) as [o w1]. simpl in *. subst o.
  split; [destruct p; simpl; auto; done|].
  destruct Hs as [Hs1 Hs2]. split; [|congruence].
  intros x. destruct (decide (x = a)) as [->|]; [congruence|].
  rewrite H4 by done. apply Hs1.
Qed.

(** *** The calls of the pipeline settle *)

Ltac settles_leaf :=
  sat_crush ltac:(first [ settles_prim
                        | apply settles_execCommand
                        | apply settles_loadArtboard ]).

Lemma settles_ArtboardFacade_load a tok w :
  sat settles w (ArtboardFacade_load a tok).
Proof. unfold ArtboardFacade_load. settles_leaf. Qed.

Lemma settles_RenderingDesign_loadArtboard a file sym page w :
  sat settles w (RenderingDesign_loadArtboard a file sym page).
Proof.
  unfold RenderingDesign_loadArtboard, RenderingArtboard_load,
    _getPendingArtboardDependencies, update_artboard.
  settles_leaf.
Qed.

Lemma settles_getBitmapAssets a w : sat settles w (getBitmapAssets a).
Proof. unfold getBitmapAssets, ArtboardFacade_load. settles_leaf. Qed.

Lemma settles_getFonts a w : sat settles w (getFonts a).
Proof. unfold getFonts, ArtboardFacade_load. settles_leaf. Qed.

Lemma settles_downloadBitmapAssets names tok w :
  sat settles w (downloadBitmapAssets names tok).
Proof. unfold downloadBitmapAssets, downloadBitmapAsset. settles_leaf. Qed.

Lemma settles__loadFontsToRendering fonts tok w :
  sat settles w (_loadFontsToRendering fonts tok).
Proof. unfold _loadFontsToRendering, loadFont. settles_leaf. Qed.

Lemma settles_markArtboardAsReady a w : sat settles w (markArtboardAsReady a).
Proof.
  unfold markArtboardAsReady, markAsReady, update_artboard. settles_leaf.
Qed.

(** *** Acyclic designs *)

Lemma evolves_getArtboardByComponentId w w' c :
  evolves w w' -> getArtboardByComponentId w' c = getArtboardByComponentId w c.
Proof.
  intros H. unfold getArtboardByComponentId.
  rewrite (ev_byComponentId _ _ H).
  destruct (_artboardsByComponentId w !! c) as [b|]; [|done]. simpl.
  pose proof (ev_byId _ _ H b) as Hb.
  by destruct (_artboardsById w' !! b), (_artboardsById w !! b).
Qed.

(** [acyclic rank w]: the component dependencies go down along [rank], both
    the pending components of the registered artboards and those the
    rendering process may answer. *)
Definition acyclic (rank : ArtboardId -> nat) (w : World) : Prop :=
  (forall a ra c b,
      _artboards w !! a = Some ra -> c ∈ _pendingSymbolIds ra ->
      getArtboardByComponentId w c = Some b -> rank b < rank a)
  /\ (forall hist a c b,
      c ∈ default [] (symbols (env _ hist (Process (GetArtboardDependencies a)))) ->
      getArtboardByComponentId w c = Some b -> rank b < rank a).

Lemma acyclic_evolves rank w w' :
  evolves w w' -> acyclic rank w -> acyclic rank w'.
Proof.
  intros Hev [H1 H2]. split.
  - intros a ra' c b Ha Hc Hb.
    rewrite (evolves_getArtboardByComponentId _ _ _ Hev) in Hb.
    destruct (_artboards w !! a) as [ra|] eqn:E.
    + destruct (ev_registered _ _ Hev _ _ E) as (ra2 & Ha2 & Hp & _).
      assert (ra2 = ra') as -> by congruence. rewrite Hp in Hc. eauto.
    + destruct (ev_pending _ _ Hev _ _ Ha E) as [Hp|[hist Hp]];
        rewrite Hp in Hc; [by apply elem_of_nil in Hc | eauto].
  - intros hist a c b Hc Hb.
    rewrite (evolves_getArtboardByComponentId _ _ _ Hev) in Hb. eauto.
Qed.

(** [holds I]: the call settles, and keeps the property [I] of the state. *)
Definition holds (I : World -> Prop) : World -> Kind -> World -> Prop :=
  fun w k w' =>
    settled w -> I w -> (k = KReturned \/ k = KFailed) /\ settled w' /\ I w'.

Lemma holds_composable (I : World -> Prop) : Composable (holds I).
Proof.
  split; unfold holds.
  - auto.
  - auto.
  - intros w w' w'' k H1 H2 Hs Hi. destruct (H1 Hs Hi) as (_ & Hs' & Hi'). auto.
Qed.

Lemma holds_parallel (I : World -> Prop) : Parallel (holds I).
Proof.
  intros w w1 w2 k1 k2 H1 H2 Hs Hi. destruct (H1 Hs Hi) as (Hk1 & Hs1 & Hi1).
  destruct (H2 Hs1 Hi1) as (Hk2 & Hs2 & Hi2). split; [|done].
  destruct Hk1 as [-> | ->], Hk2 as [-> | ->]; simpl; auto.
Qed.

Lemma holds_leaf (I : World -> Prop) {A : Type} (m : Async A) w :
  (forall w w', evolves w w' -> I w -> I w') ->
  sat settles w m -> keeps evolves w m -> sat (holds I) w m.
Proof.
  unfold sat, rel, holds, settles. intros HI Hs Hev Hw Hi.
  destruct (Hs Hw). split_and!; eauto.
Qed.

Lemma sat_sequence_in (Q : World -> Kind -> World -> Prop) `{!Composable Q}
    {A B : Type} (items : list A) (f : A -> Async B) w :
  (forall item w', item ∈ items -> sat Q w' (f item)) ->
  sat Q w (sequence items f).
Proof.
  revert w. induction items as [|item rest IH]; intros w Hf.
  - by apply sat_ret.
  - simpl. apply sat_bind; [done|apply Hf; by left|]. intros r w1 _.
    apply sat_bind; [done| |].
    + apply IH. intros x w' Hx. apply Hf. by right.
    + intros rs w2 _. by apply sat_ret.
Qed.

Lemma returned_RenderingDesign_loadArtboard a file sym page w desc w' :
  exec (RenderingDesign_loadArtboard a file sym page) w = (Returned desc, w') ->
  _artboards w' !! a = Some desc.
Proof.
  intros E.
  pose proof (exec_RenderingDesign_loadArtboard a file sym page w) as H.
  destruct (_artboards w !! a) as [prev|] eqn:Ha.
  - rewrite E in H. by simplify_eq.
  - destruct H as (ra & w1 & _ & _ & _ & H1 & H2). rewrite E in H1, H2.
    simpl in *. subst w1. by apply H2.
Qed.

(** With an acyclic dependency graph the recursion ends: a budget above the
    rank of the artboard is never exhausted. *)
Lemma acyclic__loadRenderingDesignArtboard rank fuel a params w :
  rank a < fuel ->
  sat (holds (acyclic rank)) w (_loadRenderingDesignArtboard fuel a params).
Proof.
  revert a w. induction fuel as [|fuel IH]; intros a w Hrank; [lia|].
  rewrite _loadRenderingDesignArtboard_S.
  unfold _loadRenderingDesignArtboard_body.
  pose proof (holds_composable (acyclic rank)) as Hc.
  assert (forall w w', evolves w w' -> acyclic rank w -> acyclic rank w')
    as Hpres by (intros; by eapply acyclic_evolves).
  do 6 keeps_step.
  { apply holds_leaf; [done|apply settles_ArtboardFacade_load
                      |apply evolves_ArtboardFacade_load]. }
  keeps_step.
  { apply holds_leaf; [done| |apply evolves_call].
    apply sat_call; composable; settles_prim. }
  do 2 keeps_step.
  { apply holds_leaf; [done|apply settles_RenderingDesign_loadArtboard
                      |apply evolves_RenderingDesign_loadArtboard]. }
  match goal with
  | H : exec (RenderingDesign_loadArtboard _ _ _ _) _ = (Returned ?d, ?v) |- _ =>
      rename d into desc; rename v into w3;
      apply returned_RenderingDesign_loadArtboard in H; rename H into Hdesc
  end.
  (* from here on the artboard is registered, with the pending components
     the loop runs over *)
  set (I := fun w => acyclic rank w /\ exists ra,
              _artboards w !! a = Some ra
              /\ _pendingSymbolIds ra = _pendingSymbolIds desc).
  assert (forall w w', evolves w w' -> I w -> I w') as HpresI.
  { intros v v' Hev [Hac (ra & Hra & Hp)]. split; [by eapply acyclic_evolves|].
    destruct (ev_registered _ _ Hev _ _ Hra) as (ra' & Hra' & Hp' & _).
    exists ra'. split; [done | congruence]. }
  pose proof (holds_composable I) as HcI.
  pose proof (holds_parallel I) as HpI.
  assert (sat (holds I) w3
            (throwIfCancelled (cancelToken params);;
             sequence (_pendingSymbolIds desc)
               (fun componentId =>
                  w ← get;
                  match getArtboardByComponentId w componentId with
                  | Some componentArtboardId =>
                      _loadRenderingDesignArtboard fuel componentArtboardId params
                  | None => Throw DependencyUnavailable
                  end);;
             (if loadAssets params
              then
                bitmapAssetDescs ← getBitmapAssets a;
                throwIfCancelled (cancelToken params);;
                fonts ← getFonts a;
                throwIfCancelled (cancelToken params);;
                both (downloadBitmapAssets bitmapAssetDescs (cancelToken params))
                  (_loadFontsToRendering fonts (cancelToken params))
              else Ret ());;
             markArtboardAsReady a;;
             throwIfCancelled (cancelToken params);;
             w ← get;
             if isArtboardReady w a then Ret () else Throw NotLoadedToReadyState))
    as Hrest.
  { keeps_step; [keeps_step|]. keeps_step.
    { apply sat_sequence_in; [done|]. intros c v Hin.
      keeps_step. keeps_step; [|keeps_step].
      intros Hs [Hac (ra & Hra & Hp)].
      match goal with
      | H : getArtboardByComponentId v c = Some ?x |- _ =>
          rename x into b; rename H into Hb
      end.
      assert (rank b < fuel) as Hlt.
      { destruct Hac as [Hac _]. rewrite <- Hp in Hin.
        specialize (Hac _ _ _ _ Hra Hin Hb). lia. }
      destruct (IH b v Hlt Hs Hac) as (Hk & Hs' & Hac').
      split_and!; try done.
      apply HpresI with v; [|by split; eauto].
      apply evolves__loadRenderingDesignArtboard. }
    keeps_step.
    { keeps_step; [|keeps_step].
      keeps_step.
      { apply holds_leaf; [done|apply settles_getBitmapAssets
                          |apply evolves_getBitmapAssets]. }
      keeps_step; [keeps_step|]. keeps_step.
      { apply holds_leaf; [done|apply settles_getFonts|apply evolves_getFonts]. }
      keeps_step; [keeps_step|].
      apply sat_both; composable; [|intros].
      - apply holds_leaf; [done|apply settles_downloadBitmapAssets
                          |apply evolves_downloadBitmapAssets].
      - apply holds_leaf; [done|apply settles__loadFontsToRendering
                          |apply evolves__loadFontsToRendering]. }
    keeps_step.
    { apply holds_leaf; [done|apply settles_markArtboardAsReady
                        |apply evolves_markArtboardAsReady]. }
    repeat keeps_step. }
  intros Hs Hac. unfold sat, holds in Hrest.
  destruct Hrest as (Hk & Hs' & Hac' & _); [done| |done].
  split; [done|]. by exists desc.
Qed.

(** *** Artboards of the rendering design that a call does not touch *)

Lemma keeps_fork (R : relation World) `{!PreOrder R} p (body : Async unit) w :
  R w (set_promise p Pending w) ->
  keeps R (set_promise p Pending w) body ->
  (forall v w', R w' (set_promise p v w')) ->
  keeps R w (fork p body).
Proof.
  unfold sat, rel. intros H1 H2 H3. simpl.
  destruct (exec body (set_promise p Pending w)) as [[[]|e| |] w1]; simpl in *.
  - etrans; [exact H1|]. etrans; [exact H2|]. apply H3.
  - etrans; [exact H1|]. etrans; [exact H2|]. apply H3.
  - by etrans.
  - by etrans.
Qed.

(** [fixes a w w']: the entry of [a] in [RenderingDesign._artboards] is the
    same. *)
Definition fixes (a : ArtboardId) (w w' : World) : Prop :=
  _artboards w' !! a = _artboards w !! a.

#[local] Instance fixes_preorder a : PreOrder (fixes a).
Proof.
  split; unfold fixes.
  - done.
  - intros w1 w2 w3 H1 H2. congruence.
Qed.

Ltac fixes_leaf :=
  sat_crush ltac:(first
    [ by unfold rel, fixes
    | apply keeps_execCommand; [apply _|by intros..]
    | apply keeps_fork; [apply _|by unfold fixes| |by intros] ]).

Lemma fixes_ArtboardFacade_load a x tok w :
  keeps (fixes a) w (ArtboardFacade_load x tok).
Proof.
  unfold ArtboardFacade_load, loadArtboard, _loadArtboardContent, setOctopus.
  fixes_leaf.
Qed.





Lemma fixes_RenderingDesign_loadArtboard a x file sym page w :
  x <> a -> keeps (fixes a) w (RenderingDesign_loadArtboard x file sym page).
Proof.
  intros Hx. unfold sat, rel, fixes.
  pose proof (exec_RenderingDesign_loadArtboard x file sym page w) as H.
  destruct (_artboards w !! x) as [prev|] eqn:E.
  - by rewrite H.
  - destruct H as (ra & w1 & _ & _ & Ht & <- & _).
    rewrite (to_others _ _ _ Ht) by done. simpl. by rewrite lookup_insert_ne.
Qed.





(** ** A pending component that no artboard defines *)

Section MissingComponent.

Variables (a : ArtboardId) (c : ComponentId) (params : LoadParams).

(** The artboard [a] is not ready, no artboard defines the component [c],
    and [c] is among the pending components of [a]: those it is registered
    with or, before it is registered, those the rendering process answers. *)
Definition missing_component (w : World) : Prop :=
  isArtboardReady w a = false
  /\ getArtboardByComponentId w c = None
  /\ match _artboards w !! a with
     | Some ra => c ∈ _pendingSymbolIds ra
     | None =>
         forall hist,
           c ∈ default []
                 (symbols (env _ hist (Process (GetArtboardDependencies a))))
     end.

Definition stays_missing : World -> Kind -> World -> Prop :=
  fun w k w' =>
    missing_component w ->
    isArtboardReady w' a = false /\ (k = KReturned -> missing_component w').

#[local] Instance stays_missing_composable : Composable stays_missing.
Proof.
  split; unfold stays_missing.
  - intros w H. split; [apply H|done].
  - intros w H. split; [apply H|done].
  - intros w w' w'' k H1 H2 Hm. destruct (H1 Hm) as [_ Hm']. auto.
Qed.




End MissingComponent.


(** ** Component cycles *)

Section Cycle.

(** Every collaborator succeeds for the artboard [x]: its content is in the
    local cache, and the rendering process accepts the design and the
    artboard. *)
Definition cooperative (x : ArtboardId) : Prop :=
  (forall hist, ok (env _ hist (Process CreateDesign)) = true)
  /\ (forall hist file sym page,
        ok (env _ hist (Process (LoadArtboardCmd x file sym page))) = true)
  /\ (forall hist, ok (env _ hist (Process (GetArtboardDependencies x))) = true)
  /\ (forall hist, env _ hist (HasArtboardContent x) = inr true)
  /\ (forall hist tok, exists doc,
        env _ hist (LocalGetArtboardContent x tok) = inr doc)
  /\ (forall hist tok, exists file,
        env _ hist (GetArtboardContentFilename x tok) = inr (Some file)
        /\ or_null (Some file) = Some file).

(** The rendering process reports the component [c] as the first pending
    component of the artboard [x]. *)
Definition reports (x : ArtboardId) (c : ComponentId) : Prop :=
  forall hist, exists rest,
    default [] (symbols (env _ hist (Process (GetArtboardDependencies x))))
    = c :: rest.

(** The state of an artboard on a cycle, before and while it is loaded: not
    ready, its content load not started or done, and, once registered, the
    component [c] first among its pending components. *)
Definition waiting (x : ArtboardId) (c : ComponentId) (w : World) : Prop :=
  isArtboardReady w x = false
  /\ is_Some (_artboardsById w !! x)
  /\ (_loadingArtboardPromises w !! x = None
      \/ _loadingArtboardPromises w !! x = Some Resolved)
  /\ forall rx, _artboards w !! x = Some rx ->
       exists rest, _pendingSymbolIds rx = c :: rest.

Definition configured (w : World) : Prop :=
  _renderingDesign w = true
  /\ _localDesign w = true
  /\ (_designPromise w = None \/ _designPromise w = Some Resolved).

Lemma exec_execCommand_cooperative cmd w :
  (forall hist, ok (env _ hist (Process CreateDesign)) = true) ->
  _designPromise w = None \/ _designPromise w = Some Resolved ->
  exists w1,
    only_session w w1
    /\ _designPromise w1 = Some Resolved
    /\ exec (execCommand cmd) w
       = (Returned (env _ (history w1) (Process cmd)),
          record_request (Process cmd) w1).
Proof.
  intros Hc [Hd|Hd].
  - unfold execCommand, _ensureDesign, _createDesign. simpl. rewrite Hd. simpl.
    rewrite Hc. simpl. eexists. split_and!; cycle 2; [reflexivity| |done].
    etrans; [|apply only_session_designPromise].
    etrans; [|apply only_session_record].
    apply only_session_designPromise.
  - exists w. split_and!; [done..|]. by apply exec_execCommand_resolved.
Qed.

Lemma cooperative_ArtboardFacade_load x tok w :
  cooperative x ->
  _localDesign w = true ->
  is_Some (_artboardsById w !! x) ->
  _loadingArtboardPromises w !! x = None
  \/ _loadingArtboardPromises w !! x = Some Resolved ->
  exists w1,
    exec (ArtboardFacade_load x tok) w = (Returned tt, w1)
    /\ (_loadingArtboardPromises w1 !! x = None
        \/ _loadingArtboardPromises w1 !! x = Some Resolved)
    /\ (forall y, y <> x ->
          _loadingArtboardPromises w1 !! y = _loadingArtboardPromises w !! y)
    /\ _designPromise w1 = _designPromise w.
Proof.
  intros (_ & _ & _ & Hhas & Hdoc & _) Hl [ent Hent] Hp.
  unfold ArtboardFacade_load. rewrite exec_get_bind.
  destruct (isLoaded w x) eqn:Hld.
  { exists w. by split_and!. }
  destruct Hp as [Hp|Hp]; cycle 1.
  { exists w. rewrite (exec_loadArtboard_again x tok Resolved) by eauto.
    split_and!; auto. }
  destruct (exec_loadArtboard_first x tok w) as (p & H1 & H2 & H3 & H4 & H5);
    eauto.
  assert (p = Resolved) as ->.
  { revert H1. unfold loadArtboard.
    rewrite exec_get_bind, Hent, Hp, Hld, exec_fork_bind.
    unfold _loadArtboardContent, setOctopus. simpl. rewrite Hl. simpl.
    rewrite Hhas. simpl.
    match goal with
    | |- context [env _ ?h (LocalGetArtboardContent x tok)] =>
        destruct (Hdoc h tok) as [doc ->]
    end.
    simpl. rewrite lookup_insert_eq. simpl. rewrite lookup_insert_eq.
    congruence. }
  destruct (exec (loadArtboard x tok) w) as [o w1]. simpl in *. subst o.
  exists w1. split_and!; auto.
Qed.

Lemma cooperative_RenderingDesign_loadArtboard x c file sym page w :
  cooperative x -> reports x c ->
  _designPromise w = None \/ _designPromise w = Some Resolved ->
  (forall rx, _artboards w !! x = Some rx ->
     exists rest, _pendingSymbolIds rx = c :: rest) ->
  isArtboardReady w x = false ->
  exists desc w1 rest,
    exec (RenderingDesign_loadArtboard x file sym page) w = (Returned desc, w1)
    /\ _pendingSymbolIds desc = c :: rest
    /\ _artboards w1 !! x = Some desc
    /\ _ready desc = false
    /\ (_designPromise w1 = None \/ _designPromise w1 = Some Resolved)
    /\ _loadingArtboardPromises w1 = _loadingArtboardPromises w.
Proof.
  intros (Hc & Hload & Hdeps & _) Hrep Hd Hpend Hr.
  destruct (_artboards w !! x) as [prev|] eqn:Hx.
  { pose proof (exec_RenderingDesign_loadArtboard x file sym page w) as H.
    rewrite Hx in H. destruct (Hpend prev eq_refl) as [rest Hrest].
    exists prev, w, rest. split_and!; try done.
    unfold isArtboardReady in Hr. by rewrite Hx in Hr. }
  unfold RenderingDesign_loadArtboard.
  rewrite exec_get_bind, Hx, exec_modify_bind, exec_bind.
  unfold RenderingArtboard_load at 1. rewrite exec_bind.
  set (ra := mkRenderingArtboard (or_null sym) (or_null page) false []).
  set (w0 := with_artboards (<[x:=ra]> (_artboards w)) w).
  destruct (exec_execCommand_cooperative
              (LoadArtboardCmd x file (symbolId ra) (_pageId ra)) w0 Hc Hd)
    as (v1 & Hv1 & Hd1 & ->).
  cbv beta iota delta [continue]. rewrite Hload.
  unfold _getPendingArtboardDependencies. rewrite !exec_bind.
  set (v2 := record_request _ v1).
  destruct (exec_execCommand_cooperative (GetArtboardDependencies x) v2 Hc)
    as (v3 & Hv3 & Hd3 & ->); [by right|].
  cbv beta iota delta [continue]. rewrite Hdeps.
  destruct (Hrep (history v3)) as [rest Hrest].
  simpl. rewrite Hrest.
  apply only_session_fields in Hv1 as (_&_&_&_&E5&_&_&E8&_).
  apply only_session_fields in Hv3 as (_&_&_&_&F5&_&_&F8&_).
  simpl in F5, F8. rewrite F8, E8. subst w0. simpl.
  rewrite lookup_alter_eq, lookup_insert_eq. simpl.
  eexists _, _, rest. split_and!; try done.
  - simpl. by rewrite lookup_alter_eq, lookup_insert_eq.
  - by right.
  - simpl. by rewrite F5, E5.
Qed.

Variable params : LoadParams.
Hypothesis no_token : cancelToken params = None.

(** One activation on a cycle: the artboard [x] gets as far as the load of
    the artboard [y] that defines its first pending component, from a state
    in which the other artboards of the cycle are as they were. *)
Lemma cycle_step fuel x c y w :
  cooperative x -> reports x c ->
  configured w -> getArtboardByComponentId w c = Some y -> waiting x c w ->
  exists w3,
    ((exec (_loadRenderingDesignArtboard fuel y params) w3).1 = Exhausted ->
     (exec (_loadRenderingDesignArtboard (S fuel) x params) w).1 = Exhausted)
    /\ configured w3
    /\ evolves w w3
    /\ forall z cz, (z = x -> cz = c) -> waiting z cz w -> waiting z cz w3.
Proof.
  intros Hco Hrep (Hrd & Hld & Hd) Hy (Hr & [ent Hent] & Hp & Hpend).
  rewrite _loadRenderingDesignArtboard_S.
  unfold _loadRenderingDesignArtboard_body.
  rewrite exec_get_bind, Hrd, Hr, Hld, Hent. simpl negb. cbv iota zeta.
  rewrite no_token.
  (* artboard.load *)
  destruct (cooperative_ArtboardFacade_load x None w Hco Hld)
    as (w1 & E1 & Hp1 & Hpo1 & Hd1); eauto.
  pose proof (evolves_ArtboardFacade_load x None w) as Hev1.
  unfold sat, rel in Hev1. rewrite E1 in Hev1. simpl in Hev1.
  assert (forall z, _artboards w1 !! z = _artboards w !! z) as Hfix1.
  { intros z. pose proof (fixes_ArtboardFacade_load z x None w) as H.
    unfold sat, rel, fixes in H. by rewrite E1 in H. }
  rewrite exec_bind, E1. cbv beta iota delta [continue].
  (* localDesign.getArtboardContentFilename *)
  destruct Hco as (Hc1 & Hc2 & Hc3 & Hc4 & Hc5 & Hc6).
  destruct (Hc6 (history w1) None) as (file & Efile & Hfile).
  rewrite exec_bind, exec_call, Efile. cbv beta iota delta [continue].
  rewrite Hfile.
  set (w2 := record_request (GetArtboardContentFilename x None) w1).
  (* renderingDesign.loadArtboard *)
  destruct (cooperative_RenderingDesign_loadArtboard x c file
              (componentId ent) (pageId ent) w2)
    as (desc & w3 & rest & E3 & Hdesc & Hreg & Hnr & Hd3 & Hp3).
  { by split_and!. }
  { done. }
  { subst w2. simpl. by rewrite Hd1. }
  { intros rx Hrx. apply Hpend. subst w2. simpl in Hrx. by rewrite <- Hfix1. }
  { unfold isArtboardReady in *. subst w2. simpl. by rewrite Hfix1. }
  pose proof (evolves_RenderingDesign_loadArtboard x file
                (componentId ent) (pageId ent) w2) as Hev3.
  unfold sat, rel in Hev3. rewrite E3 in Hev3. simpl in Hev3.
  assert (evolves w w3) as Hev.
  { etrans; [exact Hev1|]. etrans; [|exact Hev3].
    apply only_session_evolves, only_session_record. }
  assert (forall z, z <> x -> _artboards w3 !! z = _artboards w !! z) as Hfix3.
  { intros z Hz.
    assert (x <> z) as Hz' by congruence.
    pose proof (fixes_RenderingDesign_loadArtboard z x file
                  (componentId ent) (pageId ent) w2 Hz') as H.
    unfold sat, rel, fixes in H. rewrite E3 in H. simpl in H.
    rewrite H. subst w2. simpl. apply Hfix1. }
  exists w3. split_and!.
  - intros Hex. rewrite exec_bind, E3. cbv beta iota delta [continue].
    rewrite exec_bind, exec_throwIfCancelled.
    cbv beta iota delta [continue]. rewrite Hdesc.
    rewrite exec_bind. cbn [sequence]. rewrite exec_bind, exec_get_bind.
    rewrite (evolves_getArtboardByComponentId _ _ _ Hev), Hy.
    destruct (exec (_loadRenderingDesignArtboard fuel y params) w3)
      as [o w4]. simpl in Hex. by subst o.
  - split_and!; [by rewrite (ev_renderingDesign _ _ Hev)
                |by rewrite (ev_localDesign _ _ Hev) | done].
  - done.
  - intros z cz Hz (Hzr & Hze & Hzp & Hzpend).
    assert (is_Some (_artboardsById w3 !! z)) as Hze3.
    { destruct Hze as [ez Hez]. pose proof (ev_byId _ _ Hev z) as Hb.
      rewrite Hez in Hb. destruct (_artboardsById w3 !! z); [eauto|done]. }
    destruct (decide (z = x)) as [->|Hne].
    + rewrite (Hz eq_refl). split_and!.
      * unfold isArtboardReady. by rewrite Hreg.
      * done.
      * rewrite Hp3. subst w2. simpl. done.
      * intros rx Hrx. exists rest. congruence.
    + split_and!.
      * unfold isArtboardReady in *. by rewrite Hfix3.
      * done.
      * rewrite Hp3. subst w2. simpl. by rewrite Hpo1.
      * intros rz Hrz. apply Hzpend. by rewrite <- Hfix3.
Qed.

Variables (a b : ArtboardId) (ca cb : ComponentId).

(** The artboards [a] and [b] define the components [ca] and [cb], and each
    awaits the component of the other. *)
Definition on_cycle (w : World) : Prop :=
  configured w
  /\ getArtboardByComponentId w ca = Some a
  /\ getArtboardByComponentId w cb = Some b
  /\ waiting a cb w
  /\ waiting b ca w.

Lemma cycle_exhausts_any_budget fuel w :
  cooperative a -> cooperative b -> reports a cb -> reports b ca ->
  on_cycle w ->
  (exec (_loadRenderingDesignArtboard fuel a params) w).1 = Exhausted
  /\ (exec (_loadRenderingDesignArtboard fuel b params) w).1 = Exhausted.
Proof.
  intros Hcoa Hcob Hra Hrb. revert w.
  assert (a = b -> ca = cb) as Hab.
  { intros ->. destruct (Hra []) as [r1 H1], (Hrb []) as [r2 H2]. congruence. }
  induction fuel as [|fuel IH]; intros w (Hcfg & Ha & Hb & Hwa & Hwb);
    [done|].
  split.
  - destruct (cycle_step fuel a cb b w) as (w3 & Hex & Hcfg3 & Hev & Hframe);
      try done.
    apply Hex. apply IH. split_and!; try done.
    + by rewrite (evolves_getArtboardByComponentId _ _ _ Hev).
    + by rewrite (evolves_getArtboardByComponentId _ _ _ Hev).
    + by apply Hframe.
    + apply Hframe; [|done]. intros E. by apply Hab.
  - destruct (cycle_step fuel b ca a w) as (w3 & Hex & Hcfg3 & Hev & Hframe);
      try done.
    apply Hex. apply IH. split_and!; try done.
    + by rewrite (evolves_getArtboardByComponentId _ _ _ Hev).
    + by rewrite (evolves_getArtboardByComponentId _ _ _ Hev).
    + apply Hframe; [|done]. intros E. symmetry. by apply Hab.
    + by apply Hframe.
Qed.


End Cycle.

(** C9. The recursion through the pending components ends when the
    dependency graph of the design is acyclic, that is when the artboards can
    be ranked so that every pending component is defined by an artboard of
    lower rank: with nothing else in flight, a budget above the rank of the
    artboard is never exhausted, and the call returns or is rejected.
    Nothing detects a cycle.  When [a] awaits a component that [b] defines
    and [b] one that [a] defines, the collaborators succeed and no token is
    given, the load of [a] exhausts every budget: the recursion does not
    end. *)
Theorem recursion_ends_unless_components_cycle
    (rank : ArtboardId -> nat) (a b : ArtboardId) (ca cb : ComponentId)
    (params : LoadParams) :
  (forall fuel w,
     acyclic rank w -> settled w -> rank a < fuel ->
     (exec (_loadRenderingDesignArtboard fuel a params) w).1 = Returned tt
     \/ exists e,
         (exec (_loadRenderingDesignArtboard fuel a params) w).1 = Failed e)
  /\ (forall fuel w,
        cooperative a -> cooperative b -> reports a cb -> reports b ca ->
        cancelToken params = None -> on_cycle a b ca cb w ->
        (exec (_loadRenderingDesignArtboard fuel a params) w).1 = Exhausted).
Proof.
  split.
  - intros fuel w Hac Hs Hr.
    destruct (acyclic__loadRenderingDesignArtboard rank fuel a params w Hr Hs Hac)
      as (Hk & _).
    destruct (exec (_loadRenderingDesignArtboard fuel a params) w).1
      as [[]|e| |]; simpl in Hk; [by left|right; eauto|by destruct Hk..].
  - intros fuel w Hcoa Hcob Hra Hrb Htok Hcyc.
    by destruct (cycle_exhausts_any_budget params Htok a b ca cb fuel w).
Qed.

(** *** The requests a call issues *)

(** The artboard of a [finalize-artboard] command. *)
Definition finalized (ev : Event) : option ArtboardId :=
  match ev with
  | Issued (Process (FinalizeArtboard a)) => Some a
  | Issued _ => None
  end.

Section Issues.

Variable P : Entry -> Prop.

(** [issues w w']: the trace grew, by entries that satisfy [P]. *)
Definition issues (w w' : World) : Prop :=
  exists new, trace w' = new ++ trace w /\ Forall P new.

#[global] Instance issues_preorder : PreOrder issues.
Proof.
  split.
  - intros w. by exists [].
  - intros w1 w2 w3 (n1 & E1 & H1) (n2 & E2 & H2). exists (n2 ++ n1).
    split; [by rewrite E2, E1, app_assoc | by apply Forall_app].
Qed.



Hypothesis P_other : forall e, finalized (event e) = None -> P e.










End Issues.

(** ** Dependencies before dependents *)

(** At the moment of the entry, if it is a [finalize-artboard] command for
    an artboard, every artboard that defines one of its pending components
    is ready in the rendering design. *)
Definition dependencies_ready (lookup : ComponentId -> option ArtboardId)
    (e : Entry) : Prop :=
  forall x rx c y,
    finalized (event e) = Some x ->
    artboardsAt e !! x = Some rx ->
    c ∈ _pendingSymbolIds rx ->
    lookup c = Some y ->
    exists ry, artboardsAt e !! y = Some ry /\ _ready ry = true.


Section Ordering.

Variable lookup : ComponentId -> option ArtboardId.

(** The component index is [lookup]. *)
Definition indexed (w : World) : Prop :=
  forall c, getArtboardByComponentId w c = lookup c.

Definition ordered : World -> Kind -> World -> Prop :=
  fun w _ w' =>
    indexed w -> issues (dependencies_ready lookup) w w' /\ indexed w'.

#[local] Instance ordered_composable : Composable ordered.
Proof.
  split; unfold ordered.
  - intros w H. split; [reflexivity|done].
  - intros w H. split; [reflexivity|done].
  - intros w w' w'' k H1 H2 Hi. destruct (H1 Hi) as [H1' Hi'].
    destruct (H2 Hi') as [H2' Hi'']. split; [by etrans|done].
Qed.

#[local] Instance ordered_parallel : Parallel ordered.
Proof.
  intros w w1 w2 k1 k2 H1 H2 Hi. destruct (H1 Hi) as [H1' Hi'].
  destruct (H2 Hi') as [H2' Hi'']. split; [by etrans|done].
Qed.




Lemma evolves_isArtboardReady w w' y :
  evolves w w' -> isArtboardReady w y = true -> isArtboardReady w' y = true.
Proof.
  intros Hev. unfold isArtboardReady.
  destruct (_artboards w !! y) as [ry|] eqn:E; [|done].
  destruct (ev_registered _ _ Hev _ _ E) as (ry' & -> & _ & Hr). auto.
Qed.



End Ordering.


(** ** A failed finalization *)


(** ** The registry of content loads *)

(** [unloadArtboard] leaves the registry of content loads and the identity of
    the artboards alone. *)
Definition keeps_registry (w w' : World) : Prop :=
  _loadingArtboardPromises w' = _loadingArtboardPromises w
  /\ forall a, is_Some (_artboardsById w' !! a)
               <-> is_Some (_artboardsById w !! a).

#[local] Instance keeps_registry_preorder : PreOrder keeps_registry.
Proof.
  split.
  - by intros w.
  - intros w1 w2 w3 [H1 H1'] [H2 H2']. split; [congruence|].
    intros a. by rewrite H2', H1'.
Qed.

Lemma keeps_registry_unloadArtboard a w :
  keeps keeps_registry w (unloadArtboard a).
Proof.
  unfold unloadArtboard, setOctopus, RenderingDesign_unloadArtboard,
    RenderingArtboard_unload, update_artboard.
  repeat first
    [ keeps_step
    | apply sat_modify; composable; split; simpl; [done|];
      intros x; rewrite ?lookup_alter_is_Some; done
    | apply keeps_execCommand; [apply _|by intros..] ].
Qed.

(** C10. An entry of [_loadingArtboardPromises] is never removed nor
    replaced.  The first [loadArtboard] of an artboard that is not loaded
    stores a promise [p] and ends as [p] does.  In every later state,
    [loadArtboard] awaits [p] and does nothing else: it issues no request (no
    new content read), changes nothing, and ends as [p] did, so after a
    failed content load it fails again with the original error.
    [unloadArtboard] and the loading of artboards to the rendering design
    keep the entry, so a [loadArtboard] after an [unloadArtboard] does not
    fetch the content again. *)
Theorem content_promise_is_stored_once (a : ArtboardId)
    (tok0 tok : CancelToken) (w0 : World) :
  is_Some (_artboardsById w0 !! a) ->
  isLoaded w0 a = false ->
  _loadingArtboardPromises w0 !! a = None ->
  exists p,
    p <> Pending
    /\ (exec (loadArtboard a tok0) w0).1 = awaited tt p
    /\ _loadingArtboardPromises (exec (loadArtboard a tok0) w0).2 !! a = Some p
    /\ forall w,
         is_Some (_artboardsById w !! a) ->
         _loadingArtboardPromises w !! a = Some p ->
         exec (loadArtboard a tok) w = (awaited tt p, w)
         /\ (let w' := (exec (unloadArtboard a) w).2 in
             is_Some (_artboardsById w' !! a)
             /\ _loadingArtboardPromises w' !! a = Some p
             /\ exec (loadArtboard a tok) w' = (awaited tt p, w'))
         /\ (forall fuel x params,
               let w' := (exec (_loadRenderingDesignArtboard fuel x params) w).2
               in is_Some (_artboardsById w' !! a)
                  /\ _loadingArtboardPromises w' !! a = Some p).
Proof.
  intros Hent Hl Hn.
  destruct (exec_loadArtboard_first a tok0 w0) as (p & H1 & H2 & H3 & _);
    try done.
  exists p. split_and!; try done.
  intros w Hw Hp. split_and!.
  - by apply exec_loadArtboard_again.
  - pose proof (keeps_registry_unloadArtboard a w) as [Hr1 Hr2].
    cbv zeta. split_and!.
    + by apply Hr2.
    + by rewrite Hr1.
    + apply exec_loadArtboard_again; [by apply Hr2 | by rewrite Hr1].
  - intros fuel x params. cbv zeta.
    pose proof (evolves__loadRenderingDesignArtboard fuel x params w) as Hev.
    unfold sat, rel in Hev. split.
    + pose proof (ev_byId _ _ Hev a) as Hb.
      destruct Hw as [ent Hw]. rewrite Hw in Hb.
      destruct (_artboardsById
                  (exec (_loadRenderingDesignArtboard fuel x params) w).2 !! a);
        [eauto|done].
    + by apply (ev_promises _ _ Hev).
Qed.


(** ** Cancellation *)


(** No artboard changed its readiness. *)
Definition same_readiness (w w' : World) : Prop :=
  forall x, isArtboardReady w' x = isArtboardReady w x.

#[local] Instance same_readiness_preorder : PreOrder same_readiness.
Proof.
  split; unfold same_readiness.
  - done.
  - intros w1 w2 w3 H1 H2 x. by rewrite H2.
Qed.













(** ** Unloading from the rendering design *)

Lemma exec_execCommand_returned (cmd : Command) (w : World) result w' :
  exec (execCommand cmd) w = (Returned result, w') ->
  exists w1,
    only_session w w1
    /\ _designPromise w1 = Some Resolved
    /\ result = env _ (history w1) (Process cmd)
    /\ w' = record_request (Process cmd) w1.
Proof.
  unfold execCommand, _ensureDesign, _createDesign. simpl.
  destruct (_designPromise w) as [[| |e]|] eqn:E; simpl; rewrite ?E; try done.
  - intros [= <- <-]. by exists w.
  - destruct (ok (env CommandResult
                    (history (with_designPromise (Some Pending) w))
                    (Process CreateDesign))); simpl; [|done].
    intros [= <- <-].
    exists (with_designPromise (Some Resolved)
              (record_request (Process CreateDesign)
                 (with_designPromise (Some Pending) w))).
    split_and!; [|done..].
    etrans; [|apply only_session_designPromise].
    etrans; [|apply only_session_record].
    apply only_session_designPromise.
Qed.

(** [RenderingDesign.unloadArtboard], case by case: the artboard is not
    registered; it is registered and not ready; it is ready, and then the
    flag is cleared before the command is sent, and the artboard is
    forgotten only when the command succeeded. *)
Lemma exec_RenderingDesign_unloadArtboard a w :
  match _artboards w !! a with
  | None =>
      exec (RenderingDesign_unloadArtboard a) w = (Failed NoSuchArtboard, w)
  | Some ra =>
      if _ready ra then
        exists w1,
          only_session
            (with_artboards (<[a := set_ready false ra]> (_artboards w)) w) w1
          /\ ((ok (env _ (history w1) (Process (UnloadArtboardCmd a))) = true
               /\ _designPromise w1 = Some Resolved
               /\ exec (RenderingDesign_unloadArtboard a) w
                  = (Returned tt,
                     with_artboards (delete a (_artboards w))
                       (record_request (Process (UnloadArtboardCmd a)) w1)))
              \/ ((exec (RenderingDesign_unloadArtboard a) w).1 <> Returned tt
                  /\ only_session w1
                       (exec (RenderingDesign_unloadArtboard a) w).2))
      else
        exec (RenderingDesign_unloadArtboard a) w = (Failed ArtboardNotReady, w)
  end.
Proof.
  unfold RenderingDesign_unloadArtboard, RenderingArtboard_unload,
    update_artboard.
  rewrite exec_get_bind.
  destruct (_artboards w !! a) as [ra|] eqn:E; [|done].
  destruct (_ready ra) eqn:Hr; [|done].
  rewrite exec_bind, exec_modify_bind.
  assert (alter (set_ready false) a (_artboards w)
          = <[a := set_ready false ra]> (_artboards w)) as ->.
  { apply map_eq. intros x. destruct (decide (x = a)) as [->|].
    - by rewrite lookup_alter_eq, lookup_insert_eq, E.
    - by rewrite lookup_alter_ne, lookup_insert_ne. }
  set (w0 := with_artboards (<[a := set_ready false ra]> (_artboards w)) w).
  rewrite exec_bind.
  destruct (exec (execCommand (UnloadArtboardCmd a)) w0) as [[result| e | |] w2]
    eqn:Ec; simpl.
  - apply exec_execCommand_returned in Ec as (w1 & Hw1 & Hs & -> & ->).
    exists w1. split; [done|].
    destruct (ok (env CommandResult (history w1) (Process (UnloadArtboardCmd a))))
      eqn:Hok; simpl.
    + left. split_and!; [done..|]. f_equal.
      apply only_session_fields in Hw1
        as (H1 & H2 & H3 & H4 & H5 & H6 & H7 & H8 & H9 & H10).
      unfold with_artboards, record_request, with_trace; simpl.
      rewrite H8. simpl. by rewrite delete_insert_eq.
    + right. split; [done|]. apply only_session_record.
  - pose proof (exec_execCommand (UnloadArtboardCmd a) w0)
      as (w1 & Hw1 & [E1|[E1|[e1 E1]]]); rewrite Ec in E1; simplify_eq.
    exists w1. split; [done|]. right. by split.
  - pose proof (exec_execCommand (UnloadArtboardCmd a) w0)
      as (w1 & Hw1 & [E1|[E1|[e1 E1]]]); rewrite Ec in E1; simplify_eq.
  - pose proof (exec_execCommand (UnloadArtboardCmd a) w0)
      as (w1 & Hw1 & [E1|[E1|[e1 E1]]]); rewrite Ec in E1; simplify_eq.
    exists w1. split; [done|]. right. by split.
Qed.

(** [RenderingDesign.unloadArtboard] resolves only for an artboard that was
    ready.  The last request is then the [unload-artboard] command of the
    artboard, which the rendering process accepted; the artboard is no
    longer registered, and the rendering design is otherwise as it was. *)
Theorem unload_returns_only_for_ready_artboard (a : ArtboardId)
    (w w' : World) :
  exec (RenderingDesign_unloadArtboard a) w = (Returned tt, w') ->
  isArtboardReady w a = true
  /\ _artboards w' = delete a (_artboards w)
  /\ (exists hist,
        history w' = Issued (Process (UnloadArtboardCmd a)) :: hist
        /\ ok (env _ hist (Process (UnloadArtboardCmd a))) = true)
  /\ _loadedFonts w' = _loadedFonts w
  /\ _loadedBitmaps w' = _loadedBitmaps w.
Proof.
  intros H. pose proof (exec_RenderingDesign_unloadArtboard a w) as Hc.
  unfold isArtboardReady.
  destruct (_artboards w !! a) as [ra|]; [|congruence].
  destruct (_ready ra); [|congruence].
  destruct Hc as (w1 & Hw1 & [(Hok & _ & E)|[Hn _]]).
  - rewrite E in H. simplify_eq. split_and!; try done.
    + by exists (history w1).
    + apply only_session_fields in Hw1
        as (H1 & H2 & H3 & H4 & H5 & H6 & H7 & H8 & H9 & H10). done.
    + apply only_session_fields in Hw1
        as (H1 & H2 & H3 & H4 & H5 & H6 & H7 & H8 & H9 & H10). done.
  - by rewrite H in Hn.
Qed.

(** When [RenderingDesign.unloadArtboard] of a ready artboard does not
    resolve (the command was refused, or the session is not there), the
    artboard stays registered, and it is no longer ready: the flag was
    cleared before the command was sent.  The other artboards are as they
    were.  Unloading the artboard again is rejected with 'The artboard is
    not ready', and sends nothing. *)
Theorem failed_unload_leaves_artboard_unready (a : ArtboardId) (w : World) :
  isArtboardReady w a = true ->
  (exec (RenderingDesign_unloadArtboard a) w).1 <> Returned tt ->
  let w' := (exec (RenderingDesign_unloadArtboard a) w).2 in
  isArtboardLoaded w' a = true
  /\ isArtboardReady w' a = false
  /\ (forall x, x <> a -> _artboards w' !! x = _artboards w !! x)
  /\ exec (RenderingDesign_unloadArtboard a) w' = (Failed ArtboardNotReady, w').
Proof.
  intros Hr Hn. cbv zeta.
  pose proof (exec_RenderingDesign_unloadArtboard a w) as Hc.
  unfold isArtboardReady in Hr.
  destruct (_artboards w !! a) as [ra|] eqn:Ea; [|done].
  rewrite Hr in Hc.
  destruct Hc as (w1 & Hw1 & [(_ & _ & E)|[_ Hw2]]).
  { by rewrite E in Hn. }
  assert (only_session
            (with_artboards (<[a := set_ready false ra]> (_artboards w)) w)
            (exec (RenderingDesign_unloadArtboard a) w).2) as Hos
    by (by etrans).
  remember (exec (RenderingDesign_unloadArtboard a) w).2 as w' eqn:Ew'.
  clear Ew' Hn Hw1 Hw2.
  apply only_session_fields in Hos
    as (H1 & H2 & H3 & H4 & H5 & H6 & H7 & H8 & H9 & H10).
  simpl in H8.
  pose proof (exec_RenderingDesign_unloadArtboard a w') as Hc'.
  rewrite H8, lookup_insert_eq in Hc'. cbn [_ready set_ready] in Hc'.
  unfold isArtboardLoaded, isArtboardReady. rewrite H8, lookup_insert_eq.
  split_and!; [by apply bool_decide_eq_true_2 | done | | done].
  intros x Hx. by rewrite lookup_insert_ne.
Qed.

(** [DesignFacade.unloadArtboard] drops the content of a loaded artboard
    before it turns to the rendering design, whatever happens there.
    Without a rendering design the call resolves.  With one, an artboard
    that is not ready there makes the call reject after the content is gone:
    with 'No such artboard' when the artboard was never registered, with
    'The artboard is not ready' when it was. *)
Theorem unloadArtboard_drops_content_first (a : ArtboardId) (w : World) :
  isLoaded w a = true ->
  let r := exec (unloadArtboard a) w in
  isLoaded r.2 a = false
  /\ (_renderingDesign w = false -> r.1 = Returned tt)
  /\ (_renderingDesign w = true -> isArtboardReady w a = false ->
      r = (Failed (if isArtboardLoaded w a then ArtboardNotReady
                   else NoSuchArtboard),
           (exec (setOctopus a None) w).2)).
Proof.
  intros Hl. cbv zeta. unfold unloadArtboard. rewrite exec_get_bind.
  assert (is_Some (_artboardsById w !! a)) as [ent Hent].
  { unfold isLoaded in Hl. destruct (_artboardsById w !! a); [eauto|done]. }
  rewrite Hent, Hl. unfold setOctopus at 1. rewrite exec_modify_bind.
  set (w0 := with_artboardsById _ w).
  assert (isLoaded w0 a = false) as Hl0.
  { unfold isLoaded, w0. simpl. by rewrite lookup_alter_eq, Hent. }
  assert (_artboards w0 = _artboards w) as Ha0 by done.
  destruct (_renderingDesign w) eqn:Hrd; [|by split_and!].
  pose proof (exec_RenderingDesign_unloadArtboard a w0) as Hc.
  rewrite Ha0 in Hc. unfold isArtboardReady, isArtboardLoaded.
  destruct (_artboards w !! a) as [ra|] eqn:Ea.
  - destruct (_ready ra) eqn:Hr.
    + destruct Hc as (w1 & Hw1 & [(_ & _ & E)|[_ Hw2]]).
      * rewrite E. simpl. split_and!; done || (try by intros);
          apply only_session_fields in Hw1
            as (H1 & H2 & H3 & H4 & H5 & H6 & H7 & H8 & H9 & H10);
          unfold isLoaded in *; simpl in *; by rewrite H6.
      * split_and!; try done.
        assert (only_session
                  (with_artboards (<[a := set_ready false ra]> (_artboards w)) w0)
                  (exec (RenderingDesign_unloadArtboard a) w0).2) as Hos
          by (by etrans).
        apply only_session_fields in Hos
          as (H1 & H2 & H3 & H4 & H5 & H6 & H7 & H8 & H9 & H10).
        unfold isLoaded in *. simpl in *. by rewrite H6.
    + rewrite Hc. split_and!; try done.
  - rewrite Hc. split_and!; try done.
Qed.

Lemma exec_sequence_cons {A B : Type} (item : A) (rest : list A)
    (f : A -> Async B) w :
  exec (sequence (item :: rest) f) w
  = continue (exec (f item) w) (fun r w1 =>
      continue (exec (sequence rest f) w1) (fun rs w2 => (Returned (r :: rs), w2))).
Proof.
  cbn [sequence]. rewrite exec_bind. destruct (exec (f item) w) as [[r|e| |] w1];
    simpl; try done.
  rewrite exec_bind. by destruct (exec (sequence rest f) w1) as [[rs|e| |] w2].
Qed.

(** The loop of [unloadArtboards]: it returns only when every artboard of
    the list was ready, and has then forgotten them all; an artboard of the
    list that is not ready stops it, and is left as it was. *)
Lemma exec_sequence_unloadArtboard entries w :
  NoDup entries ->
  let r := exec (sequence entries RenderingDesign_unloadArtboard) w in
  (forall rs, r.1 = Returned rs ->
     (forall a, a ∈ entries -> isArtboardReady w a = true)
     /\ forall x, _artboards r.2 !! x
                  = if decide (x ∈ entries) then None else _artboards w !! x)
  /\ (forall a, a ∈ entries -> isArtboardReady w a = false ->
        (forall rs, r.1 <> Returned rs)
        /\ _artboards r.2 !! a = _artboards w !! a).
Proof.
  intros Hnd. revert w. induction Hnd as [|b rest Hb Hnd IH]; intros w.
  { cbv zeta. simpl. split.
    - intros rs _. split; [by intros a Ha%elem_of_nil|]. intros x.
      by destruct (decide (x ∈ [])) as [?%elem_of_nil|].
    - by intros a Ha%elem_of_nil. }
  cbv zeta. rewrite exec_sequence_cons.
  pose proof (exec_RenderingDesign_unloadArtboard b w) as Hc.
  unfold isArtboardReady.
  destruct (_artboards w !! b) as [rb|] eqn:Eb.
  2:{ rewrite Hc. simpl. split; [done|]. intros a Ha Hr. by split. }
  destruct (_ready rb) eqn:Hrb.
  2:{ rewrite Hc. simpl. split; [done|]. intros a Ha Hr. by split. }
  destruct Hc as (w1 & Hw1 & [(_ & _ & E)|[Hn Hw2]]).
  - rewrite E. cbn [continue].
    set (w2 := with_artboards (delete b (_artboards w))
                 (record_request (Process (UnloadArtboardCmd b)) w1)).
    specialize (IH w2). cbv zeta in IH. destruct IH as [IH1 IH2].
    assert (forall x, x <> b -> _artboards w2 !! x = _artboards w !! x) as Hoth.
    { intros x Hx. unfold w2. simpl. by rewrite lookup_delete_ne. }
    destruct (exec (sequence rest RenderingDesign_unloadArtboard) w2)
      as [[rs|e| |] w3] eqn:E3; cbn [continue fst snd] in *.
    + destruct (IH1 rs eq_refl) as [Hall Hreg]. split.
      * intros rs' _. split.
        -- intros a [->|Ha]%elem_of_cons; [by rewrite Eb|].
           specialize (Hall a Ha). unfold isArtboardReady in Hall.
           rewrite Hoth in Hall; [done|]. by intros ->.
        -- intros x. rewrite Hreg.
           destruct (decide (x = b)) as [->|Hx].
           ++ rewrite decide_False by done.
              rewrite decide_True by (by left). unfold w2. simpl.
              by rewrite lookup_delete_eq.
           ++ destruct (decide (x ∈ rest)) as [Hin|Hout].
              ** by rewrite decide_True by (by right).
              ** rewrite decide_False; [by apply Hoth|].
                 by intros [->|?]%elem_of_cons.
      * intros a [->|Ha]%elem_of_cons Hr; [rewrite Eb in Hr; congruence|].
        assert (a <> b) as Hab by (by intros ->).
        unfold isArtboardReady in IH2. rewrite <- (Hoth a Hab) in Hr.
        destruct (IH2 a Ha Hr) as [Hnot _]. by destruct (Hnot rs).
    + split; [done|].
      intros a [->|Ha]%elem_of_cons Hr; [rewrite Eb in Hr; congruence|].
      assert (a <> b) as Hab by (by intros ->).
      unfold isArtboardReady in IH2. rewrite <- (Hoth a Hab) in Hr.
      destruct (IH2 a Ha Hr) as [_ Hsame]. split; [done|].
      by rewrite Hsame, Hoth.
    + split; [done|].
      intros a [->|Ha]%elem_of_cons Hr; [rewrite Eb in Hr; congruence|].
      assert (a <> b) as Hab by (by intros ->).
      unfold isArtboardReady in IH2. rewrite <- (Hoth a Hab) in Hr.
      destruct (IH2 a Ha Hr) as [_ Hsame]. split; [done|].
      by rewrite Hsame, Hoth.
    + split; [done|].
      intros a [->|Ha]%elem_of_cons Hr; [rewrite Eb in Hr; congruence|].
      assert (a <> b) as Hab by (by intros ->).
      unfold isArtboardReady in IH2. rewrite <- (Hoth a Hab) in Hr.
      destruct (IH2 a Ha Hr) as [_ Hsame]. split; [done|].
      by rewrite Hsame, Hoth.
  - assert (only_session
              (with_artboards (<[b := set_ready false rb]> (_artboards w)) w)
              (exec (RenderingDesign_unloadArtboard b) w).2) as Hos
      by (by etrans).
    apply only_session_fields in Hos as (_&_&_&_&_&_&_&H8&_).
    destruct (exec (RenderingDesign_unloadArtboard b) w) as [[[]|e| |] w2];
      simpl in *; try done;
      (split; [done|]);
      (intros a [->|Ha]%elem_of_cons Hr; [rewrite Eb in Hr; congruence|]);
      (split; [done|]);
      rewrite H8; apply lookup_insert_ne; by intros ->.
Qed.

(** [RenderingDesign.unloadArtboards] goes through the registered artboards
    one by one and stops at the first one it cannot unload.  The call
    resolves only when every registered artboard was ready, and the
    rendering design then holds no artboard.  A registered artboard that is
    not ready (its load failed, or was never finished) makes the call fail,
    and is still registered, not ready, afterwards. *)
Theorem unloadArtboards_stops_at_unready_artboard
    (entries : list ArtboardId) (w : World) :
  NoDup entries ->
  (forall a, a ∈ entries <-> isArtboardLoaded w a = true) ->
  let r := exec (unloadArtboards entries) w in
  (r.1 = Returned tt ->
     (forall a, isArtboardLoaded w a = true -> isArtboardReady w a = true)
     /\ _artboards r.2 = ∅)
  /\ (forall a, isArtboardLoaded w a = true -> isArtboardReady w a = false ->
        r.1 <> Returned tt
        /\ isArtboardLoaded r.2 a = true
        /\ isArtboardReady r.2 a = false).
Proof.
  intros Hnd Hent. cbv zeta. unfold unloadArtboards. rewrite exec_bind.
  destruct (exec_sequence_unloadArtboard entries w Hnd) as [H1 H2].
  destruct (exec (sequence entries RenderingDesign_unloadArtboard) w)
    as [[rs|e| |] w'] eqn:E; simpl in *.
  - destruct (H1 rs eq_refl) as [Hall Hreg]. split.
    + intros _. split; [intros a Ha; by apply Hall, Hent|].
      apply map_eq. intros x. rewrite Hreg, lookup_empty.
      destruct (decide (x ∈ entries)) as [|Hx]; [done|].
      destruct (_artboards w !! x) as [rx|] eqn:Ex; [|done].
      destruct Hx. apply Hent. unfold isArtboardLoaded. rewrite Ex.
      by apply bool_decide_eq_true_2.
    + intros a Ha Hr. apply Hent in Ha. destruct (H2 a Ha Hr) as [Hn _].
      by destruct (Hn rs).
  - split; [done|]. intros a Ha Hr. pose proof Ha as Ha'. apply Hent in Ha.
    destruct (H2 a Ha Hr) as [_ Hs]. unfold isArtboardLoaded, isArtboardReady in *.
    rewrite Hs. by split_and!.
  - split; [done|]. intros a Ha Hr. pose proof Ha as Ha'. apply Hent in Ha.
    destruct (H2 a Ha Hr) as [_ Hs]. unfold isArtboardLoaded, isArtboardReady in *.
    rewrite Hs. by split_and!.
  - split; [done|]. intros a Ha Hr. pose proof Ha as Ha'. apply Hent in Ha.
    destruct (H2 a Ha Hr) as [_ Hs]. unfold isArtboardLoaded, isArtboardReady in *.
    rewrite Hs. by split_and!.
Qed.

(** ** Pages *)

Lemma returned_sequence_loads fuel params items w rs w' :
  exec (sequence items (fun artboardId =>
          _loadRenderingDesignArtboard fuel artboardId params)) w
  = (Returned rs, w') ->
  evolves w w' /\ forall a, a ∈ items -> isArtboardReady w' a = true.
Proof.
  revert w rs. induction items as [|item rest IH]; intros w rs H.
  { simpl in H. simplify_eq. split; [reflexivity|]. by intros a Ha%elem_of_nil. }
  cbn [sequence] in H.
  apply exec_bind_returned in H as (r & w1 & H1 & H).
  apply exec_bind_returned in H as (rs' & w2 & H2 & H).
  simpl in H. simplify_eq.
  evolved H1 (evolves__loadRenderingDesignArtboard fuel item params w).
  destruct r. apply returned__loadRenderingDesignArtboard in H1.
  destruct (IH _ _ H2) as [Hev2 Hrest].
  split; [by etrans|].
  intros a [->|Ha]%elem_of_cons; [|by apply Hrest].
  by apply (evolves_isArtboardReady w1).
Qed.

(** When [_loadRenderingDesignPage] resolves, every artboard of the page is
    ready in the rendering design, the first ones included: an artboard that
    a load made ready is still ready when the later loads are over.  The
    facade and the design entity are as [evolves] describes. *)
Theorem page_load_leaves_every_artboard_ready (fuel : nat)
    (pageArtboards : list ArtboardId) (params : LoadParams) (w w' : World) :
  exec (_loadRenderingDesignPage fuel pageArtboards params) w
  = (Returned tt, w') ->
  (forall a, a ∈ pageArtboards -> isArtboardReady w' a = true)
  /\ (forall a, isArtboardReady w a = true -> isArtboardReady w' a = true).
Proof.
  unfold _loadRenderingDesignPage. intros H.
  apply exec_bind_returned in H as (rs & w1 & H1 & H). simpl in H.
  simplify_eq. apply returned_sequence_loads in H1 as [Hev Hall].
  split; [done|]. intros a. by apply evolves_isArtboardReady.
Qed.

(** ** A rendering session that failed *)

(** [execCommand] is rejected only through the session.  Either the session
    had been rejected before, and nothing is sent; or this call started it
    and [create-design] was refused, and nothing but [create-design] is
    sent.  The command itself is not sent.  The rejected promise stays in
    [_designPromise]: every later command is rejected with the same error,
    and sends nothing, [create-design] included. *)
Theorem rejected_session_rejects_every_command (cmd : Command) (e : Error)
    (w w' : World) :
  exec (execCommand cmd) w = (Failed e, w') ->
  _designPromise w' = Some (Rejected e)
  /\ (_designPromise w = Some (Rejected e) /\ w' = w
      \/ _designPromise w = None /\ e = CreateDesignFailed
         /\ commands w' = commands w ++ [CreateDesign])
  /\ forall cmd', exec (execCommand cmd') w' = (Failed e, w').
Proof.
  unfold execCommand, _ensureDesign, _createDesign. simpl.
  destruct (_designPromise w) as [[| |e0]|] eqn:E; simpl; rewrite ?E; try done.
  - intros [= <- <-]. rewrite E. split_and!; [done|by left|]. intros cmd'.
    simpl. by rewrite E.
  - destruct (ok (env CommandResult
                    (history (with_designPromise (Some Pending) w))
                    (Process CreateDesign))); simpl; [done|].
    intros [= <- <-]. split_and!; [done| |done].
    right. split_and!; [done..|].
    unfold commands. simpl. by rewrite reverse_cons, omap_app.
Qed.

(** The session was rejected with [e]. *)
Definition session_rejected (e : Error) (w : World) : Prop :=
  _designPromise w = Some (Rejected e).

(** With a rejected session, the session stays rejected, no command is
    sent, and no artboard changes its readiness. *)
Definition stays_rejected (e : Error) (w w' : World) : Prop :=
  session_rejected e w ->
  session_rejected e w' /\ commands w' = commands w /\ same_readiness w w'.

#[local] Instance stays_rejected_preorder e : PreOrder (stays_rejected e).
Proof.
  split.
  - intros w H. by split_and!.
  - intros w1 w2 w3 H1 H2 H. destruct (H1 H) as (H1a & H1b & H1c).
    destruct (H2 H1a) as (H2a & H2b & H2c).
    split_and!; [done|congruence|by etrans].
Qed.

Lemma stays_rejected_execCommand e cmd w :
  keeps (stays_rejected e) w (execCommand cmd).
Proof.
  unfold sat, rel. intros H. unfold session_rejected in H.
  assert (exec (execCommand cmd) w = (Failed e, w)) as ->; [|by split_and!].
  unfold execCommand, _ensureDesign. simpl. by rewrite H; simpl; rewrite H.
Qed.

Lemma commands_record_other {X : Type} (r : Request X) w :
  (forall c, Issued r <> Issued (Process c)) ->
  commands (record_request r w) = commands w.
Proof.
  intros Hr. unfold commands. simpl. rewrite reverse_cons, omap_app. simpl.
  destruct r; try (by rewrite app_nil_r). by destruct (Hr c).
Qed.

Lemma same_readiness_alter_pending l a w :
  same_readiness w
    (with_artboards (alter (set_pendingSymbolIds l) a (_artboards w)) w).
Proof.
  intros x. unfold isArtboardReady. simpl.
  destruct (decide (x = a)) as [->|].
  - rewrite lookup_alter_eq. by destruct (_artboards w !! a).
  - by rewrite lookup_alter_ne.
Qed.

Lemma same_readiness_register a ra w :
  _artboards w !! a = None -> _ready ra = false ->
  same_readiness w (with_artboards (<[a := ra]> (_artboards w)) w).
Proof.
  intros Ha Hra x. unfold isArtboardReady. simpl.
  destruct (decide (x = a)) as [->|].
  - by rewrite lookup_insert_eq, Ha.
  - by rewrite lookup_insert_ne.
Qed.

(** After a command was answered, the session is not rejected. *)
Ltac answered :=
  let Hd := fresh "Hd" in
  intros Hd; exfalso;
  match goal with
  | H : exec (execCommand _) _ = (Returned _, _) |- _ =>
      apply exec_execCommand_returned in H as (? & ? & ? & ? & ->)
  end;
  unfold session_rejected in Hd; simpl in Hd; congruence.

Ltac stays_rejected_prim :=
  first
    [ apply stays_rejected_execCommand
    | answered
    | by intros ?; split_and!;
        [ done
        | first [done | apply commands_record_other; intros ? [=]]
        | first [ done | apply same_readiness_alter_pending
                | apply same_readiness_register ] ]
    | apply keeps_fork;
      [ apply _ | by intros ?; split_and! | | by intros ? ? ?; split_and! ] ].

Lemma stays_rejected_ArtboardFacade_load e a tok w :
  keeps (stays_rejected e) w (ArtboardFacade_load a tok).
Proof.
  unfold ArtboardFacade_load, loadArtboard, _loadArtboardContent, setOctopus.
  sat_crush stays_rejected_prim.
Qed.

Lemma stays_rejected_RenderingDesign_loadArtboard e a file sym page w :
  keeps (stays_rejected e) w (RenderingDesign_loadArtboard a file sym page).
Proof.
  unfold RenderingDesign_loadArtboard, RenderingArtboard_load,
    _getPendingArtboardDependencies, update_artboard.
  sat_crush stays_rejected_prim.
Qed.

Lemma stays_rejected_markArtboardAsReady e a w :
  keeps (stays_rejected e) w (markArtboardAsReady a).
Proof.
  unfold markArtboardAsReady, markAsReady, update_artboard.
  sat_crush stays_rejected_prim.
Qed.

Lemma stays_rejected__loadRenderingDesignArtboard e fuel a params w :
  keeps (stays_rejected e) w (_loadRenderingDesignArtboard fuel a params).
Proof.
  revert a w. induction fuel as [|fuel IH]; intros a w.
  - apply keeps_out_of_fuel. apply _.
  - rewrite _loadRenderingDesignArtboard_S.
    unfold _loadRenderingDesignArtboard_body, getBitmapAssets, getFonts,
      downloadBitmapAssets, downloadBitmapAsset, _loadFontsToRendering,
      loadFont.
    sat_crush ltac:(first
      [ apply stays_rejected_ArtboardFacade_load
      | apply stays_rejected_RenderingDesign_loadArtboard
      | apply stays_rejected_markArtboardAsReady
      | apply IH
      | stays_rejected_prim ]).
Qed.

(** Once the session of the rendering design is rejected, it is never
    started again.  Whatever artboard is loaded afterwards, the session stays
    rejected, the rendering process receives no command, no artboard
    becomes ready, and the load of an artboard that is not ready does not
    resolve. *)
Theorem rejected_session_blocks_every_load (fuel : nat) (a : ArtboardId)
    (params : LoadParams) (e : Error) (w : World) :
  _designPromise w = Some (Rejected e) ->
  let r := exec (_loadRenderingDesignArtboard fuel a params) w in
  _designPromise r.2 = Some (Rejected e)
  /\ commands r.2 = commands w
  /\ (forall x, isArtboardReady r.2 x = isArtboardReady w x)
  /\ (isArtboardReady w a = false -> r.1 <> Returned tt).
Proof.
  intros Hd. cbv zeta.
  destruct (stays_rejected__loadRenderingDesignArtboard e fuel a params w Hd)
    as (H1 & H2 & H3).
  split_and!; try done.
  intros Hr Hret.
  destruct (exec (_loadRenderingDesignArtboard fuel a params) w) as [o w']
    eqn:E.
  simpl in *. subst o. apply returned__loadRenderingDesignArtboard in E.
  rewrite H3 in E. congruence.
Qed.

(** ** Fonts and bitmaps of the rendering design *)

(** [loadFont] adds the name to [_loadedFonts] before it sends [load-font],
    and does not look at the answer.  Whatever becomes of the call (the
    command accepted, refused, or never sent because the session was
    rejected), the font counts as loaded afterwards; with the session
    established the call resolves even when the rendering process refused
    the font; and a later [loadFont] of the name resolves at once, sending
    nothing. *)
Theorem loadFont_marks_before_sending (postscriptName filename : string)
    (facePostscriptName : option string) (w : World) :
  postscriptName ∉ _loadedFonts w ->
  let r := exec (loadFont postscriptName filename facePostscriptName) w in
  postscriptName ∈ _loadedFonts r.2
  /\ (_designPromise w = Some Resolved ->
      r.1 = Returned tt
      /\ commands r.2
         = commands w
           ++ [LoadFont postscriptName filename (or_null facePostscriptName)])
  /\ forall filename' facePostscriptName',
       exec (loadFont postscriptName filename' facePostscriptName') r.2
       = (Returned tt, r.2).
Proof.
  intros Hn. cbv zeta.
  set (w0 := with_loadedFonts ({[postscriptName]} ∪ _loadedFonts w) w).
  assert (exec (loadFont postscriptName filename facePostscriptName) w
          = continue
              (exec (execCommand
                       (LoadFont postscriptName filename
                          (or_null facePostscriptName))) w0)
              (fun _ w' => (Returned tt, w'))) as ->.
  { unfold loadFont. rewrite exec_get_bind.
    rewrite decide_False by done. rewrite exec_modify_bind.
    by rewrite exec_bind. }
  assert (postscriptName ∈
            _loadedFonts
              (continue
                 (exec (execCommand
                          (LoadFont postscriptName filename
                             (or_null facePostscriptName))) w0)
                 (fun _ w' => (@Returned unit tt, w'))).2) as Hin.
  { pattern (exec (execCommand
                     (LoadFont postscriptName filename
                        (or_null facePostscriptName))) w0).
    apply execCommand_cases; simpl; intros;
      match goal with
      | H : only_session w0 _ |- _ =>
          apply only_session_fields in H as (_&_&_&_&_&_&_&_&_&->)
      end; unfold w0; simpl; set_solver. }
  split_and!.
  - exact Hin.
  - intros Hs. rewrite exec_execCommand_resolved by done. simpl.
    split; [done|]. unfold commands. simpl.
    by rewrite reverse_cons, omap_app.
  - intros filename' face'. unfold loadFont. rewrite exec_get_bind.
    by rewrite decide_True.
Qed.

(** [loadImage] adds the key to [_loadedBitmaps] only after [load-image] was
    answered, and does not look at the answer either: the key is marked
    exactly when the call resolves, and with the session established the
    call resolves even when the rendering process refused the bitmap. *)
Theorem loadImage_marks_after_answer (bitmapKey filename : string)
    (w : World) :
  bitmapKey ∉ _loadedBitmaps w ->
  let r := exec (loadImage bitmapKey filename) w in
  (bitmapKey ∈ _loadedBitmaps r.2 <-> r.1 = Returned tt)
  /\ (_designPromise w = Some Resolved ->
      r.1 = Returned tt
      /\ commands r.2 = commands w ++ [LoadImage bitmapKey filename]).
Proof.
  intros Hn. cbv zeta.
  assert (exec (loadImage bitmapKey filename) w
          = continue (exec (execCommand (LoadImage bitmapKey filename)) w)
              (fun _ w' =>
                 (Returned tt,
                  with_loadedBitmaps ({[bitmapKey]} ∪ _loadedBitmaps w') w')))
    as ->.
  { unfold loadImage. rewrite exec_get_bind.
    rewrite decide_False by done. by rewrite exec_bind. }
  split.
  - pattern (exec (execCommand (LoadImage bitmapKey filename)) w).
    apply execCommand_cases; simpl.
    + intros w1 _. split; [done|]. intros _. set_solver.
    + intros w1 Hw1.
      apply only_session_fields in Hw1 as (_&_&_&_&_&_&_&_&->&_).
      split; [done|]. intros [=].
    + intros e w1 Hw1.
      apply only_session_fields in Hw1 as (_&_&_&_&_&_&_&_&->&_).
      split; [done|]. intros [=].
  - intros Hs. rewrite exec_execCommand_resolved by done. simpl.
    split; [done|]. unfold commands. simpl.
    by rewrite reverse_cons, omap_app.
Qed.

(** ** Registration with the rendering design *)

(** [RenderingDesign.loadArtboard] puts the artboard into [_artboards]
    before [load-artboard] is sent, and nothing takes it out when the
    command is refused or the session fails.  So the registration of an
    artboard is attempted once: whatever became of the first call, the
    artboard is registered afterwards, not ready, and every later call
    returns that artboard at once, without a request. *)
Theorem registration_is_attempted_once (a : ArtboardId) (file : string)
    (sym page : option string) (w : World) :
  _artboards w !! a = None ->
  let r := exec (RenderingDesign_loadArtboard a file sym page) w in
  exists ra,
    _artboards r.2 !! a = Some ra
    /\ _ready ra = false
    /\ (forall x, x <> a -> _artboards r.2 !! x = _artboards w !! x)
    /\ forall file' sym' page',
         exec (RenderingDesign_loadArtboard a file' sym' page') r.2
         = (Returned ra, r.2).
Proof.
  intros Hn. cbv zeta.
  pose proof (exec_RenderingDesign_loadArtboard a file sym page w) as H.
  rewrite Hn in H. destruct H as (ra & w1 & Hra & _ & Ht & Hw1 & _).
  rewrite Hw1. pose proof (to_ready _ _ _ Ht) as Hr. simpl in Hr.
  rewrite lookup_insert_eq in Hr.
  destruct (_artboards w1 !! a) as [ra1|] eqn:E1; [|done].
  exists ra1. split_and!; [done|simpl in Hr; congruence| |].
  - intros x Hx. rewrite (to_others _ _ _ Ht) by done. simpl.
    by rewrite lookup_insert_ne.
  - intros file' sym' page'.
    pose proof (exec_RenderingDesign_loadArtboard a file' sym' page' w1) as H.
    by rewrite E1 in H.
Qed.

End Sequential.

(** ** Calls that overlap *)

(** *** The event loop *)

(** A call between two turns of the event loop:
    - [Done]: its promise is settled;
    - [Parked]: it awaits the answer of a request it issued; [m] is what it
      does with the answer;
    - [Waiting]: it awaits a promise stored in a field;
    - [Join]: it awaits [Promise.all] of two calls it started. *)
Inductive Task (A : Type) : Type :=
| Done (o : Outcome A)
| Parked (m : Async A)
| Waiting (p : PromiseKey) (k : Async A)
| Join (t1 t2 : Task unit) (k : Async A).

Arguments Done {A} o.
Arguments Parked {A} m.
Arguments Waiting {A} p k.
Arguments Join {A} t1 t2 k.

(** What a thread of the pool is there for: the promise of a caller is the
    one a user of the SDK awaits; a forked call settles the promise stored
    in a field; a branch of a [Promise.all] that was rejected by its other
    branch runs on, unobserved. *)
Inductive Role : Type :=
| Caller
| Settles (p : PromiseKey)
| Detached.

(** A thread, with the requests it issued itself, the first one first. *)
Record Thread : Type := mkThread {
  role : Role;
  state : Task unit;
  own : list Event;
}.

Definition Pool : Type := list Thread.

(** A turn of a call: where it stops, the objects as it leaves them, the
    threads it started, and the requests it issued. *)
Definition Turn (A : Type) : Type :=
  (Task A * World * list Thread * list Event)%type.

(** The promise of a forked call follows its outcome. *)
Definition settle (p : PromiseKey) (t : Task unit) (w : World) : World :=
  match t with
  | Done (Returned _) => set_promise p Resolved w
  | Done (Failed e) => set_promise p (Rejected e) w
  | _ => w
  end.

(** How [Promise.all] of two calls stands: rejected as soon as one of them
    is, resolved when both are. *)
Definition join_outcome (t1 t2 : Task unit) : option (Outcome unit) :=
  match t1, t2 with
  | Done (Failed e), _ => Some (Failed e)
  | _, Done (Failed e) => Some (Failed e)
  | Done Exhausted, _ | _, Done Exhausted => Some Exhausted
  | Done Stuck, _ | _, Done Stuck => Some Stuck
  | Done (Returned _), Done (Returned _) => Some (Returned tt)
  | _, _ => None
  end.

Definition detach (t : Task unit) : list Thread :=
  match t with
  | Done _ => []
  | _ => [mkThread Detached t []]
  end.

Definition is_caller (th : Thread) : bool :=
  match role th with Caller => true | _ => false end.

Definition is_returned {A : Type} (t : Task A) : bool :=
  match t with Done (Returned _) => true | _ => false end.

(** The threads of the callers. *)
Definition callers (pool : Pool) : list Thread := List.filter is_caller pool.

(** The callers whose promise is resolved. *)
Definition returned_callers (pool : Pool) : list Thread :=
  List.filter (fun th => is_returned (state th)) (callers pool).

Definition is_command (c : Command) (ev : Event) : bool :=
  match ev with
  | Issued (Process c') => bool_decide (c' = c)
  | Issued _ => false
  end.

(** The number of commands [c] that the threads of the pool issued. *)
Definition issued_commands (c : Command) (pool : Pool) : nat :=
  sum_list_with (fun th => length (List.filter (is_command c) (own th))) pool.

Section Concurrent.

Variable env : Environment.

(** [advance m w] runs the call [m] up to its next suspension point.  A
    request is issued, and answered by the environment as of that moment;
    the call goes on with the answer in a later turn. *)
Fixpoint advance {A : Type} (m : Async A) (w : World) : Turn A :=
  match m with
  | Ret a => (Done (Returned a), w, [], [])
  | Throw e => (Done (Failed e), w, [], [])
  | OutOfFuel => (Done Exhausted, w, [], [])
  | Get k => advance (k w) w
  | Put w' k => advance k w'
  | Io r k =>
      (Parked (k (env _ (history w) r)), record_request r w, [], [Issued r])
  | Await p k => (Waiting p k, w, [], [])
  | Fork p body k =>
      let '(tb, w1, sb, ib) := advance body (set_promise p Pending w) in
      let '(tk, w2, sk, ik) := advance k (settle p tb w1) in
      (tk, w2, sb ++ mkThread (Settles p) tb ib :: sk, ik)
  | Both p1 p2 k =>
      let '(t1, w1, s1, i1) := advance p1 w in
      let '(t2, w2, s2, i2) := advance p2 w1 in
      (Join t1 t2 k, w2, s1 ++ s2, i1 ++ i2)
  end.

(** [resume t path w]: a turn of a suspended call.  In a [Join], [path]
    tells which branch takes the turn. *)
Fixpoint resume {A : Type} (t : Task A) (path : list bool) (w : World)
    : Turn A :=
  match t with
  | Done o => (Done o, w, [], [])
  | Parked m => advance m w
  | Waiting p k =>
      match promise w p with
      | Some Resolved => advance k w
      | Some (Rejected e) => (Done (Failed e), w, [], [])
      | Some Pending | None => (Waiting p k, w, [], [])
      end
  | Join t1 t2 k =>
      match join_outcome t1 t2 with
      | Some (Returned _) => advance k w
      | Some (Failed e) => (Done (Failed e), w, detach t1 ++ detach t2, [])
      | Some Exhausted => (Done Exhausted, w, detach t1 ++ detach t2, [])
      | Some Stuck => (Done Stuck, w, detach t1 ++ detach t2, [])
      | None =>
          match path with
          | true :: path =>
              let '(t2', w', s, i) := resume t2 path w in
              (Join t1 t2' k, w', s, i)
          | _ =>
              let '(t1', w', s, i) := resume t1 (tail path) w in
              (Join t1' t2 k, w', s, i)
          end
      end
  end.

(** A turn of the thread [i] of the pool. *)
Definition step (i : nat) (path : list bool) (c : World * Pool)
    : World * Pool :=
  match c.2 !! i with
  | None => c
  | Some th =>
      match state th with
      | Done _ => c
      | t =>
          let '(t', w', s, evs) := resume t path c.1 in
          (match role th with Settles p => settle p t' w' | _ => w' end,
           <[i := mkThread (role th) t' (own th ++ evs)]> c.2 ++ s)
      end
  end.

(** The calls [ms] are made one after the other in one turn. *)
Definition call_all (ms : list (Async unit)) (w : World) : World * Pool :=
  foldl (fun c m =>
           let '(t, w', s, evs) := advance m c.1 in
           (w', c.2 ++ mkThread Caller t evs :: s))
        (w, []) ms.

(** The turns of a schedule, in order. *)
Definition run (schedule : list (nat * list bool)) (c : World * Pool)
    : World * Pool :=
  foldl (fun c turn => step turn.1 turn.2 c) c schedule.

(** *** A command that every returning run issues *)

(** [owes c m]: the call [m] cannot return without issuing the command [c]
    itself, whatever it reads and whatever it is answered. *)
Inductive owes (c : Command) {A : Type} : Async A -> Prop :=
| owes_Throw e : owes c (Throw e)
| owes_OutOfFuel : owes c OutOfFuel
| owes_Get k : (forall w, owes c (k w)) -> owes c (Get k)
| owes_Put w k : owes c k -> owes c (Put w k)
| owes_now k : owes c (Io (Process c) k)
| owes_Io {X : Type} (r : Request X) k :
    (forall x, owes c (k x)) -> owes c (Io r k)
| owes_Await p k : owes c k -> owes c (Await p k)
| owes_Fork p body k : owes c k -> owes c (Fork p body k)
| owes_Both p1 p2 k : owes c k -> owes c (Both p1 p2 k).

Lemma owes_bind_l c {A B : Type} (m : Async A) (f : A -> Async B) :
  owes c m -> owes c (m ≫= f).
Proof.
  unfold mbind, Async_bind.
  induction 1; simpl; try (by constructor); constructor; auto.
Qed.

Lemma owes_bind_r c {A B : Type} (m : Async A) (f : A -> Async B) :
  (forall a, owes c (f a)) -> owes c (m ≫= f).
Proof.
  unfold mbind, Async_bind. intros Hf. revert B f Hf.
  induction m as [A a|A e|A|A k IH|A w' k IH|A X r k IH|A p k IH
                 |A p body _ k IH|A p1 _ p2 _ k IH];
    intros B f Hf; simpl; try (by constructor); auto.
  - constructor. intros w. by apply IH.
  - constructor. by apply IH.
  - apply owes_Io. intros x. by apply IH.
  - constructor. by apply IH.
  - constructor. by apply IH.
  - constructor. by apply IH.
Qed.

(** A suspended call that cannot return without issuing [c]. *)
Definition task_owes (c : Command) {A : Type} (t : Task A) : Prop :=
  match t with
  | Done (Returned _) => False
  | Done _ => True
  | Parked m => owes c m
  | Waiting _ k => owes c k
  | Join _ _ k => owes c k
  end.

Lemma advance_owes c {A : Type} (m : Async A) (w : World) :
  owes c m ->
  task_owes c (advance m w).1.1.1 \/ Issued (Process c) ∈ (advance m w).2.
Proof.
  intros H. revert w.
  induction H as [e| |k _ IH|w' k _ IH|k|X r k H _|p k H _|p body k _ IH
                 |p1 p2 k H _]; intros w; simpl; auto.
  - right. apply list_elem_of_singleton. done.
  - destruct (advance body (set_promise p Pending w)) as [[[tb w1] sb] ib].
    specialize (IH (settle p tb w1)).
    by destruct (advance k (settle p tb w1)) as [[[tk w2] sk] ik].
  - destruct (advance p1 w) as [[[t1 w1] s1] i1].
    destruct (advance p2 w1) as [[[t2 w2] s2] i2]. by left.
Qed.

Lemma resume_owes c {A : Type} (t : Task A) path (w : World) :
  task_owes c t ->
  task_owes c (resume t path w).1.1.1
  \/ Issued (Process c) ∈ (resume t path w).2.
Proof.
  destruct t as [o|m|p k|t1 t2 k]; simpl; intros H.
  - by left.
  - by apply advance_owes.
  - destruct (promise w p) as [[| |e]|]; simpl; auto.
    by apply advance_owes.
  - destruct (join_outcome t1 t2) as [[[]|e| |]|]; simpl; auto.
    + by apply advance_owes.
    + destruct path as [|[] path]; simpl.
      * destruct (resume t1 [] w) as [[[t1' w'] s] i]. by left.
      * destruct (resume t2 path w) as [[[t2' w'] s] i]. by left.
      * destruct (resume t1 path w) as [[[t1' w'] s] i]. by left.
Qed.

(** The callers of the pool that have not issued [c] cannot return without
    issuing it. *)
Definition callers_owe (c : Command) (pool : Pool) : Prop :=
  Forall (fun th =>
            role th = Caller ->
            task_owes c (state th) \/ Issued (Process c) ∈ own th) pool.

Definition started (th : Thread) : Prop := role th <> Caller.

Lemma advance_started {A : Type} (m : Async A) w :
  Forall started (advance m w).1.2.
Proof.
  revert w.
  induction m as [A a|A e|A|A k IH|A w' k IH|A X r k IH|A p k IH
                 |A p body IHb k IH|A p1 IH1 p2 IH2 k IH];
    intros w; simpl; auto.
  - specialize (IHb (set_promise p Pending w)).
    destruct (advance body (set_promise p Pending w)) as [[[tb w1] sb] ib].
    specialize (IH (settle p tb w1)).
    destruct (advance k (settle p tb w1)) as [[[tk w2] sk] ik]. simpl in *.
    apply Forall_app. split; [done|]. by constructor.
  - specialize (IH1 w). destruct (advance p1 w) as [[[t1 w1] s1] i1].
    specialize (IH2 w1). destruct (advance p2 w1) as [[[t2 w2] s2] i2].
    simpl in *. by apply Forall_app.
Qed.

Lemma detach_started t : Forall started (detach t).
Proof. destruct t; simpl; repeat constructor; done. Qed.

Lemma resume_started {A : Type} (t : Task A) path w :
  Forall started (resume t path w).1.2.
Proof.
  revert path w. induction t as [A o|A m|A p k|A t1 IH1 t2 IH2 k];
    intros path w; simpl; auto.
  - apply advance_started.
  - destruct (promise w p) as [[| |e]|]; simpl; auto. apply advance_started.
  - destruct (join_outcome t1 t2) as [[[]|e| |]|]; simpl;
      try (apply Forall_app; split; apply detach_started).
    + apply advance_started.
    + destruct path as [|[] path]; simpl.
      * specialize (IH1 [] w). by destruct (resume t1 [] w) as [[[t1' w'] s] i].
      * specialize (IH2 path w).
        by destruct (resume t2 path w) as [[[t2' w'] s] i].
      * specialize (IH1 path w).
        by destruct (resume t1 path w) as [[[t1' w'] s] i].
Qed.

Lemma callers_owe_started c s : Forall started s -> callers_owe c s.
Proof.
  intros H. eapply Forall_impl; [exact H|]. intros th H1 H2. done.
Qed.

Lemma callers_owe_step c i path cfg :
  callers_owe c cfg.2 -> callers_owe c (step i path cfg).2.
Proof.
  intros H. unfold step. destruct (cfg.2 !! i) as [th|] eqn:Hi; [|done].
  assert (role th = Caller ->
          task_owes c (state th) \/ Issued (Process c) ∈ own th) as Hth.
  { by apply (Forall_lookup_1 _ _ _ _ H Hi). }
  destruct (state th) as [o|m|p k|t1 t2 k] eqn:Hst; [done|..];
    match goal with
    | |- context [resume ?t path cfg.1] =>
        pose proof (resume_owes c t path cfg.1) as Hr;
        pose proof (resume_started t path cfg.1) as Hs;
        destruct (resume t path cfg.1) as [[[t' w'] s] evs]
    end; simpl in *;
    (apply Forall_app; split; [|by apply callers_owe_started]);
    (apply Forall_insert; [done|]); simpl; intros Hc;
    (destruct (Hth Hc) as [Ho|Ho];
      [destruct (Hr Ho); [by left|right; apply elem_of_app; by right]
      |right; apply elem_of_app; by left]).
Qed.

Lemma callers_owe_run c schedule cfg :
  callers_owe c cfg.2 -> callers_owe c (run schedule cfg).2.
Proof.
  revert cfg. induction schedule as [|[i path] schedule IH]; intros cfg H;
    simpl; [done|].
  by apply IH, callers_owe_step.
Qed.

(** *** What a call does before it first suspends *)

Definition world_of {A : Type} (turn : Turn A) : World := turn.1.1.2.


Lemma advance_get_bind {A : Type} (k : World -> Async A) w :
  advance (get ≫= k) w = advance (k w) w.
Proof. reflexivity. Qed.

(** The rendering design holds the same artboards. *)
Definition same_artboards (w w' : World) : Prop := _artboards w' = _artboards w.

#[local] Instance same_artboards_preorder : PreOrder same_artboards.
Proof.
  split; unfold same_artboards; [done|]. intros w1 w2 w3 H1 H2. congruence.
Qed.

Lemma same_artboards_set_promise p v w : same_artboards w (set_promise p v w).
Proof. by destruct p. Qed.

Lemma same_artboards_settle p t w : same_artboards w (settle p t w).
Proof.
  destruct t as [[]| | |]; try done; apply same_artboards_set_promise.
Qed.


(** *** Overlapping loads of one artboard *)



(** *** The pool of the callers *)

Lemma callers_app pool pool' :
  callers (pool ++ pool') = callers pool ++ callers pool'.
Proof. apply List.filter_app. Qed.

Lemma callers_started s : Forall started s -> callers s = [].
Proof.
  induction 1 as [|th s Hth _ IH]; [done|]. simpl. rewrite IH.
  unfold is_caller, started in *. by destruct (role th).
Qed.

Lemma length_callers_insert i th th' pool :
  pool !! i = Some th -> role th' = role th ->
  length (callers (<[i := th']> pool)) = length (callers pool).
Proof.
  revert i. induction pool as [|x pool IH]; intros [|i] Hi Hr; simpl in *;
    try done.
  - injection Hi as ->. unfold is_caller. rewrite Hr. by destruct (role th).
  - unfold callers in *. simpl. destruct (is_caller x); simpl;
      [f_equal|]; by apply IH.
Qed.

Lemma length_callers_step i path cfg :
  length (callers (step i path cfg).2) = length (callers cfg.2).
Proof.
  unfold step. destruct (cfg.2 !! i) as [th|] eqn:Hi; [|done].
  destruct (state th) as [o|m|p k|t1 t2 k] eqn:Hst; [done|..];
    match goal with
    | |- context [resume ?t path cfg.1] =>
        pose proof (resume_started t path cfg.1) as Hs;
        destruct (resume t path cfg.1) as [[[t' w'] s] evs]
    end; simpl in *;
    by rewrite callers_app, (callers_started s), app_nil_r,
         (length_callers_insert _ th) by done.
Qed.

Lemma length_callers_run schedule cfg :
  length (callers (run schedule cfg).2) = length (callers cfg.2).
Proof.
  revert cfg. induction schedule as [|[i path] schedule IH]; intros cfg;
    simpl; [done|].
  by rewrite IH, length_callers_step.
Qed.

Lemma call_all_snoc ms m w :
  call_all (ms ++ [m]) w
  = let '(t, w', s, evs) := advance m (call_all ms w).1 in
    (w', (call_all ms w).2 ++ mkThread Caller t evs :: s).
Proof. unfold call_all. by rewrite foldl_app. Qed.

Lemma is_command_issued c l :
  Issued (Process c) ∈ l -> 1 <= length (List.filter (is_command c) l).
Proof.
  induction l as [|e l IH]; intros H.
  - by apply elem_of_nil in H.
  - apply elem_of_cons in H as [<-|H]; simpl.
    + rewrite bool_decide_eq_true_2 by done. simpl. lia.
    + specialize (IH H). destruct (is_command c e); simpl; lia.
Qed.

(** As many commands as callers that returned, at the least. *)
Lemma returned_callers_issued c pool :
  callers_owe c pool ->
  length (returned_callers pool) <= issued_commands c pool.
Proof.
  unfold returned_callers, issued_commands, callers.
  induction 1 as [|th pool Hth _ IH]; simpl; [done|].
  destruct (is_caller th) eqn:Hc; simpl; [|lia].
  destruct (is_returned (state th)) eqn:Hret; simpl; [|lia].
  destruct Hth as [Ho|Hi].
  - unfold is_caller in Hc. by destruct (role th).
  - by destruct (state th) as [[]| | |].
  - apply is_command_issued in Hi. lia.
Qed.

(** Calls of [m] made in one turn, from states that the first turn of [m]
    keeps and in which [m] cannot return without issuing [c]. *)
Lemma call_all_owe c (I : World -> Prop) (m : Async unit) n w :
  I w ->
  (forall w', I w' ->
     (task_owes c (advance m w').1.1.1
      \/ Issued (Process c) ∈ (advance m w').2)
     /\ I (world_of (advance m w'))) ->
  I (call_all (replicate n m) w).1
  /\ callers_owe c (call_all (replicate n m) w).2
  /\ length (callers (call_all (replicate n m) w).2) = n.
Proof.
  intros Hw Hm.
  induction n as [|n IH].
  { split_and!; [done|constructor|done]. }
  rewrite replicate_S_end, call_all_snoc.
  destruct IH as (HI & Ho & Hn).
  remember (call_all (replicate n m) w) as cfg eqn:Ecfg. clear Ecfg.
  pose proof (Hm cfg.1 HI) as [Hturn Hkeep].
  pose proof (advance_started m cfg.1) as Hs.
  destruct (advance m cfg.1) as [[[t w'] s] evs].
  unfold world_of in Hkeep. simpl in *. split_and!.
  - done.
  - apply Forall_app. split; [done|]. constructor; [done|].
    by apply callers_owe_started.
  - rewrite callers_app, length_app, Hn. simpl.
    rewrite (callers_started s) by done. simpl. lia.
Qed.

(** Whatever the schedule, a caller of such a pool that returned has issued
    the command itself. *)
Lemma overlapping_calls_each_issue c (I : World -> Prop) (m : Async unit)
    n w schedule :
  I w ->
  (forall w', I w' ->
     (task_owes c (advance m w').1.1.1
      \/ Issued (Process c) ∈ (advance m w').2)
     /\ I (world_of (advance m w'))) ->
  let cfg := run schedule (call_all (replicate n m) w) in
  length (callers cfg.2) = n
  /\ (forall th, th ∈ returned_callers cfg.2 -> Issued (Process c) ∈ own th)
  /\ length (returned_callers cfg.2) <= issued_commands c cfg.2.
Proof.
  intros Hw Hm. cbv zeta.
  destruct (call_all_owe c I m n w Hw Hm) as (_ & Ho & Hn).
  pose proof (callers_owe_run c schedule _ Ho) as Ho'.
  split_and!.
  - by rewrite length_callers_run.
  - intros th Hth. unfold returned_callers, callers in Hth.
    apply list_elem_of_In in Hth.
    apply List.filter_In in Hth as [Hth Hret].
    apply List.filter_In in Hth as [Hth Hc].
    apply list_elem_of_In in Hth.
    pose proof (proj1 (Forall_forall _ _) Ho' th Hth) as Hown.
    destruct Hown as [Hown|Hown]; [| |done].
    + unfold is_caller in Hc. by destruct (role th).
    + by destruct (state th) as [[]| | |].
  - by apply returned_callers_issued.
Qed.

Lemma owes_execCommand cmd : owes cmd (execCommand cmd).
Proof. unfold execCommand. apply owes_bind_r. intros _. apply owes_now. Qed.

(** The first turn of [loadImage] leaves the set of loaded bitmaps as it
    is: the key is added after the answer of the command. *)
Lemma advance_loadImage bitmapKey filename w :
  bitmapKey ∉ _loadedBitmaps w ->
  (task_owes (LoadImage bitmapKey filename)
     (advance (loadImage bitmapKey filename) w).1.1.1
   \/ Issued (Process (LoadImage bitmapKey filename))
       ∈ (advance (loadImage bitmapKey filename) w).2)
  /\ bitmapKey ∉ _loadedBitmaps (world_of (advance (loadImage bitmapKey filename) w)).
Proof.
  intros Hk. unfold loadImage. rewrite advance_get_bind.
  rewrite decide_False by done. split.
  - apply advance_owes, owes_bind_l, owes_execCommand.
  - unfold execCommand, _ensureDesign, _createDesign, world_of. simpl.
    destruct (_designPromise w); simpl; done.
Qed.

(** Overlapping calls of [loadImage] for a key that is not loaded: each
    caller that returned has sent [load-image] itself. *)
Lemma overlapping_loadImage_each_send (n : nat) (bitmapKey filename : string)
    (w : World) (schedule : list (nat * list bool)) :
  bitmapKey ∉ _loadedBitmaps w ->
  let cfg :=
    run schedule (call_all (replicate n (loadImage bitmapKey filename)) w) in
  length (callers cfg.2) = n
  /\ (forall th, th ∈ returned_callers cfg.2 ->
        Issued (Process (LoadImage bitmapKey filename)) ∈ own th)
  /\ length (returned_callers cfg.2)
     <= issued_commands (LoadImage bitmapKey filename) cfg.2.
Proof.
  intros Hk.
  apply (overlapping_calls_each_issue (LoadImage bitmapKey filename)
           (fun w => bitmapKey ∉ _loadedBitmaps w)); [done|].
  intros w' Hw'. by apply advance_loadImage.
Qed.

(** *** One content load for an artboard *)

(** The content of [a] is there, or its load was started. *)
Definition stored (a : ArtboardId) (w : World) : Prop :=
  is_Some (_loadingArtboardPromises w !! a) \/ isLoaded w a = true.













































(** The first turn of a call followed by another. *)
Definition task_bind {A B : Type} (t : Task A) (f : A -> Async B) : Task B :=
  match t with
  | Done (Returned x) => Parked (f x)
  | Done (Failed e) => Done (Failed e)
  | Done Exhausted => Done Exhausted
  | Done Stuck => Done Stuck
  | Parked m => Parked (m ≫= f)
  | Waiting p k => Waiting p (k ≫= f)
  | Join t1 t2 k => Join t1 t2 (k ≫= f)
  end.

Lemma advance_bind {A B : Type} (m : Async A) (f : A -> Async B) w :
  advance (m ≫= f) w
  = match advance m w with
    | (Done (Returned x), w', s, i) =>
        let '(t, w'', s', i') := advance (f x) w' in (t, w'', s ++ s', i ++ i')
    | (t, w', s, i) => (task_bind t f, w', s, i)
    end.
Proof.
  unfold mbind, Async_bind. revert B f w.
  induction m as [A a|A e|A|A k IH|A w' k IH|A X r k IH|A p k IH
                 |A p body _ k IH|A p1 _ p2 _ k IH];
    intros B f w; simpl; try done.
  - by destruct (advance (f a) w) as [[[t w''] s'] i'].
  - destruct (advance body (set_promise p Pending w)) as [[[tb w1] sb] ib].
    rewrite IH.
    destruct (advance k (settle p tb w1)) as [[[tk w2] sk] ik].
    destruct tk as [[x|e| |]|m|q k'|t1 t2 k']; try done.
    destruct (advance (f x) w2) as [[[t w''] s'] i'].
    by rewrite <-app_assoc.
  - destruct (advance p1 w) as [[[t1 w1] s1] i1].
    by destruct (advance p2 w1) as [[[t2 w2] s2] i2].
Qed.



Definition is_done {A : Type} (t : Task A) : bool :=
  match t with Done _ => true | _ => false end.














(** *** Requests that are issued once *)

(** The number of requests of the kind [E] that the threads of the pool
    issued. *)
Definition sent (E : Event -> bool) (pool : Pool) : nat :=
  sum_list_with (fun th => length (List.filter E (own th))) pool.

Lemma sent_app E pool pool' : sent E (pool ++ pool') = sent E pool + sent E pool'.
Proof. unfold sent. by rewrite sum_list_with_app. Qed.

Lemma sent_insert E i th th' pool :
  pool !! i = Some th ->
  sent E (<[i := th']> pool) + length (List.filter E (own th))
  = sent E pool + length (List.filter E (own th')).
Proof.
  revert i. induction pool as [|x pool IH]; intros [|i] Hi; simpl in *;
    try done.
  - injection Hi as ->. unfold sent. simpl. lia.
  - specialize (IH i Hi). rewrite <- !Nat.add_assoc. f_equal. exact IH.
Qed.

Lemma sent_turn E i th r (t' : Task unit) evs s pool :
  pool !! i = Some th ->
  sent E (<[i := mkThread r t' (own th ++ evs)]> pool ++ s)
  = sent E pool + length (List.filter E evs) + sent E s.
Proof.
  intros Hi. rewrite sent_app.
  pose proof (sent_insert E i th (mkThread r t' (own th ++ evs)) pool Hi) as H.
  simpl in H. rewrite List.filter_app, length_app in H. unfold Pool in *. lia.
Qed.

(** A turn of a thread that has not ended. *)
Lemma step_turn i path (cfg : World * Pool) th :
  cfg.2 !! i = Some th -> is_done (state th) = false ->
  step i path cfg
  = let '(t', w', s, evs) := resume (state th) path cfg.1 in
    (match role th with Settles p => settle p t' w' | _ => w' end,
     <[i := mkThread (role th) t' (own th ++ evs)]> cfg.2 ++ s).
Proof.
  intros Hi Hd. unfold step. rewrite Hi. by destruct (state th).
Qed.

Lemma step_idle i path (cfg : World * Pool) :
  match cfg.2 !! i with
  | Some th => is_done (state th) = true
  | None => True
  end ->
  step i path cfg = cfg.
Proof.
  unfold step. destruct (cfg.2 !! i) as [th|]; [|done].
  by destruct (state th).
Qed.

Section Once.

(** [G] is the mark that the request was taken care of (the name is in the
    set of loaded fonts, the promise of the session is stored); [E] tells
    the requests that are counted. *)
Variable G : World -> Prop.
Variable E : Event -> bool.

Hypothesis G_set_promise : forall p v w, G w -> G (set_promise p v w).
Hypothesis G_record :
  forall (X : Type) (r : Request X) w, G w -> G (record_request r w).

(** [quiet m]: run from states with the mark, the call [m] keeps the mark
    and issues no request of the kind [E]. *)
Inductive quiet : forall {A : Type}, Async A -> Prop :=
| quiet_Ret {A : Type} (x : A) : quiet (Ret x)
| quiet_Throw {A : Type} e : quiet (@Throw A e)
| quiet_OutOfFuel {A : Type} : quiet (@OutOfFuel A)
| quiet_Get {A : Type} (k : World -> Async A) :
    (forall w, G w -> quiet (k w)) -> quiet (Get k)
| quiet_Put {A : Type} w (k : Async A) : G w -> quiet k -> quiet (Put w k)
| quiet_Io {A X : Type} (r : Request X) (k : X -> Async A) :
    E (Issued r) = false -> (forall x, quiet (k x)) -> quiet (Io r k)
| quiet_Await {A : Type} p (k : Async A) : quiet k -> quiet (Await p k)
| quiet_Fork {A : Type} p body (k : Async A) :
    quiet body -> quiet k -> quiet (Fork p body k)
| quiet_Both {A : Type} p1 p2 (k : Async A) :
    quiet p1 -> quiet p2 -> quiet k -> quiet (Both p1 p2 k).

(** [armed m]: run from states with the mark, the call [m] keeps the mark
    and issues one request of the kind [E] at the most. *)
Inductive armed : forall {A : Type}, Async A -> Prop :=
| armed_quiet {A : Type} (m : Async A) : quiet m -> armed m
| armed_Get {A : Type} (k : World -> Async A) :
    (forall w, G w -> armed (k w)) -> armed (Get k)
| armed_Put {A : Type} w (k : Async A) : G w -> armed k -> armed (Put w k)
| armed_now {A X : Type} (r : Request X) (k : X -> Async A) :
    (forall x, quiet (k x)) -> armed (Io r k)
| armed_Io {A X : Type} (r : Request X) (k : X -> Async A) :
    E (Issued r) = false -> (forall x, armed (k x)) -> armed (Io r k)
| armed_Await {A : Type} p (k : Async A) : armed k -> armed (Await p k)
| armed_Fork {A : Type} p body (k : Async A) :
    quiet body -> armed k -> armed (Fork p body k)
| armed_Both {A : Type} p1 p2 (k : Async A) :
    quiet p1 -> quiet p2 -> armed k -> armed (Both p1 p2 k).

Lemma quiet_bind {A B : Type} (m : Async A) (f : A -> Async B) :
  quiet m -> (forall x, quiet (f x)) -> quiet (m ≫= f).
Proof.
  unfold mbind, Async_bind. intros H. revert B f.
  induction H; intros B f Hf; simpl; try (constructor; by auto).
  apply Hf.
Qed.

Lemma armed_bind_l {A B : Type} (m : Async A) (f : A -> Async B) :
  quiet m -> (forall x, armed (f x)) -> armed (m ≫= f).
Proof.
  unfold mbind, Async_bind. intros H. revert B f.
  induction H; intros B f Hf; simpl;
    try (by apply armed_quiet; constructor).
  - apply Hf.
  - apply armed_Get. auto.
  - apply armed_Put; auto.
  - apply armed_Io; auto.
  - apply armed_Await. auto.
  - apply armed_Fork; auto.
  - apply armed_Both; auto.
Qed.

Lemma armed_bind_r {A B : Type} (m : Async A) (f : A -> Async B) :
  armed m -> (forall x, quiet (f x)) -> armed (m ≫= f).
Proof.
  unfold mbind, Async_bind. intros H. revert B f.
  induction H; intros B f Hf; simpl.
  - apply armed_quiet. by apply quiet_bind.
  - apply armed_Get. auto.
  - apply armed_Put; auto.
  - apply armed_now. intros x. by apply quiet_bind.
  - apply armed_Io; auto.
  - apply armed_Await. auto.
  - apply armed_Fork; auto.
  - apply armed_Both; auto.
Qed.

Fixpoint task_quiet {A : Type} (t : Task A) : Prop :=
  match t with
  | Done _ => True
  | Parked m => quiet m
  | Waiting _ k => quiet k
  | Join t1 t2 k => task_quiet t1 /\ task_quiet t2 /\ quiet k
  end.

Definition task_armed {A : Type} (t : Task A) : Prop :=
  match t with
  | Done _ => True
  | Parked m => armed m
  | Waiting _ k => armed k
  | Join t1 t2 k => task_quiet t1 /\ task_quiet t2 /\ armed k
  end.

Lemma task_quiet_armed {A : Type} (t : Task A) : task_quiet t -> task_armed t.
Proof.
  destruct t; simpl; try done; try apply armed_quiet.
  intros (? & ? & ?). split_and!; try done. by apply armed_quiet.
Qed.

Definition pool_quiet (pool : Pool) : Prop :=
  Forall (fun th => task_quiet (state th)) pool.

Lemma G_settle p (t : Task unit) w : G w -> G (settle p t w).
Proof. intros H. destruct t as [[]| | |]; simpl; auto. Qed.

(** What a turn of a quiet call leaves. *)
Definition turn_quiet {A : Type} (turn : Turn A) : Prop :=
  task_quiet turn.1.1.1
  /\ G (world_of turn)
  /\ pool_quiet turn.1.2
  /\ sent E turn.1.2 = 0
  /\ length (List.filter E turn.2) = 0.

(** What a turn of an armed call leaves. *)
Definition turn_armed {A : Type} (turn : Turn A) : Prop :=
  G (world_of turn)
  /\ pool_quiet turn.1.2
  /\ sent E turn.1.2 = 0
  /\ (task_armed turn.1.1.1 /\ length (List.filter E turn.2) = 0
      \/ task_quiet turn.1.1.1 /\ length (List.filter E turn.2) <= 1).

Lemma turn_quiet_armed {A : Type} (turn : Turn A) :
  turn_quiet turn -> turn_armed turn.
Proof.
  intros (H1 & H2 & H3 & H4 & H5). split_and!; try done. right.
  split; [done|lia].
Qed.

Lemma advance_quiet {A : Type} (m : Async A) (w : World) :
  quiet m -> G w -> turn_quiet (advance m w).
Proof.
  intros H. revert w. unfold turn_quiet, world_of, pool_quiet.
  induction H as [A x|A e|A|A k _ IH|A w' k Hw' _ IH|A X r k Hr H _|A p k H _
                 |A p body k _ IHb _ IHk|A p1 p2 k _ IH1 _ IH2 H _];
    intros w Hw; simpl.
  - by split_and!.
  - by split_and!.
  - by split_and!.
  - by apply IH.
  - by apply IH.
  - rewrite Hr. split_and!; auto.
  - by split_and!.
  - destruct (IHb (set_promise p Pending w)) as (Hb1 & Hb2 & Hb3 & Hb4 & Hb5);
      [by apply G_set_promise|].
    destruct (advance body (set_promise p Pending w)) as [[[tb w1] sb] ib].
    simpl in *.
    destruct (IHk (settle p tb w1)) as (Hk1 & Hk2 & Hk3 & Hk4 & Hk5);
      [by apply G_settle|].
    destruct (advance k (settle p tb w1)) as [[[tk w2] sk] ik]. simpl in *.
    split_and!; [done..| | |done].
    + apply Forall_app. split; [done|]. by constructor.
    + rewrite sent_app. unfold sent at 2. simpl. fold (sent E sk). lia.
  - destruct (IH1 w Hw) as (H11 & H12 & H13 & H14 & H15).
    destruct (advance p1 w) as [[[t1 w1] s1] i1]. simpl in *.
    destruct (IH2 w1 H12) as (H21 & H22 & H23 & H24 & H25).
    destruct (advance p2 w1) as [[[t2 w2] s2] i2]. simpl in *.
    split_and!; try done.
    + by apply Forall_app.
    + rewrite sent_app. lia.
    + rewrite List.filter_app, length_app. lia.
Qed.

Lemma advance_armed {A : Type} (m : Async A) (w : World) :
  armed m -> G w -> turn_armed (advance m w).
Proof.
  intros H. revert w.
  induction H as [A m Hm|A k _ IH|A w' k Hw' _ IH|A X r k H|A X r k Hr Hk _
                 |A p k H _|A p body k Hb _ IHk|A p1 p2 k H1 H2 H _];
    intros w Hw.
  - by apply turn_quiet_armed, advance_quiet.
  - simpl. by apply IH.
  - simpl. by apply IH.
  - unfold turn_armed, world_of, pool_quiet. simpl. split_and!; auto.
    right. split; [apply H|]. destruct (E (Issued r)); simpl; lia.
  - unfold turn_armed, world_of, pool_quiet. simpl. rewrite Hr.
    split_and!; auto.
  - unfold turn_armed, world_of, pool_quiet. simpl. split_and!; auto.
  - destruct (advance_quiet body (set_promise p Pending w) Hb)
      as (Hb1 & Hb2 & Hb3 & Hb4 & Hb5); [by apply G_set_promise|].
    unfold turn_armed, world_of, pool_quiet in *. simpl.
    destruct (advance body (set_promise p Pending w)) as [[[tb w1] sb] ib].
    simpl in *.
    destruct (IHk (settle p tb w1)) as (Hk2 & Hk3 & Hk4 & Hk5);
      [by apply G_settle|].
    destruct (advance k (settle p tb w1)) as [[[tk w2] sk] ik]. simpl in *.
    split_and!; [done| | |done].
    + apply Forall_app. split; [done|]. by constructor.
    + rewrite sent_app. unfold sent at 2. simpl. fold (sent E sk). lia.
  - destruct (advance_quiet p1 w H1 Hw) as (H11 & H12 & H13 & H14 & H15).
    unfold turn_armed, world_of, pool_quiet in *. simpl.
    destruct (advance p1 w) as [[[t1 w1] s1] i1]. simpl in *.
    destruct (advance_quiet p2 w1 H2 H12) as (H21 & H22 & H23 & H24 & H25).
    unfold world_of, pool_quiet in *.
    destruct (advance p2 w1) as [[[t2 w2] s2] i2]. simpl in *.
    split_and!; try done.
    + by apply Forall_app.
    + rewrite sent_app. lia.
    + left. split; [done|]. rewrite List.filter_app, length_app. lia.
Qed.

Lemma detach_quiet (t : Task unit) :
  task_quiet t -> pool_quiet (detach t) /\ sent E (detach t) = 0.
Proof.
  destruct t; simpl; intros H; (split; [|done]);
    [apply Forall_nil_2 | apply Forall_cons_2; [done|apply Forall_nil_2]..].
Qed.

Lemma detached_quiet (t1 t2 : Task unit) :
  task_quiet t1 -> task_quiet t2 ->
  pool_quiet (detach t1 ++ detach t2) /\ sent E (detach t1 ++ detach t2) = 0.
Proof.
  intros [H1 H1']%detach_quiet [H2 H2']%detach_quiet.
  split; [by apply Forall_app|]. rewrite sent_app. lia.
Qed.

Ltac turn_done :=
  unfold turn_quiet, turn_armed, world_of, pool_quiet in *; simpl in *;
  split_and!; try done; try apply Forall_nil_2; try (by left).

Lemma resume_quiet {A : Type} (t : Task A) path (w : World) :
  task_quiet t -> G w -> turn_quiet (resume t path w).
Proof.
  revert path w.
  induction t as [A o|A m|A p k|A t1 IH1 t2 IH2 k]; intros path w Ht Hw;
    simpl.
  - turn_done.
  - by apply advance_quiet.
  - destruct (promise w p) as [[| |e]|];
      first [by apply advance_quiet | turn_done].
  - destruct Ht as (Ht1 & Ht2 & Hk).
    destruct (detached_quiet t1 t2 Ht1 Ht2) as [Hd1 Hd2].
    destruct (join_outcome t1 t2) as [[[]|e| |]|];
      [by apply advance_quiet|turn_done..|].
    destruct path as [|[] path]; simpl.
    + destruct (IH1 [] w Ht1 Hw) as (H1 & H2 & H3 & H4 & H5).
      destruct (resume t1 [] w) as [[[t1' w'] s] i]. turn_done.
    + destruct (IH2 path w Ht2 Hw) as (H1 & H2 & H3 & H4 & H5).
      destruct (resume t2 path w) as [[[t2' w'] s] i]. turn_done.
    + destruct (IH1 path w Ht1 Hw) as (H1 & H2 & H3 & H4 & H5).
      destruct (resume t1 path w) as [[[t1' w'] s] i]. turn_done.
Qed.

Lemma resume_armed {A : Type} (t : Task A) path (w : World) :
  task_armed t -> G w -> turn_armed (resume t path w).
Proof.
  destruct t as [o|m|p k|t1 t2 k]; intros Ht Hw; simpl.
  - turn_done.
  - by apply advance_armed.
  - destruct (promise w p) as [[| |e]|];
      first [by apply advance_armed | turn_done].
  - destruct Ht as (Ht1 & Ht2 & Hk).
    destruct (detached_quiet t1 t2 Ht1 Ht2) as [Hd1 Hd2].
    destruct (join_outcome t1 t2) as [[[]|e| |]|];
      [by apply advance_armed|turn_done..|].
    destruct path as [|[] path]; simpl.
    + destruct (resume_quiet t1 [] w Ht1 Hw) as (H1 & H2 & H3 & H4 & H5).
      destruct (resume t1 [] w) as [[[t1' w'] s] i]. turn_done.
    + destruct (resume_quiet t2 path w Ht2 Hw) as (H1 & H2 & H3 & H4 & H5).
      destruct (resume t2 path w) as [[[t2' w'] s] i]. turn_done.
    + destruct (resume_quiet t1 path w Ht1 Hw) as (H1 & H2 & H3 & H4 & H5).
      destruct (resume t1 path w) as [[[t1' w'] s] i]. turn_done.
Qed.

(** One thread of the pool is armed, the others are quiet. *)
Definition pool_armed (pool : Pool) : Prop :=
  exists l1 th l2,
    pool = l1 ++ th :: l2
    /\ pool_quiet l1 /\ task_armed (state th) /\ pool_quiet l2.

(** The mark is there, and either no request of the kind was issued and one
    thread may still issue one, or one was issued at the most and no thread
    will issue another. *)
Definition once (cfg : World * Pool) : Prop :=
  G cfg.1
  /\ (sent E cfg.2 = 0 /\ pool_armed cfg.2
      \/ sent E cfg.2 <= 1 /\ pool_quiet cfg.2).

Lemma once_sent cfg : once cfg -> sent E cfg.2 <= 1.
Proof. intros [_ [[H _]|[H _]]]; lia. Qed.

Lemma once_step i path cfg : once cfg -> once (step i path cfg).
Proof.
  intros [Hw Hpool].
  destruct (cfg.2 !! i) as [th|] eqn:Hi.
  2: { rewrite step_idle; [done|by rewrite Hi]. }
  destruct (is_done (state th)) eqn:Hd.
  { rewrite step_idle; [done|by rewrite Hi]. }
  rewrite (step_turn i path cfg th Hi Hd).
  assert (forall t' w',
            G w' ->
            G (match role th with Settles p => settle p t' w' | _ => w' end))
    as Hsettle.
  { intros t' w' H. destruct (role th); try done. by apply G_settle. }
  destruct Hpool as [[Hsent (l1 & th0 & l2 & Hcfg & Hl1 & Hth0 & Hl2)]
                    |[Hsent Hq]].
  - pose proof Hi as Hi0. rewrite Hcfg in Hi.
    apply lookup_app_Some in Hi as [Hi|[Hlen Hi]].
    + (* a quiet thread before the armed one *)
      pose proof (Forall_lookup_1 _ _ _ _ Hl1 Hi) as Hth. simpl in Hth.
      destruct (resume_quiet (state th) path cfg.1 Hth Hw)
        as (H1 & H2 & H3 & H4 & H5).
      destruct (resume (state th) path cfg.1) as [[[t' w'] s] evs].
      unfold world_of in *. simpl in *.
      split; [by apply Hsettle|]. left. simpl. split.
      * rewrite (sent_turn E i th) by done. lia.
      * exists (<[i := mkThread (role th) t' (own th ++ evs)]> l1), th0,
          (l2 ++ s).
        split_and!; [|by apply Forall_insert|done|by apply Forall_app].
        unfold Pool in *.
        rewrite Hcfg, insert_app_l by (by eapply lookup_lt_Some).
        by rewrite <- app_assoc.
    + destruct (i - length l1) as [|j] eqn:Hj; simpl in Hi.
      * (* the armed thread *)
        injection Hi as <-.
        destruct (resume_armed (state th0) path cfg.1 Hth0 Hw)
          as (H2 & H3 & H4 & H5).
        destruct (resume (state th0) path cfg.1) as [[[t' w'] s] evs].
        unfold world_of in *. simpl in *.
        split; [by apply Hsettle|]. simpl.
        assert (<[i := mkThread (role th0) t' (own th0 ++ evs)]> cfg.2 ++ s
                = l1 ++ mkThread (role th0) t' (own th0 ++ evs) :: (l2 ++ s))
          as Hnew.
        { unfold Pool in *.
          rewrite Hcfg, insert_app_r_alt by done. rewrite Hj. simpl.
          by rewrite <- app_assoc. }
        destruct H5 as [[Ht' Hev]|[Ht' Hev]].
        -- left. split.
           ++ rewrite (sent_turn E i th0) by done. lia.
           ++ exists l1, (mkThread (role th0) t' (own th0 ++ evs)), (l2 ++ s).
              split_and!; [done..|by apply Forall_app].
        -- right. split.
           ++ rewrite (sent_turn E i th0) by done. lia.
           ++ rewrite Hnew. apply Forall_app. split; [done|].
              apply Forall_cons_2; [done|by apply Forall_app].
      * (* a quiet thread after the armed one *)
        pose proof (Forall_lookup_1 _ _ _ _ Hl2 Hi) as Hth. simpl in Hth.
        destruct (resume_quiet (state th) path cfg.1 Hth Hw)
          as (H1 & H2 & H3 & H4 & H5).
        destruct (resume (state th) path cfg.1) as [[[t' w'] s] evs].
        unfold world_of in *. simpl in *.
        split; [by apply Hsettle|]. left. simpl. split.
        -- rewrite (sent_turn E i th) by done. lia.
        -- exists l1, th0,
             (<[j := mkThread (role th) t' (own th ++ evs)]> l2 ++ s).
           split_and!;
             [|done..|apply Forall_app; split; [by apply Forall_insert|done]].
           unfold Pool in *.
           rewrite Hcfg, insert_app_r_alt by done. rewrite Hj. simpl.
           by rewrite <- app_assoc.
  - pose proof (Forall_lookup_1 _ _ _ _ Hq Hi) as Hth. simpl in Hth.
    destruct (resume_quiet (state th) path cfg.1 Hth Hw)
      as (H1 & H2 & H3 & H4 & H5).
    destruct (resume (state th) path cfg.1) as [[[t' w'] s] evs].
    unfold world_of in *. simpl in *.
    split; [by apply Hsettle|]. right. simpl. split.
    + rewrite (sent_turn E i th) by done. lia.
    + apply Forall_app. split; [by apply Forall_insert|done].
Qed.

Lemma once_run schedule cfg : once cfg -> once (run schedule cfg).
Proof.
  revert cfg. induction schedule as [|[i path] schedule IH]; intros cfg H;
    simpl; [done|].
  by apply IH, once_step.
Qed.

(** One more quiet call is made. *)
Lemma once_call (m : Async unit) cfg :
  once cfg -> quiet m ->
  once (let '(t, w', s, evs) := advance m cfg.1 in
        (w', cfg.2 ++ mkThread Caller t evs :: s)).
Proof.
  intros [Hw Hpool] Hm.
  destruct (advance_quiet m cfg.1 Hm Hw) as (H1 & H2 & H3 & H4 & H5).
  destruct (advance m cfg.1) as [[[t w'] s] evs].
  unfold world_of in *. simpl in *. split; [done|]. simpl.
  assert (sent E (cfg.2 ++ mkThread Caller t evs :: s) = sent E cfg.2) as Hsent.
  { rewrite sent_app. unfold sent at 2. simpl. fold (sent E s). lia. }
  rewrite Hsent.
  destruct Hpool as [[Hs (l1 & th0 & l2 & Hcfg & Hl1 & Hth0 & Hl2)]|[Hs Hq]].
  - left. split; [done|].
    exists l1, th0, (l2 ++ mkThread Caller t evs :: s).
    split_and!; [by rewrite Hcfg, <- app_assoc|done..|].
    apply Forall_app. split; [done|]. by apply Forall_cons_2.
  - right. split; [done|]. apply Forall_app. split; [done|].
    by apply Forall_cons_2.
Qed.

(** The requests of [_ensureDesign] are not counted: the commands are
    quiet, or armed. *)
Hypothesis E_CreateDesign : E (Issued (Process CreateDesign)) = false.

Lemma quiet__ensureDesign : quiet _ensureDesign.
Proof.
  unfold _ensureDesign, _createDesign. apply quiet_Get. intros w Hw.
  destruct (_designPromise w); simpl; repeat constructor; try done.
  intros result. destruct (ok result); constructor.
Qed.

Lemma quiet_execCommand cmd :
  E (Issued (Process cmd)) = false -> quiet (execCommand cmd).
Proof.
  intros Hcmd. unfold execCommand.
  apply quiet_bind; [apply quiet__ensureDesign|]. intros _.
  apply quiet_Io; [done|]. intros result. constructor.
Qed.

Lemma armed_execCommand cmd : armed (execCommand cmd).
Proof.
  unfold execCommand.
  apply armed_bind_l; [apply quiet__ensureDesign|]. intros _.
  apply armed_now. intros result. constructor.
Qed.

End Once.

Lemma run_nil schedule w : run schedule (w, []) = (w, []).
Proof. induction schedule as [|[i path] schedule IH]; simpl; done. Qed.

(** *** Overlapping calls of [loadFont] *)

(** The [load-font] commands for a name. *)
Definition is_load_font (name : string) (ev : Event) : bool :=
  match ev with
  | Issued (Process (LoadFont key _ _)) => bool_decide (key = name)
  | Issued _ => false
  end.

(** The name is in the set of loaded fonts. *)
Definition font_marked (name : string) (w : World) : Prop :=
  name ∈ _loadedFonts w.

Lemma font_marked_set_promise name p v w :
  font_marked name w -> font_marked name (set_promise p v w).
Proof. by destruct p. Qed.

Lemma font_marked_record name (X : Type) (r : Request X) w :
  font_marked name w -> font_marked name (record_request r w).
Proof. done. Qed.

Lemma quiet_loadFont name file face :
  quiet (font_marked name) (is_load_font name) (loadFont name file face).
Proof.
  unfold loadFont. apply quiet_Get. intros w Hw.
  rewrite decide_True by done. constructor.
Qed.

(** The first call for a name that is not loaded marks it at once, and goes
    on to send the command. *)
Lemma advance_loadFont_first name file face w :
  name ∉ _loadedFonts w ->
  advance (loadFont name file face) w
  = advance (execCommand (LoadFont name file (or_null face)) ≫= fun _ => Ret tt)
      (with_loadedFonts ({[name]} ∪ _loadedFonts w) w).
Proof.
  intros H. unfold loadFont. rewrite advance_get_bind.
  by rewrite decide_False by done.
Qed.

Lemma once_loadFont name (calls : list (string * option string)) w :
  calls = []
  \/ once (font_marked name) (is_load_font name)
       (call_all ((fun c => loadFont name c.1 c.2) <$> calls) w).
Proof.
  induction calls as [|[file face] calls IH] using rev_ind; [by left|].
  right. rewrite fmap_app. cbn [fmap list_fmap]. rewrite call_all_snoc.
  cbn [fst snd].
  pose proof (font_marked_set_promise name) as HG1.
  pose proof (font_marked_record name) as HG2.
  destruct IH as [->|IH].
  - change (call_all ((fun c => loadFont name c.1 c.2) <$> []) w)
      with (w, @nil Thread).
    destruct (decide (name ∈ _loadedFonts w)) as [Hin|Hout].
    + apply (once_call (font_marked name) (is_load_font name) HG1 HG2
               (loadFont name file face) (w, [])); [|apply quiet_loadFont].
      split; [done|]. right. split; [simpl; lia|constructor].
    + cbn [fst snd]. rewrite advance_loadFont_first by done.
      set (w0 := with_loadedFonts ({[name]} ∪ _loadedFonts w) w).
      assert (font_marked name w0) as Hw0.
      { unfold font_marked, w0. simpl. set_solver. }
      destruct (advance_armed (font_marked name) (is_load_font name) HG1 HG2
                  (execCommand (LoadFont name file (or_null face))
                   ≫= fun _ => Ret tt) w0) as (H2 & H3 & H4 & H5); [|done|].
      { apply armed_bind_r; [|intros; constructor].
        by apply armed_execCommand. }
      destruct (advance _ w0) as [[[t w'] s] evs].
      unfold world_of in *. simpl in *. split; [done|]. simpl.
      rewrite H4, Nat.add_0_r. destruct H5 as [[Ht Hev]|[Ht Hev]].
      * left. split; [done|]. exists [], (mkThread Caller t evs), s.
        split_and!; [done|constructor|done..].
      * right. split; [done|]. by constructor.
  - by apply once_call; [..|apply quiet_loadFont].
Qed.

(** Calls of [loadFont] for one name that overlap share one [load-font]
    command: of any number of calls made in one turn, with any files,
    whatever the state they start from and whatever the order in which the
    event loop resumes them, the threads of the pool send [load-font] for
    the name once at the most.  The name is marked before the first call
    suspends, so that the later calls find it. *)
Theorem overlapping_loadFont_sends_once (name : string)
    (calls : list (string * option string)) (w : World)
    (schedule : list (nat * list bool)) :
  let cfg :=
    run schedule
      (call_all ((fun c => loadFont name c.1 c.2) <$> calls) w) in
  sent (is_load_font name) cfg.2 <= 1.
Proof.
  cbv zeta. destruct (once_loadFont name calls w) as [->|H].
  - simpl. unfold call_all. simpl. rewrite run_nil. unfold sent. simpl. lia.
  - apply (once_sent (font_marked name)), once_run;
      first [done | apply font_marked_set_promise | apply font_marked_record].
Qed.

(** *** Overlapping commands of a session *)

(** The promise of the session is stored. *)
Definition session_started (w : World) : Prop := is_Some (_designPromise w).

Lemma session_started_set_promise p v w :
  session_started w -> session_started (set_promise p v w).
Proof. destruct p; simpl; [done|]. intros _. by eexists. Qed.

Lemma session_started_record (X : Type) (r : Request X) w :
  session_started w -> session_started (record_request r w).
Proof. done. Qed.

(** A command of a session that is started waits for it and is sent. *)
Lemma quiet_command cmd :
  cmd <> CreateDesign ->
  quiet session_started (is_command CreateDesign)
    (execCommand cmd ≫= fun _ => Ret tt).
Proof.
  intros Hcmd. unfold execCommand, _ensureDesign.
  apply quiet_Get. intros w [p Hp]. rewrite Hp. simpl.
  repeat constructor. simpl. by apply bool_decide_eq_false_2.
Qed.

Lemma once_commands (cmds : list Command) w :
  CreateDesign ∉ cmds ->
  cmds = []
  \/ once session_started (is_command CreateDesign)
       (call_all ((fun cmd => execCommand cmd ≫= fun _ => Ret tt) <$> cmds) w).
Proof.
  induction cmds as [|cmd cmds IH] using rev_ind; [by left|].
  intros Hn. right. apply not_elem_of_app in Hn as [Hn Hcmd].
  assert (cmd <> CreateDesign) as Hc.
  { intros ->. apply Hcmd. by apply list_elem_of_singleton. }
  rewrite fmap_app. cbn [fmap list_fmap]. rewrite call_all_snoc.
  pose proof session_started_set_promise as HG1.
  pose proof session_started_record as HG2.
  destruct (IH Hn) as [->|IH'].
  - change (call_all
              ((fun cmd => execCommand cmd ≫= fun _ => Ret tt) <$> []) w)
      with (w, @nil Thread).
    destruct (_designPromise w) as [p|] eqn:Hp.
    + apply (once_call session_started (is_command CreateDesign) HG1 HG2
               (execCommand cmd ≫= fun _ => Ret tt) (w, []));
        [|by apply quiet_command].
      split; [by eexists|]. right. split; [simpl; lia|constructor].
    + unfold execCommand, _ensureDesign, _createDesign. simpl. rewrite Hp.
      simpl. split; [by eexists|]. right. simpl. split.
      * unfold sent. simpl. lia.
      * repeat constructor; simpl.
        -- by apply bool_decide_eq_false_2.
        -- destruct (ok _); constructor.
  - by apply once_call; [..|apply quiet_command].
Qed.

(** Commands of one session that overlap share one [create-design]: of any
    number of commands (other than [create-design] itself) started in one
    turn, whatever the state of the session and whatever the order in which
    the event loop resumes them, [create-design] is sent once at the most.
    The promise of the session is stored before the first command
    suspends. *)
Theorem overlapping_commands_create_one_design (cmds : list Command)
    (w : World) (schedule : list (nat * list bool)) :
  CreateDesign ∉ cmds ->
  let cfg :=
    run schedule
      (call_all ((fun cmd => execCommand cmd ≫= fun _ => Ret tt) <$> cmds) w)
  in
  sent (is_command CreateDesign) cfg.2 <= 1.
Proof.
  intros Hn. cbv zeta. destruct (once_commands cmds w Hn) as [->|H].
  - simpl. unfold call_all. simpl. rewrite run_nil. unfold sent. simpl. lia.
  - apply (once_sent session_started), once_run;
      first [ done | apply session_started_set_promise
            | apply session_started_record ].
Qed.

End Concurrent.

(** ** Runs of the scenario *)

(** The scenario of the specification, run: ["B"] is registered while ["A"]
    waits, the fonts are pushed, ["B"] is finalized, then ["A"]. *)
Example scenario_run :
  let r := exec scenario_env
             (_loadRenderingDesignArtboard 3 "A" (mkParams true None))
             scenario in
  r.1 = Returned tt
  /\ commands r.2 =
       [CreateDesign;
        LoadArtboardCmd "A" "A.json" None None;
        GetArtboardDependencies "A";
        LoadArtboardCmd "B" "B.json" (Some "sym1") None;
        GetArtboardDependencies "B";
        LoadFont "Arial" "Arial.ttf" (Some "Arial");
        FinalizeArtboard "B";
        FinalizeArtboard "A"]
  /\ isArtboardReady r.2 "A" = true
  /\ isArtboardReady r.2 "B" = true.
Proof. vm_compute. done. Qed.

(** The state the scenario ends in. *)
Definition scenario_loaded : World :=
  (exec scenario_env
     (_loadRenderingDesignArtboard 3 "A" (mkParams true None)) scenario).2.

Lemma load_of_ready_artboard_is_noop_witness :
  exec scenario_env
    (_loadRenderingDesignArtboard 1 "A" (mkParams true (Some 0)))
    scenario_loaded
  = (Returned tt, scenario_loaded).
Proof.
  apply load_of_ready_artboard_is_noop; vm_compute; reflexivity.
Defined.

(** ** The claims on concrete designs *)

(** The rendering process refuses to finalize ["B"]. *)
Definition refusing_env : Environment := fun X hist r =>
  match r in Request X return X with
  | Process (FinalizeArtboard a) =>
      if String.eqb a "B" then mkResult false None else mkResult true None
  | r => scenario_env _ hist r
  end.

(** Loading ["A"] then fails in the finalization of its dependency, and
    neither artboard is ready. *)
Example refused_finalize_run :
  let r := exec refusing_env
             (_loadRenderingDesignArtboard 3 "A" (mkParams false None))
             scenario in
  r.1 = Failed CannotMarkAsReady
  /\ isArtboardReady r.2 "A" = false
  /\ isArtboardReady r.2 "B" = false.
Proof. vm_compute. done. Qed.


(** The design of the scenario without the index entry of ["sym1"]: no
    artboard defines the component that ["A"] awaits. *)
Definition scenario_without_component : World :=
  mkWorld true true true true ∅
    (<["A" := mkArtboard None None None]>
       (<["B" := mkArtboard None None None]> ∅))
    ∅ ∅ ∅ ∅ None [].

Definition scenario_rank (a : ArtboardId) : nat :=
  if String.eqb a "A" then 1 else 0.

Example missing_component_run :
  let r := exec scenario_env
             (_loadRenderingDesignArtboard 3 "A" (mkParams true None))
             scenario_without_component in
  r.1 = Failed DependencyUnavailable
  /\ commands r.2 =
       [CreateDesign; LoadArtboardCmd "A" "A.json" None None;
        GetArtboardDependencies "A"]
  /\ isArtboardReady r.2 "A" = false.
Proof. vm_compute. done. Qed.


(** A design with a cycle: the artboard ["A"] defines the component
    ["symA"] and uses ["symB"], the artboard ["B"] defines ["symB"] and uses
    ["symA"]. *)
Definition cyclic_env : Environment := fun X hist r =>
  match r in Request X return X with
  | Process (GetArtboardDependencies a) =>
      if String.eqb a "A" then mkResult true (Some ["symB"])
      else if String.eqb a "B" then mkResult true (Some ["symA"])
      else mkResult true None
  | r => scenario_env _ hist r
  end.

Definition cyclic_design : World :=
  mkWorld true true true true ∅
    (<["A" := mkArtboard (Some "symA") None None]>
       (<["B" := mkArtboard (Some "symB") None None]> ∅))
    (<["symA" := "A"]> (<["symB" := "B"]> ∅))
    ∅ ∅ ∅ None [].

Lemma cyclic_env_cooperative (x : ArtboardId) :
  x = "A" \/ x = "B" -> cooperative cyclic_env x.
Proof.
  intros [-> | ->]; split_and!; try (intros; reflexivity);
    intros hist tok; eexists; try split; reflexivity.
Qed.

Lemma cyclic_design_on_cycle :
  on_cycle "A" "B" "symA" "symB" cyclic_design.
Proof.
  unfold on_cycle, waiting, configured.
  split_and!; try reflexivity; try (left; reflexivity);
    try (eexists; reflexivity);
    intros rx Hx; simpl in Hx; by rewrite lookup_empty in Hx.
Qed.

(** On the cyclic design no budget is enough, whatever assets are asked
    for. *)
Corollary cyclic_design_never_loads (fuel : nat) (loadAssets : bool) :
  (exec cyclic_env
     (_loadRenderingDesignArtboard fuel "A" (mkParams loadAssets None))
     cyclic_design).1 = Exhausted.
Proof.
  apply (cycle_exhausts_any_budget cyclic_env (mkParams loadAssets None)
           eq_refl "A" "B" "symA" "symB" fuel cyclic_design).
  - apply cyclic_env_cooperative. by left.
  - apply cyclic_env_cooperative. by right.
  - intros hist. by eexists.
  - intros hist. by eexists.
  - apply cyclic_design_on_cycle.
Qed.

Lemma recursion_ends_unless_components_cycle_witness :
  ((exec scenario_env
      (_loadRenderingDesignArtboard 2 "A" (mkParams true None)) scenario).1
   = Returned tt
   \/ exists e,
       (exec scenario_env
          (_loadRenderingDesignArtboard 2 "A" (mkParams true None))
          scenario).1 = Failed e)
  /\ (exec cyclic_env
        (_loadRenderingDesignArtboard 50 "A" (mkParams true None))
        cyclic_design).1 = Exhausted.
Proof.
  split.
  - apply (proj1 (recursion_ends_unless_components_cycle scenario_env
                    scenario_rank "A" "B" "symA" "symB"
                    (mkParams true None)) 2 scenario).
    + split.
      * intros a ra c b Ha. simpl in Ha. by rewrite lookup_empty in Ha.
      * intros hist a c b. simpl. destruct (String.eqb a "A") eqn:Ea; simpl.
        -- apply String.eqb_eq in Ea as ->. intros Hc Hb.
           apply list_elem_of_singleton in Hc as ->.
           vm_compute in Hb. injection Hb as <-. vm_compute. lia.
        -- intros Hc. by apply elem_of_nil in Hc.
    + split; [|done]. intros a. simpl. by rewrite lookup_empty.
    + vm_compute. lia.
  - apply (proj2 (recursion_ends_unless_components_cycle cyclic_env
                    scenario_rank "A" "B" "symA" "symB"
                    (mkParams true None)) 50 cyclic_design).
    + split_and!; try (intros; reflexivity);
        intros hist tok; eexists; try split; reflexivity.
    + split_and!; try (intros; reflexivity);
        intros hist tok; eexists; try split; reflexivity.
    + intros hist. by eexists.
    + intros hist. by eexists.
    + reflexivity.
    + unfold on_cycle, waiting, configured.
      split_and!; try reflexivity; try (left; reflexivity);
        try (eexists; reflexivity);
        intros rx Hx; simpl in Hx; by rewrite lookup_empty in Hx.
Defined.

Lemma content_promise_is_stored_once_witness :
  exists p,
    p <> Pending
    /\ (exec scenario_env (loadArtboard "A" None) scenario).1 = awaited tt p
    /\ _loadingArtboardPromises
         (exec scenario_env (loadArtboard "A" None) scenario).2 !! "A" = Some p
    /\ forall w,
         is_Some (_artboardsById w !! "A") ->
         _loadingArtboardPromises w !! "A" = Some p ->
         exec scenario_env (loadArtboard "A" (Some 0)) w = (awaited tt p, w)
         /\ (let w' := (exec scenario_env (unloadArtboard "A") w).2 in
             is_Some (_artboardsById w' !! "A")
             /\ _loadingArtboardPromises w' !! "A" = Some p
             /\ exec scenario_env (loadArtboard "A" (Some 0)) w'
                = (awaited tt p, w'))
         /\ (forall fuel x params,
               let w' :=
                 (exec scenario_env
                    (_loadRenderingDesignArtboard fuel x params) w).2
               in is_Some (_artboardsById w' !! "A")
                  /\ _loadingArtboardPromises w' !! "A" = Some p).
Proof.
  apply (content_promise_is_stored_once scenario_env "A" None (Some 0)
           scenario).
  - by eexists.
  - reflexivity.
  - reflexivity.
Defined.




(** Two loads of ["A"] that overlap.  The threads of the pool are the first
    caller (0), the content load it started (1), the second caller (2) and
    the creation of the design in the rendering process (3); a promise
    resumes its waiters in the order in which they came.  The first caller
    registers ["A"]; the second one finds it registered, with no pending
    component known yet, and finalizes it. *)
Definition overlap_start : World * Pool :=
  call_all scenario_env
    (replicate 2 (_loadRenderingDesignArtboard 2 "A" (mkParams false None)))
    scenario.

Definition overlap_schedule : list (nat * list bool) :=
  [(1, []); (1, []);     (* the content of "A" is read *)
   (0, []); (2, []);     (* both callers ask for its location *)
   (0, []);              (* the first caller registers "A" *)
   (2, []);              (* the second caller finds it registered *)
   (3, []);              (* the design is created *)
   (0, []);              (* load-artboard "A" *)
   (2, []);              (* finalize-artboard "A" *)
   (0, []); (2, [])].    (* both are answered *)

(** The rest of the first caller: the dependencies of ["A"], the load of
    ["B"], whose content is read by the thread 4, and ["A"] again. *)
Definition overlap_rest : list (nat * list bool) :=
  [(0, []); (0, []); (4, []); (4, [])] ++ replicate 12 (0, []).


(** C2.  The order of the specification is that of a load that runs
    alone.  In the scenario the registration of ["A"] reports the component
    ["sym1"] as pending, and ["B"] defines it.  When two loads of ["A"]
    overlap, the second caller finds ["A"] registered before its
    dependencies were asked for and sends [finalize-artboard] for ["A"],
    which is accepted: at that moment ["B"] is not registered with the
    rendering design, let alone ready.  ["B"] is loaded and finalized
    afterwards, by the first caller.  Run alone, the load finalizes ["B"]
    before ["A"]. *)
Theorem overlapping_load_finalizes_before_dependency :
  symbols (scenario_env _ [] (Process (GetArtboardDependencies "A")))
  = Some ["sym1"]
  /\ getArtboardByComponentId scenario "sym1" = Some "B"
  /\ (let early := run scenario_env overlap_schedule overlap_start in
      commands early.1
      = [CreateDesign; LoadArtboardCmd "A" "A.json" None None;
         FinalizeArtboard "A"]
      /\ isArtboardReady early.1 "A" = true
      /\ isArtboardLoaded early.1 "B" = false
      /\ isArtboardReady early.1 "B" = false)
  /\ (let cfg :=
        run scenario_env (overlap_schedule ++ overlap_rest) overlap_start in
      state <$> callers cfg.2 = [Done (Returned tt); Done (Returned tt)]
      /\ commands cfg.1
         = [CreateDesign; LoadArtboardCmd "A" "A.json" None None;
            FinalizeArtboard "A";
            GetArtboardDependencies "A";
            LoadArtboardCmd "B" "B.json" (Some "sym1") None;
            GetArtboardDependencies "B";
            FinalizeArtboard "B";
            FinalizeArtboard "A"])
  /\ (let r := exec scenario_env
                 (_loadRenderingDesignArtboard 2 "A" (mkParams false None))
                 scenario in
      r.1 = Returned tt
      /\ commands r.2
         = [CreateDesign; LoadArtboardCmd "A" "A.json" None None;
            GetArtboardDependencies "A";
            LoadArtboardCmd "B" "B.json" (Some "sym1") None;
            GetArtboardDependencies "B";
            FinalizeArtboard "B";
            FinalizeArtboard "A"]).
Proof. cbv zeta. split_and!; vm_compute; reflexivity. Qed.

(** C3.  A load that fails can leave its artboard ready.  The rendering
    process refuses to finalize ["B"], which defines a component of ["A"].
    Of two loads of ["A"] that overlap, the second finalizes ["A"] before
    the dependencies of ["A"] are known, and returns; the first goes on to
    load ["B"], whose finalization is refused, and is rejected with 'The
    artboard cannot be marked as ready'.  ["A"] is ready all the same, with
    a dependency that is not: the failure of the dependency did not leave
    the enclosing artboard unready.  Run alone, the load is rejected and
    leaves both artboards unready. *)
Theorem failed_overlapping_load_leaves_artboard_ready :
  (let cfg :=
     run refusing_env (overlap_schedule ++ overlap_rest)
       (call_all refusing_env
          (replicate 2
             (_loadRenderingDesignArtboard 2 "A" (mkParams false None)))
          scenario) in
   state <$> callers cfg.2
   = [Done (Failed CannotMarkAsReady); Done (Returned tt)]
   /\ commands cfg.1
      = [CreateDesign; LoadArtboardCmd "A" "A.json" None None;
         FinalizeArtboard "A";
         GetArtboardDependencies "A";
         LoadArtboardCmd "B" "B.json" (Some "sym1") None;
         GetArtboardDependencies "B";
         FinalizeArtboard "B"]
   /\ isArtboardReady cfg.1 "A" = true
   /\ isArtboardReady cfg.1 "B" = false)
  /\ (let r := exec refusing_env
                 (_loadRenderingDesignArtboard 2 "A" (mkParams false None))
                 scenario in
      r.1 = Failed CannotMarkAsReady
      /\ isArtboardReady r.2 "A" = false
      /\ isArtboardReady r.2 "B" = false).
Proof. cbv zeta. split_and!; vm_compute; reflexivity. Qed.

(** C5.  A pending component that no artboard defines does not always fail
    the load.  In the design without the index entry of ["sym1"], of two
    loads of ["A"] that overlap the second finds ["A"] registered, with no
    pending component known yet, finalizes it and returns: ["A"] is ready,
    although the component it awaits has no defining artboard.  Only the
    first caller, which asked for the dependencies, is rejected with 'A
    dependency component artboard is not available'.  Run alone, the load
    is rejected and leaves ["A"] unready. *)
Theorem overlapping_load_resolves_without_component :
  symbols (scenario_env _ [] (Process (GetArtboardDependencies "A")))
  = Some ["sym1"]
  /\ getArtboardByComponentId scenario_without_component "sym1" = None
  /\ (let cfg :=
        run scenario_env (overlap_schedule ++ overlap_rest)
          (call_all scenario_env
             (replicate 2
                (_loadRenderingDesignArtboard 2 "A" (mkParams false None)))
             scenario_without_component) in
      state <$> callers cfg.2
      = [Done (Failed DependencyUnavailable); Done (Returned tt)]
      /\ commands cfg.1
         = [CreateDesign; LoadArtboardCmd "A" "A.json" None None;
            FinalizeArtboard "A"; GetArtboardDependencies "A"]
      /\ isArtboardReady cfg.1 "A" = true)
  /\ (let r := exec scenario_env
                 (_loadRenderingDesignArtboard 2 "A" (mkParams false None))
                 scenario_without_component in
      r.1 = Failed DependencyUnavailable
      /\ isArtboardReady r.2 "A" = false).
Proof. cbv zeta. split_and!; vm_compute; reflexivity. Qed.


(** C7. Two calls of [loadImage] for one key that overlap: both find the
    key missing from the set, which is extended only after the command is
    answered, and both send [load-image].  Two calls of [loadFont] that
    overlap send one [load-font]: the name is added to the set before the
    command is sent.  Two calls of [loadImage] one after the other send one
    [load-image]. *)
Theorem overlapping_loadImage_sends_twice :
  (let cfg :=
     run scenario_env [(1, []); (0, []); (2, []); (0, []); (2, [])]
       (call_all scenario_env (replicate 2 (loadImage "img" "img.png"))
          scenario) in
   state <$> callers cfg.2 = [Done (Returned tt); Done (Returned tt)]
   /\ commands cfg.1
      = [CreateDesign; LoadImage "img" "img.png"; LoadImage "img" "img.png"])
  /\ (let cfg :=
        run scenario_env [(1, []); (0, []); (0, [])]
          (call_all scenario_env
             (replicate 2 (loadFont "Arial" "Arial.ttf" None)) scenario) in
      state <$> callers cfg.2 = [Done (Returned tt); Done (Returned tt)]
      /\ commands cfg.1 = [CreateDesign; LoadFont "Arial" "Arial.ttf" None])
  /\ (let r := exec scenario_env
                 (loadImage "img" "img.png";; loadImage "img" "img.png")
                 scenario in
      r.1 = Returned tt
      /\ commands r.2 = [CreateDesign; LoadImage "img" "img.png"]).
Proof. cbv zeta. split_and!; vm_compute; reflexivity. Qed.

(** ** Unloading, pages and the session on concrete designs *)

(** The rendering process refuses to unload. *)
Definition unload_refusing_env : Environment := fun X hist r =>
  match r in Request X return X with
  | Process (UnloadArtboardCmd _) => mkResult false None
  | r => scenario_env _ hist r
  end.

(** The rendering process refuses to create the design. *)
Definition sessionless_env : Environment := fun X hist r =>
  match r in Request X return X with
  | Process CreateDesign => mkResult false None
  | r => scenario_env _ hist r
  end.

(** The state after the load of ["A"] failed in the finalization of ["B"]:
    both artboards are registered, none is ready. *)
Definition scenario_unfinished : World :=
  (exec refusing_env
     (_loadRenderingDesignArtboard 3 "A" (mkParams false None)) scenario).2.

Example unload_run :
  let r := exec scenario_env (unloadArtboard "A") scenario_loaded in
  r.1 = Returned tt
  /\ isLoaded r.2 "A" = false
  /\ isArtboardLoaded r.2 "A" = false
  /\ isArtboardReady r.2 "B" = true
  /\ commands r.2 = commands scenario_loaded ++ [UnloadArtboardCmd "A"].
Proof. vm_compute. done. Qed.

Lemma unload_returns_only_for_ready_artboard_witness :
  let w' :=
    (exec scenario_env (RenderingDesign_unloadArtboard "A") scenario_loaded).2
  in
  isArtboardReady scenario_loaded "A" = true
  /\ _artboards w' = delete "A" (_artboards scenario_loaded)
  /\ (exists hist,
        history w' = Issued (Process (UnloadArtboardCmd "A")) :: hist
        /\ ok (scenario_env _ hist (Process (UnloadArtboardCmd "A"))) = true)
  /\ _loadedFonts w' = _loadedFonts scenario_loaded
  /\ _loadedBitmaps w' = _loadedBitmaps scenario_loaded.
Proof.
  apply (unload_returns_only_for_ready_artboard scenario_env "A"
           scenario_loaded).
  vm_compute. reflexivity.
Defined.

Lemma failed_unload_leaves_artboard_unready_witness :
  let w' :=
    (exec unload_refusing_env (RenderingDesign_unloadArtboard "A")
       scenario_loaded).2 in
  isArtboardLoaded w' "A" = true
  /\ isArtboardReady w' "A" = false
  /\ (forall x, x <> "A" -> _artboards w' !! x = _artboards scenario_loaded !! x)
  /\ exec unload_refusing_env (RenderingDesign_unloadArtboard "A") w'
     = (Failed ArtboardNotReady, w').
Proof.
  apply (failed_unload_leaves_artboard_unready unload_refusing_env "A"
           scenario_loaded).
  - vm_compute. reflexivity.
  - vm_compute. discriminate.
Defined.

Lemma unloadArtboard_drops_content_first_witness :
  let r := exec scenario_env (unloadArtboard "B") scenario_unfinished in
  isLoaded r.2 "B" = false
  /\ (_renderingDesign scenario_unfinished = false -> r.1 = Returned tt)
  /\ (_renderingDesign scenario_unfinished = true ->
      isArtboardReady scenario_unfinished "B" = false ->
      r = (Failed (if isArtboardLoaded scenario_unfinished "B"
                   then ArtboardNotReady else NoSuchArtboard),
           (exec scenario_env (setOctopus "B" None) scenario_unfinished).2)).
Proof.
  apply (unloadArtboard_drops_content_first scenario_env "B"
           scenario_unfinished).
  vm_compute. reflexivity.
Defined.

Lemma scenario_unfinished_artboards :
  _artboards scenario_unfinished
  = <["A" := mkRenderingArtboard None None false ["sym1"]]>
      (<["B" := mkRenderingArtboard (Some "sym1") None false []]> ∅).
Proof. vm_compute. reflexivity. Qed.

Lemma unloadArtboards_stops_at_unready_artboard_witness :
  let r := exec scenario_env (unloadArtboards ["A"; "B"]) scenario_unfinished in
  (r.1 = Returned tt ->
     (forall a, isArtboardLoaded scenario_unfinished a = true ->
                isArtboardReady scenario_unfinished a = true)
     /\ _artboards r.2 = ∅)
  /\ (forall a, isArtboardLoaded scenario_unfinished a = true ->
                isArtboardReady scenario_unfinished a = false ->
        r.1 <> Returned tt
        /\ isArtboardLoaded r.2 a = true
        /\ isArtboardReady r.2 a = false).
Proof.
  apply (unloadArtboards_stops_at_unready_artboard scenario_env ["A"; "B"]
           scenario_unfinished).
  - apply NoDup_cons. split; [|apply NoDup_singleton].
    intros H%list_elem_of_singleton. discriminate.
  - intros a. unfold isArtboardLoaded.
    rewrite scenario_unfinished_artboards, bool_decide_eq_true.
    rewrite !elem_of_cons, elem_of_nil.
    destruct (decide (a = "A")) as [->|Ha].
    { rewrite lookup_insert_eq. split; [eauto|by left]. }
    rewrite lookup_insert_ne by done.
    destruct (decide (a = "B")) as [->|Hb].
    { rewrite lookup_insert_eq. split; [eauto|by right; left]. }
    rewrite lookup_insert_ne, lookup_empty by done.
    split; [by intros [|[|]]|by intros []].
Defined.

Example page_run :
  let r := exec scenario_env
             (_loadRenderingDesignPage 3 ["B"; "A"] (mkParams true None))
             scenario in
  r.1 = Returned tt
  /\ commands r.2 =
       [CreateDesign;
        LoadArtboardCmd "B" "B.json" (Some "sym1") None;
        GetArtboardDependencies "B";
        LoadFont "Arial" "Arial.ttf" (Some "Arial");
        FinalizeArtboard "B";
        LoadArtboardCmd "A" "A.json" None None;
        GetArtboardDependencies "A";
        FinalizeArtboard "A"].
Proof. vm_compute. done. Qed.

Lemma page_load_leaves_every_artboard_ready_witness :
  let w' :=
    (exec scenario_env
       (_loadRenderingDesignPage 3 ["B"; "A"] (mkParams true None))
       scenario).2 in
  (forall a, a ∈ ["B"; "A"] -> isArtboardReady w' a = true)
  /\ (forall a, isArtboardReady scenario a = true -> isArtboardReady w' a = true).
Proof.
  apply (page_load_leaves_every_artboard_ready scenario_env 3 ["B"; "A"]
           (mkParams true None) scenario).
  vm_compute. reflexivity.
Defined.

Lemma rejected_session_rejects_every_command_witness :
  let w' :=
    (exec sessionless_env (execCommand (FinalizeArtboard "A")) scenario).2 in
  _designPromise w' = Some (Rejected CreateDesignFailed)
  /\ (_designPromise scenario = Some (Rejected CreateDesignFailed)
      /\ w' = scenario
      \/ _designPromise scenario = None
         /\ CreateDesignFailed = CreateDesignFailed
         /\ commands w' = commands scenario ++ [CreateDesign])
  /\ forall cmd',
       exec sessionless_env (execCommand cmd') w'
       = (Failed CreateDesignFailed, w').
Proof.
  apply (rejected_session_rejects_every_command sessionless_env
           (FinalizeArtboard "A") CreateDesignFailed scenario).
  vm_compute. reflexivity.
Defined.

Lemma rejected_session_blocks_every_load_witness :
  let w :=
    (exec sessionless_env (execCommand (FinalizeArtboard "A")) scenario).2 in
  let r := exec scenario_env
             (_loadRenderingDesignArtboard 3 "A" (mkParams true None)) w in
  _designPromise r.2 = Some (Rejected CreateDesignFailed)
  /\ commands r.2 = commands w
  /\ (forall x, isArtboardReady r.2 x = isArtboardReady w x)
  /\ (isArtboardReady w "A" = false -> r.1 <> Returned tt).
Proof.
  apply (rejected_session_blocks_every_load scenario_env 3 "A"
           (mkParams true None) CreateDesignFailed).
  vm_compute. reflexivity.
Defined.

(** The rendering process refuses fonts and bitmaps. *)
Definition asset_refusing_env : Environment := fun X hist r =>
  match r in Request X return X with
  | Process (LoadFont _ _ _) => mkResult false None
  | Process (LoadImage _ _) => mkResult false None
  | r => scenario_env _ hist r
  end.

(** The design of the scenario, with the rendering session established. *)
Definition scenario_in_session : World :=
  with_designPromise (Some Resolved) scenario.

Lemma loadFont_marks_before_sending_witness :
  let r := exec asset_refusing_env (loadFont "Arial" "Arial.ttf" None)
             scenario_in_session in
  "Arial" ∈ _loadedFonts r.2
  /\ (_designPromise scenario_in_session = Some Resolved ->
      r.1 = Returned tt
      /\ commands r.2
         = commands scenario_in_session
           ++ [LoadFont "Arial" "Arial.ttf" (or_null None)])
  /\ forall filename' facePostscriptName',
       exec asset_refusing_env
         (loadFont "Arial" filename' facePostscriptName') r.2
       = (Returned tt, r.2).
Proof.
  apply (loadFont_marks_before_sending asset_refusing_env "Arial" "Arial.ttf"
           None scenario_in_session).
  simpl. apply not_elem_of_empty.
Defined.

Lemma loadImage_marks_after_answer_witness :
  let r := exec asset_refusing_env (loadImage "img" "img.png")
             scenario_in_session in
  ("img" ∈ _loadedBitmaps r.2 <-> r.1 = Returned tt)
  /\ (_designPromise scenario_in_session = Some Resolved ->
      r.1 = Returned tt
      /\ commands r.2
         = commands scenario_in_session ++ [LoadImage "img" "img.png"]).
Proof.
  apply (loadImage_marks_after_answer asset_refusing_env "img" "img.png"
           scenario_in_session).
  simpl. apply not_elem_of_empty.
Defined.

Lemma registration_is_attempted_once_witness :
  let r := exec sessionless_env
             (RenderingDesign_loadArtboard "A" "A.json" None None) scenario in
  exists ra,
    _artboards r.2 !! "A" = Some ra
    /\ _ready ra = false
    /\ (forall x, x <> "A" -> _artboards r.2 !! x = _artboards scenario !! x)
    /\ forall file' sym' page',
         exec sessionless_env
           (RenderingDesign_loadArtboard "A" file' sym' page') r.2
         = (Returned ra, r.2).
Proof.
  apply (registration_is_attempted_once sessionless_env "A" "A.json" None None
           scenario).
  reflexivity.
Defined.


(** Two calls of [loadFont] for one name that overlap, resumed in the order
    of the event loop: [create-design] and [load-font] are sent once each,
    and both callers return. *)
Example overlapping_loadFont_run :
  let cfg :=
    run scenario_env [(1, []); (0, []); (0, [])]
      (call_all scenario_env [loadFont "Arial" "Arial.ttf" None;
                 loadFont "Arial" "Arial.otf" None] scenario) in
  commands cfg.1 = [CreateDesign; LoadFont "Arial" "Arial.ttf" None]
  /\ sent (is_load_font "Arial") cfg.2 = 1
  /\ sent (is_command CreateDesign) cfg.2 = 1
  /\ length (returned_callers cfg.2) = 2.
Proof. vm_compute. done. Qed.

Lemma overlapping_commands_create_one_design_witness :
  let cfg :=
    run scenario_env [(1, []); (0, []); (2, []); (0, []); (2, [])]
      (call_all scenario_env
         ((fun cmd => execCommand cmd ≫= fun _ => Ret tt)
            <$> [GetArtboardDependencies "A"; FinalizeArtboard "A"])
         scenario) in
  sent (is_command CreateDesign) cfg.2 <= 1.
Proof.
  apply (overlapping_commands_create_one_design scenario_env
           [GetArtboardDependencies "A"; FinalizeArtboard "A"] scenario).
  intros H. apply elem_of_cons in H as [H|H]; [discriminate|].
  apply elem_of_cons in H as [H|H]; [discriminate|].
  by apply elem_of_nil in H.
Defined.

Example overlapping_commands_run :
  let cfg :=
    run scenario_env [(1, []); (0, []); (2, []); (0, []); (2, [])]
      (call_all scenario_env
         ((fun cmd => execCommand cmd ≫= fun _ => Ret tt)
            <$> [GetArtboardDependencies "A"; FinalizeArtboard "A"])
         scenario) in
  commands cfg.1
  = [CreateDesign; GetArtboardDependencies "A"; FinalizeArtboard "A"]
  /\ length (returned_callers cfg.2) = 2.
Proof. vm_compute. done. Qed.


(** * Aggregation of asset descriptors (octopus-reader, utils/assets-utils) *)

Module AssetsUtils.

Abbreviation LayerId := string.

Record AggregatedBitmapAssetDescriptor : Type := mkBitmapAssetDescriptor {
  name : string;
  layerIds : list LayerId;
  prerendered : bool;
}.

Record AggregatedFontDescriptor : Type := mkFontDescriptor {
  fontPostScriptName : string;
  fontPostScriptNameSynthetic : bool;
  fontTypes : list string;
  fontName : option string;
  fontLayerIds : list LayerId;
}.

(** ** Arrays as sets *)

(** A JavaScript [Set] lists its values in the order of their insertion. *)
Definition set_add {X : Type} `{EqDecision X} (s : list X) (x : X) : list X :=
  if decide (x ∈ s) then s else s ++ [x].

(** Modelled from the spec: [mergeArrays] of utils/array-utils is not part
    of the sources at hand.  The aggregation is specified to union the
    arrays as sets; the model is [[...new Set([...a, ...b])]], the values of
    both arrays, each once, in the order of their first occurrence. *)
Definition mergeArrays {X : Type} `{EqDecision X} (a b : list X) : list X :=
  foldl set_add [] (a ++ b).

(** ** A [Map] in insertion order *)

Section JsMap.

Context {V : Type}.

Definition JsMap : Type := list (string * V).

Fixpoint map_get (k : string) (m : JsMap) : option V :=
  match m with
  | [] => None
  | (k', v) :: m => if decide (k' = k) then Some v else map_get k m
  end.

Definition map_has (k : string) (m : JsMap) : bool :=
  bool_decide (is_Some (map_get k m)).

(** [Map.set]: the value of a key that is present is replaced where it
    stands, a new key is added at the end. *)
Fixpoint map_set (k : string) (v : V) (m : JsMap) : JsMap :=
  match m with
  | [] => [(k, v)]
  | (k', v') :: m =>
      if decide (k' = k) then (k, v) :: m else (k', v') :: map_set k v m
  end.

(** An assignment to a field of the object stored under [k]: the map holds
    the object, not a copy, and shows the assignment. *)
Fixpoint map_assign (k : string) (v : V) (m : JsMap) : JsMap :=
  match m with
  | [] => []
  | (k', v') :: m =>
      if decide (k' = k) then (k, v) :: m else (k', v') :: map_assign k v m
  end.

Definition map_values (m : JsMap) : list V := m.*2.

End JsMap.

Arguments JsMap V : clear implicits.

(** ** The aggregation functions *)

(** [keepUniqueBitmapAssetDescriptors].  [uniqueDesc] is the object of the
    map when the name is present, and a new object that is stored after the
    assignment to its [layerIds] when it is not. *)
Definition keepUniqueBitmapAssetDescriptors
    (bitmapAssetDescs : list AggregatedBitmapAssetDescriptor)
    : list AggregatedBitmapAssetDescriptor :=
  map_values
    (foldl (fun uniqueDescs assetDesc =>
              let uniqueDesc :=
                default (mkBitmapAssetDescriptor (name assetDesc) []
                           (prerendered assetDesc))
                        (map_get (name assetDesc) uniqueDescs) in
              let uniqueDesc :=
                mkBitmapAssetDescriptor (name uniqueDesc)
                  (mergeArrays (layerIds uniqueDesc) (layerIds assetDesc))
                  (prerendered uniqueDesc) in
              if negb (map_has (name assetDesc) uniqueDescs)
              then map_set (name assetDesc) uniqueDesc uniqueDescs
              else map_assign (name assetDesc) uniqueDesc uniqueDescs)
           [] bitmapAssetDescs).

(** [keepUniqueFontDescriptors]. *)
Definition keepUniqueFontDescriptors
    (fontDescs : list AggregatedFontDescriptor)
    : list AggregatedFontDescriptor :=
  map_values
    (foldl (fun uniqueDescs assetDesc =>
              let uniqueDesc :=
                default (mkFontDescriptor (fontPostScriptName assetDesc)
                           (fontPostScriptNameSynthetic assetDesc)
                           (fontTypes assetDesc) (fontName assetDesc) [])
                        (map_get (fontPostScriptName assetDesc) uniqueDescs) in
              let uniqueDesc :=
                mkFontDescriptor (fontPostScriptName uniqueDesc)
                  (fontPostScriptNameSynthetic uniqueDesc)
                  (mergeArrays (fontTypes uniqueDesc) (fontTypes assetDesc))
                  (fontName uniqueDesc)
                  (mergeArrays (fontLayerIds uniqueDesc)
                     (fontLayerIds assetDesc)) in
              if negb (map_has (fontPostScriptName assetDesc) uniqueDescs)
              then map_set (fontPostScriptName assetDesc) uniqueDesc uniqueDescs
              else map_assign (fontPostScriptName assetDesc) uniqueDesc
                     uniqueDescs)
           [] fontDescs).

(** ** Properties of [mergeArrays] *)

Section MergeArrays.

Context {X : Type} `{EqDecision X}.
Implicit Types (a b s : list X) (x : X).

Lemma elem_of_set_add s x y : y ∈ set_add s x <-> y ∈ s \/ y = x.
Proof.
  unfold set_add. destruct (decide (x ∈ s)).
  - split; [auto|]. intros [?| ->]; done.
  - rewrite elem_of_app, list_elem_of_singleton. done.
Qed.

Lemma NoDup_set_add s x : NoDup s -> NoDup (set_add s x).
Proof.
  unfold set_add. intros Hs. destruct (decide (x ∈ s)); [done|].
  apply NoDup_app. split_and!; [done| |apply NoDup_singleton].
  intros y Hy Hy'. apply list_elem_of_singleton in Hy' as ->. done.
Qed.

Lemma elem_of_foldl_set_add a s y :
  y ∈ foldl set_add s a <-> y ∈ s \/ y ∈ a.
Proof.
  revert s. induction a as [|x a IH]; intros s; simpl.
  - rewrite elem_of_nil. tauto.
  - rewrite IH, elem_of_set_add, elem_of_cons. tauto.
Qed.

Lemma NoDup_foldl_set_add a s : NoDup s -> NoDup (foldl set_add s a).
Proof.
  revert s. induction a as [|x a IH]; intros s Hs; simpl; [done|].
  by apply IH, NoDup_set_add.
Qed.

Lemma foldl_set_add_subseteq a s : a ⊆ s -> foldl set_add s a = s.
Proof.
  induction a as [|x a IH]; intros Ha; simpl; [done|].
  unfold set_add at 2. rewrite decide_True by (apply Ha; left).
  apply IH. intros y Hy. apply Ha. by right.
Qed.

Lemma foldl_set_add_NoDup a s : NoDup (s ++ a) -> foldl set_add s a = s ++ a.
Proof.
  revert s. induction a as [|x a IH]; intros s Hs; simpl.
  - by rewrite app_nil_r.
  - unfold set_add at 2. rewrite decide_False.
    + rewrite IH; rewrite <-app_assoc; done.
    + apply NoDup_app in Hs as (_ & Hs & _). intros Hx.
      apply (Hs x Hx). left.
Qed.

(** The values of an array, each once, in the order of their first
    occurrence. *)
Fixpoint first_occurrence_order (a : list X) : list X :=
  match a with
  | [] => []
  | x :: a => x :: filter (fun y => y <> x) (first_occurrence_order a)
  end.

Lemma filter_not_elem_of_nil a : filter (fun y => y ∉ @nil X) a = a.
Proof.
  induction a as [|x a IH]; [done|].
  rewrite filter_cons_True by apply not_elem_of_nil. by rewrite IH.
Qed.

Lemma foldl_set_add_first_occurrence_order a s :
  foldl set_add s a
  = s ++ filter (fun y => y ∉ s) (first_occurrence_order a).
Proof.
  revert s. induction a as [|x a IH]; intros s; cbn [foldl].
  { by rewrite app_nil_r. }
  rewrite IH. unfold set_add. cbn [first_occurrence_order].
  destruct (decide (x ∈ s)) as [Hx|Hx].
  - rewrite filter_cons_False by (by intros ?). f_equal.
    rewrite list_filter_filter. apply list_filter_iff. intros y.
    split; [|tauto]. intros Hy. split; [done|]. by intros ->.
  - rewrite filter_cons_True by done. rewrite <- app_assoc. cbn [app].
    do 2 f_equal. rewrite list_filter_filter. apply list_filter_iff.
    intros y. rewrite not_elem_of_app, list_elem_of_singleton. tauto.
Qed.

Lemma elem_of_mergeArrays a b y : y ∈ mergeArrays a b <-> y ∈ a \/ y ∈ b.
Proof.
  unfold mergeArrays. rewrite elem_of_foldl_set_add, elem_of_nil, elem_of_app.
  tauto.
Qed.

Lemma NoDup_mergeArrays a b : NoDup (mergeArrays a b).
Proof. apply NoDup_foldl_set_add, NoDup_nil_2. Qed.

(** Nothing changes when the second array brings nothing new. *)
Lemma mergeArrays_absorb a b : NoDup a -> b ⊆ a -> mergeArrays a b = a.
Proof.
  intros Ha Hb. unfold mergeArrays. rewrite foldl_app.
  rewrite (foldl_set_add_NoDup a []) by done. simpl.
  by apply foldl_set_add_subseteq.
Qed.

Lemma mergeArrays_fixed a b :
  mergeArrays a b = a <-> NoDup a /\ b ⊆ a.
Proof.
  split.
  - intros E. split.
    + rewrite <-E. apply NoDup_mergeArrays.
    + intros y Hy. rewrite <-E. apply elem_of_mergeArrays. by right.
  - intros [Ha Hb]. by apply mergeArrays_absorb.
Qed.

Lemma mergeArrays_again a b : mergeArrays (mergeArrays a b) b = mergeArrays a b.
Proof.
  apply mergeArrays_absorb; [apply NoDup_mergeArrays|].
  intros y Hy. apply elem_of_mergeArrays. by right.
Qed.

Lemma mergeArrays_fixed_mono a b c :
  mergeArrays a b = a -> mergeArrays (mergeArrays a c) b = mergeArrays a c.
Proof.
  intros [Ha Hb]%mergeArrays_fixed.
  apply mergeArrays_absorb; [apply NoDup_mergeArrays|].
  intros y Hy. apply elem_of_mergeArrays. left. by apply Hb.
Qed.

End MergeArrays.

(** ** The map *)

Section JsMapFacts.

Context {V : Type}.
Implicit Types (m : JsMap V) (k n : string) (v : V).

Lemma map_get_set n k v m :
  map_get n (map_set k v m) = if decide (n = k) then Some v else map_get n m.
Proof.
  induction m as [|[k' v'] m IH]; simpl.
  - destruct (decide (k = n)), (decide (n = k)); congruence.
  - destruct (decide (k' = k)) as [->|Hk]; simpl.
    + destruct (decide (k = n)), (decide (n = k)); congruence.
    + destruct (decide (k' = n)) as [->|]; [|done].
      by rewrite decide_False by done.
Qed.

Lemma map_assign_set k v m :
  is_Some (map_get k m) -> map_assign k v m = map_set k v m.
Proof.
  induction m as [|[k' v'] m IH]; simpl.
  - by intros [? ?].
  - destruct (decide (k' = k)); [done|]. intros H. by rewrite IH.
Qed.

Lemma map_set_same k v m : map_get k m = Some v -> map_set k v m = m.
Proof.
  induction m as [|[k' v'] m IH]; simpl; [done|].
  destruct (decide (k' = k)) as [->|]; [congruence|].
  intros H. by rewrite IH.
Qed.

Lemma map_get_None k m : map_get k m = None <-> k ∉ m.*1.
Proof.
  induction m as [|[k' v'] m IH]; csimpl.
  - split; [intros _; apply not_elem_of_nil|done].
  - rewrite not_elem_of_cons. destruct (decide (k' = k)) as [->|].
    + split; [done|]. by intros [? _].
    + rewrite IH. split; [by split|by intros [_ ?]].
Qed.

Lemma map_set_keys k v m :
  (map_set k v m).*1 = if decide (k ∈ m.*1) then m.*1 else m.*1 ++ [k].
Proof.
  induction m as [|[k' v'] m IH]; csimpl.
  - done.
  - destruct (decide (k' = k)) as [->|Hk]; csimpl.
    + by rewrite decide_True by left.
    + rewrite IH. destruct (decide (k ∈ m.*1)).
      * by rewrite decide_True by (by right).
      * rewrite decide_False; [done|]. rewrite not_elem_of_cons. by split.
Qed.

Lemma map_get_elem k v m : map_get k m = Some v -> (k, v) ∈ m.
Proof.
  induction m as [|[k' v'] m IH]; simpl; [done|].
  destruct (decide (k' = k)) as [->|].
  - intros [= ->]. left.
  - intros H. right. by apply IH.
Qed.

Lemma elem_map_get k v m : NoDup m.*1 -> (k, v) ∈ m -> map_get k m = Some v.
Proof.
  induction m as [|[k' v'] m IH]; simpl.
  - intros _ H. by apply elem_of_nil in H.
  - intros [Hk Hm]%NoDup_cons [[= -> ->]|H]%elem_of_cons.
    + by rewrite decide_True.
    + destruct (decide (k' = k)) as [->|]; [|by apply IH].
      destruct Hk. apply list_elem_of_fmap. by exists (k, v).
Qed.

End JsMapFacts.

(** ** Aggregation in general *)

(** Both functions are one loop: the descriptors [D] are merged, by their
    key, into the aggregated descriptors [U] of a map. *)
Section Aggregate.

Context {D U : Type}.
Variables (key : D -> string) (init : D -> U) (merge : U -> D -> U).

Definition aggregate_step (uniqueDescs : JsMap U) (assetDesc : D) : JsMap U :=
  let uniqueDesc :=
    merge (default (init assetDesc) (map_get (key assetDesc) uniqueDescs))
      assetDesc in
  if negb (map_has (key assetDesc) uniqueDescs)
  then map_set (key assetDesc) uniqueDesc uniqueDescs
  else map_assign (key assetDesc) uniqueDesc uniqueDescs.

Definition aggregate (descs : list D) : list U :=
  map_values (foldl aggregate_step [] descs).

Implicit Types (m : JsMap U) (d : D) (u : U) (l : list D).

(** Assigned or stored, the merged descriptor is the value of its key. *)
Lemma aggregate_step_set m d :
  aggregate_step m d
  = map_set (key d) (merge (default (init d) (map_get (key d) m)) d) m.
Proof.
  unfold aggregate_step, map_has. cbv zeta.
  destruct (decide (is_Some (map_get (key d) m))) as [H|H].
  - rewrite bool_decide_eq_true_2 by done. simpl. by apply map_assign_set.
  - by rewrite bool_decide_eq_false_2 by done.
Qed.

Lemma map_get_aggregate_step n m d :
  map_get n (aggregate_step m d)
  = if decide (n = key d)
    then Some (merge (default (init d) (map_get n m)) d)
    else map_get n m.
Proof.
  rewrite aggregate_step_set, map_get_set.
  by destruct (decide (n = key d)) as [->|].
Qed.

(** The keys of the map are the keys of the descriptors, each added at the
    end when it is first seen. *)
Lemma keys_foldl_aggregate_step l m :
  (foldl aggregate_step m l).*1 = foldl set_add m.*1 (key <$> l).
Proof.
  revert m. induction l as [|d l IH]; intros m; csimpl; [done|].
  by rewrite IH, aggregate_step_set, map_set_keys.
Qed.

(** *** One descriptor for each key *)

Variable ukey : U -> string.
Hypothesis ukey_init : forall d, ukey (init d) = key d.
Hypothesis ukey_merge : forall u d, ukey (merge u d) = ukey u.

(** The keys of the map are distinct and are the keys of its values. *)
Definition keyed (m : JsMap U) : Prop :=
  NoDup m.*1 /\ forall k u, (k, u) ∈ m -> ukey u = k.

Lemma keyed_map_set k u m : keyed m -> ukey u = k -> keyed (map_set k u m).
Proof.
  intros [Hn Hk] Hu. split.
  - rewrite map_set_keys. destruct (decide (k ∈ m.*1)); [done|].
    apply NoDup_app. split_and!; [done| |apply NoDup_singleton].
    intros x Hx ->%list_elem_of_singleton. done.
  - intros k' u' H.
    assert (map_get k' (map_set k u m) = Some u') as E.
    { apply elem_map_get; [|done]. rewrite map_set_keys.
      destruct (decide (k ∈ m.*1)); [done|].
      apply NoDup_app. split_and!; [done| |apply NoDup_singleton].
      intros x Hx ->%list_elem_of_singleton. done. }
    rewrite map_get_set in E. destruct (decide (k' = k)) as [->|].
    + congruence.
    + by apply Hk, map_get_elem.
Qed.

Lemma keyed_aggregate_step m d : keyed m -> keyed (aggregate_step m d).
Proof.
  intros Hm. rewrite aggregate_step_set. apply keyed_map_set; [done|].
  rewrite ukey_merge. destruct (map_get (key d) m) as [u|] eqn:E; simpl.
  - by apply (proj2 Hm), map_get_elem.
  - apply ukey_init.
Qed.

Lemma keyed_foldl l m : keyed m -> keyed (foldl aggregate_step m l).
Proof.
  revert m. induction l as [|d l IH]; intros m Hm; simpl; [done|].
  by apply IH, keyed_aggregate_step.
Qed.

Lemma keyed_nil : keyed [].
Proof.
  split; [apply NoDup_nil_2|]. intros k u H. by apply elem_of_nil in H.
Qed.

Lemma keyed_values (P : U -> Prop) n m :
  keyed m ->
  (exists u, u ∈ map_values m /\ ukey u = n /\ P u)
  <-> (exists u, map_get n m = Some u /\ P u).
Proof.
  intros [Hn Hk]. unfold map_values. split.
  - intros (u & [[k u'] [-> Hin]]%list_elem_of_fmap & <- & HP). simpl in *.
    exists u'. split; [|done]. rewrite (Hk _ _ Hin). by apply elem_map_get.
  - intros (u & Hu%map_get_elem & HP). exists u. split_and!; [|by eapply Hk|done].
    apply list_elem_of_fmap. by exists (n, u).
Qed.

Lemma keyed_keys m : keyed m -> ukey <$> map_values m = m.*1.
Proof.
  intros [_ Hk]. unfold map_values.
  induction m as [|[k u] m IH]; csimpl; [done|].
  rewrite IH by (intros; apply Hk; by right).
  f_equal. apply Hk. left.
Qed.

(** The result lists the keys in the order of their first occurrence. *)
Lemma aggregate_order l :
  ukey <$> aggregate l = first_occurrence_order (key <$> l).
Proof.
  unfold aggregate. rewrite keyed_keys by apply keyed_foldl, keyed_nil.
  rewrite keys_foldl_aggregate_step, foldl_set_add_first_occurrence_order.
  csimpl. apply filter_not_elem_of_nil.
Qed.

Lemma NoDup_aggregate l : NoDup (ukey <$> aggregate l).
Proof.
  unfold aggregate. rewrite keyed_keys by apply keyed_foldl, keyed_nil.
  apply (keyed_foldl l [] keyed_nil).
Qed.

(** *** The keys *)

Lemma map_get_foldl_is_Some n l m :
  is_Some (map_get n (foldl aggregate_step m l))
  <-> is_Some (map_get n m) \/ exists d, d ∈ l /\ key d = n.
Proof.
  revert m. induction l as [|d l IH]; intros m; simpl.
  - split; [auto|]. intros [?|(d & Hd & _)]; [done|]. by apply elem_of_nil in Hd.
  - rewrite IH, map_get_aggregate_step.
    destruct (decide (n = key d)) as [->|Hn].
    + split; [|by eauto]. intros _. right. exists d. split; [left|done].
    + split.
      * intros [?|(d' & Hd' & E)]; [by left|]. right. exists d'.
        split; [by right|done].
      * intros [?|(d' & [->|Hd']%elem_of_cons & E)]; [by left|done|].
        right. by exists d'.
Qed.

(** *** The merged arrays *)

Section Union.

Context {X : Type} (f : U -> list X) (g : D -> list X).
Hypothesis f_merge : forall u d x, x ∈ f (merge u d) <-> x ∈ f u \/ x ∈ g d.
Hypothesis f_init : forall d x, x ∈ f (merge (init d) d) <-> x ∈ g d.

Lemma map_get_foldl_union n x l m :
  (exists u, map_get n (foldl aggregate_step m l) = Some u /\ x ∈ f u)
  <-> (exists u, map_get n m = Some u /\ x ∈ f u)
      \/ (exists d, d ∈ l /\ key d = n /\ x ∈ g d).
Proof.
  revert m. induction l as [|d l IH]; intros m; simpl.
  - split; [auto|]. intros [?|(d & Hd & _)]; [done|]. by apply elem_of_nil in Hd.
  - rewrite IH, map_get_aggregate_step.
    destruct (decide (n = key d)) as [->|Hn].
    + destruct (map_get (key d) m) as [u0|]; simpl.
      * split.
        -- intros [(u & [= <-] & [Hx|Hx]%f_merge)|(d' & Hd' & E & Hx)].
           ++ left. eauto.
           ++ right. exists d. split_and!; [left|done..].
           ++ right. exists d'. split_and!; [by right|done..].
        -- intros [(u & [= <-] & Hx)|(d' & [->|Hd']%elem_of_cons & E & Hx)].
           ++ left. eexists. split; [done|]. apply f_merge. by left.
           ++ left. eexists. split; [done|]. apply f_merge. by right.
           ++ right. by exists d'.
      * split.
        -- intros [(u & [= <-] & Hx%f_init)|(d' & Hd' & E & Hx)].
           ++ right. exists d. split_and!; [left|done..].
           ++ right. exists d'. split_and!; [by right|done..].
        -- intros [(u & ? & _)|(d' & [->|Hd']%elem_of_cons & E & Hx)]; [done|..].
           ++ left. eexists. split; [done|]. by apply f_init.
           ++ right. by exists d'.
    + split.
      * intros [?|(d' & Hd' & E & Hx)]; [by left|]. right. exists d'.
        split_and!; [by right|done..].
      * intros [?|(d' & [->|Hd']%elem_of_cons & E & Hx)]; [by left|done|].
        right. by exists d'.
Qed.

(** The array of a key in the result holds what the arrays of the
    descriptors of that key hold. *)
Lemma aggregate_union n x l :
  (exists u, u ∈ aggregate l /\ ukey u = n /\ x ∈ f u)
  <-> (exists d, d ∈ l /\ key d = n /\ x ∈ g d).
Proof.
  unfold aggregate. rewrite keyed_values by apply keyed_foldl, keyed_nil.
  rewrite map_get_foldl_union. split; [|auto].
  intros [(u & ? & _)|?]; done.
Qed.

End Union.

Lemma aggregate_keys n l :
  (exists u, u ∈ aggregate l /\ ukey u = n) <-> (exists d, d ∈ l /\ key d = n).
Proof.
  pose proof (keyed_values (fun _ => True) n (foldl aggregate_step [] l)
                (keyed_foldl l [] keyed_nil)) as H.
  pose proof (map_get_foldl_is_Some n l []) as H'. unfold aggregate.
  split.
  - intros (u & Hu & E).
    destruct (proj1 H) as (u' & Hu' & _); [by eauto|].
    destruct (proj1 H') as [[? ?]|?]; [by eauto|done..].
  - intros Hd. destruct (proj2 H') as [u Hu]; [by right|].
    destruct (proj2 H) as (u' & ? & ? & _); [by eauto|]. eauto.
Qed.

(** *** What the first descriptor of a key decides *)

Section First.

Context {Y : Type} (h : U -> Y).
Hypothesis h_merge : forall u d, h (merge u d) = h u.

Lemma map_get_foldl_first n u l m :
  map_get n m = Some u ->
  exists u', map_get n (foldl aggregate_step m l) = Some u' /\ h u' = h u.
Proof.
  revert m u. induction l as [|d l IH]; intros m u Hu; simpl; [by eauto|].
  destruct (decide (n = key d)) as [->|Hn].
  - destruct (IH (aggregate_step m d) (merge u d)) as (u' & Hu' & E).
    { rewrite map_get_aggregate_step, decide_True by done. by rewrite Hu. }
    exists u'. split; [done|]. by rewrite E, h_merge.
  - apply IH. by rewrite map_get_aggregate_step, decide_False.
Qed.

Lemma aggregate_first d l :
  exists u, u ∈ aggregate (d :: l) /\ ukey u = key d /\ h u = h (init d).
Proof.
  unfold aggregate. simpl.
  destruct (map_get_foldl_first (key d) (merge (init d) d) l
              (aggregate_step [] d)) as (u' & Hu' & E).
  { by rewrite map_get_aggregate_step, decide_True. }
  pose proof (keyed_foldl l _ (keyed_aggregate_step [] d keyed_nil)) as Hk.
  destruct (proj2 (keyed_values (fun u => h u = h (init d)) (key d) _ Hk))
    as (u & ? & ? & ?); [|by eauto].
  exists u'. split; [done|]. by rewrite E, h_merge.
Qed.

(** The first descriptor of a key, wherever it stands in the input. *)
Lemma aggregate_first_of_key l1 d l2 :
  (forall d', d' ∈ l1 -> key d' <> key d) ->
  exists u, u ∈ aggregate (l1 ++ d :: l2) /\ ukey u = key d
            /\ h u = h (init d).
Proof.
  intros Hl1. unfold aggregate. rewrite foldl_app. cbn [foldl].
  set (m1 := foldl aggregate_step [] l1).
  assert (keyed m1) as Hm1 by apply keyed_foldl, keyed_nil.
  assert (map_get (key d) m1 = None) as Hnone.
  { destruct (map_get (key d) m1) as [u|] eqn:E; [|done].
    destruct (proj1 (map_get_foldl_is_Some (key d) l1 []))
      as [[? [=]]|(d' & Hd' & Hk)]; [fold m1; by rewrite E|].
    by destruct (Hl1 d' Hd'). }
  destruct (map_get_foldl_first (key d) (merge (init d) d) l2
              (aggregate_step m1 d)) as (u' & Hu' & E).
  { rewrite map_get_aggregate_step, decide_True by done.
    by rewrite Hnone. }
  pose proof (keyed_foldl l2 _ (keyed_aggregate_step m1 d Hm1)) as Hk.
  destruct (proj2 (keyed_values (fun u => h u = h (init d)) (key d) _ Hk))
    as (u & ? & ? & ?); [|by eauto].
  exists u'. split; [done|]. by rewrite E, h_merge.
Qed.

End First.

(** *** Descriptors seen before *)

Hypothesis merge_again : forall u d, merge (merge u d) d = merge u d.
Hypothesis merge_fixed_mono : forall u d d',
  merge u d = u -> merge (merge u d') d = merge u d'.

(** The map holds, under the key of [d], a descriptor that merging [d]
    does not change. *)
Definition covered (m : JsMap U) (d : D) : Prop :=
  exists u, map_get (key d) m = Some u /\ merge u d = u.

Lemma covered_noop m d : covered m d -> aggregate_step m d = m.
Proof.
  intros (u & Hu & E). rewrite aggregate_step_set, Hu. simpl. rewrite E.
  by apply map_set_same.
Qed.

Lemma covered_aggregate_step m d : covered (aggregate_step m d) d.
Proof.
  eexists. rewrite map_get_aggregate_step, decide_True by done.
  split; [done|]. apply merge_again.
Qed.

Lemma covered_mono m d d' : covered m d -> covered (aggregate_step m d') d.
Proof.
  intros (u & Hu & E). unfold covered. rewrite map_get_aggregate_step.
  destruct (decide (key d = key d')) as [Hk|]; [|by eauto].
  rewrite Hu. simpl. eexists. split; [done|]. by apply merge_fixed_mono.
Qed.

Lemma covered_foldl l m d : covered m d -> covered (foldl aggregate_step m l) d.
Proof.
  revert m. induction l as [|d' l IH]; intros m H; simpl; [done|].
  by apply IH, covered_mono.
Qed.

Lemma covered_seen l m d : d ∈ l -> covered (foldl aggregate_step m l) d.
Proof.
  revert m. induction l as [|d' l IH]; intros m; simpl.
  - intros H. by apply elem_of_nil in H.
  - intros [->|H]%elem_of_cons; [|by apply IH].
    apply covered_foldl, covered_aggregate_step.
Qed.

Lemma foldl_covered l m :
  (forall d, d ∈ l -> covered m d) -> foldl aggregate_step m l = m.
Proof.
  induction l as [|d l IH]; intros H; simpl; [done|].
  rewrite covered_noop by (apply H; left). apply IH. intros d' Hd'.
  apply H. by right.
Qed.

(** Descriptors that were all seen before add nothing. *)
Lemma aggregate_seen l l' :
  (forall d, d ∈ l' -> d ∈ l) -> aggregate (l ++ l') = aggregate l.
Proof.
  intros H. unfold aggregate. rewrite foldl_app. f_equal.
  apply foldl_covered. intros d Hd. by apply covered_seen, H.
Qed.

End Aggregate.

(** ** The two aggregations *)

Definition bitmap_init (d : AggregatedBitmapAssetDescriptor)
    : AggregatedBitmapAssetDescriptor :=
  mkBitmapAssetDescriptor (name d) [] (prerendered d).

Definition bitmap_merge (u d : AggregatedBitmapAssetDescriptor)
    : AggregatedBitmapAssetDescriptor :=
  mkBitmapAssetDescriptor (name u) (mergeArrays (layerIds u) (layerIds d))
    (prerendered u).

Lemma keepUniqueBitmapAssetDescriptors_aggregate l :
  keepUniqueBitmapAssetDescriptors l
  = aggregate name bitmap_init bitmap_merge l.
Proof. reflexivity. Qed.

Definition font_init (d : AggregatedFontDescriptor) : AggregatedFontDescriptor :=
  mkFontDescriptor (fontPostScriptName d) (fontPostScriptNameSynthetic d)
    (fontTypes d) (fontName d) [].

Definition font_merge (u d : AggregatedFontDescriptor)
    : AggregatedFontDescriptor :=
  mkFontDescriptor (fontPostScriptName u) (fontPostScriptNameSynthetic u)
    (mergeArrays (fontTypes u) (fontTypes d)) (fontName u)
    (mergeArrays (fontLayerIds u) (fontLayerIds d)).

Lemma keepUniqueFontDescriptors_aggregate l :
  keepUniqueFontDescriptors l
  = aggregate fontPostScriptName font_init font_merge l.
Proof. reflexivity. Qed.

(** Two lists of bitmap asset descriptors name the same assets and give
    each name the same layers. *)
Definition same_bitmap_assets
    (r r' : list AggregatedBitmapAssetDescriptor) : Prop :=
  forall n,
    ((exists u, u ∈ r /\ name u = n) <-> (exists u', u' ∈ r' /\ name u' = n))
    /\ forall x,
         (exists u, u ∈ r /\ name u = n /\ x ∈ layerIds u)
         <-> (exists u', u' ∈ r' /\ name u' = n /\ x ∈ layerIds u').

(** Two lists of font descriptors name the same fonts and give each name
    the same font types and the same layers. *)
Definition same_fonts (r r' : list AggregatedFontDescriptor) : Prop :=
  forall n,
    ((exists u, u ∈ r /\ fontPostScriptName u = n)
     <-> (exists u', u' ∈ r' /\ fontPostScriptName u' = n))
    /\ (forall x,
          (exists u, u ∈ r /\ fontPostScriptName u = n /\ x ∈ fontTypes u)
          <-> (exists u', u' ∈ r' /\ fontPostScriptName u' = n
                          /\ x ∈ fontTypes u'))
    /\ (forall x,
          (exists u, u ∈ r /\ fontPostScriptName u = n /\ x ∈ fontLayerIds u)
          <-> (exists u', u' ∈ r' /\ fontPostScriptName u' = n
                          /\ x ∈ fontLayerIds u')).

#[local] Instance same_bitmap_assets_equiv : Equivalence same_bitmap_assets.
Proof.
  split.
  - intros r n. done.
  - intros r r' H n. destruct (H n) as [H1 H2]. split; [done|].
    intros x. by rewrite H2.
  - intros r1 r2 r3 H H' n. destruct (H n) as [H1 H2], (H' n) as [H1' H2'].
    split; [by rewrite H1|]. intros x. by rewrite H2.
Qed.

#[local] Instance same_fonts_equiv : Equivalence same_fonts.
Proof.
  split.
  - intros r n. done.
  - intros r r' H n. destruct (H n) as (H1 & H2 & H3). split_and!; [done|..];
      intros x; [by rewrite H2|by rewrite H3].
  - intros r1 r2 r3 H H' n.
    destruct (H n) as (H1 & H2 & H3), (H' n) as (H1' & H2' & H3').
    split_and!; [by rewrite H1|..]; intros x; [by rewrite H2|by rewrite H3].
Qed.

Lemma same_bitmap_assets_Permutation l l' :
  l ≡ₚ l' -> same_bitmap_assets l l'.
Proof.
  intros H n. split; [|intros x]; split; intros (u & Hu & ?); exists u;
    (split; [|done]); first [by rewrite <-H | by rewrite H].
Qed.

Lemma same_fonts_Permutation l l' : l ≡ₚ l' -> same_fonts l l'.
Proof.
  intros H n. split_and!; [|intros x..]; split; intros (u & Hu & ?); exists u;
    (split; [|done]); first [by rewrite <-H | by rewrite H].
Qed.

Lemma same_bitmap_assets_keepUnique l :
  same_bitmap_assets (keepUniqueBitmapAssetDescriptors l) l.
Proof.
  intros n. rewrite keepUniqueBitmapAssetDescriptors_aggregate. split.
  - by apply (aggregate_keys name bitmap_init bitmap_merge name).
  - intros x.
    apply (aggregate_union name bitmap_init bitmap_merge name
             (ltac:(done)) (ltac:(done)) layerIds layerIds).
    + intros u d y. apply elem_of_mergeArrays.
    + intros d y. simpl. rewrite elem_of_mergeArrays, elem_of_nil. tauto.
Qed.

Lemma same_fonts_keepUnique l : same_fonts (keepUniqueFontDescriptors l) l.
Proof.
  intros n. rewrite keepUniqueFontDescriptors_aggregate. split_and!.
  - by apply (aggregate_keys fontPostScriptName font_init font_merge
                fontPostScriptName).
  - intros x.
    apply (aggregate_union fontPostScriptName font_init font_merge
             fontPostScriptName (ltac:(done)) (ltac:(done))
             fontTypes fontTypes).
    + intros u d y. apply elem_of_mergeArrays.
    + intros d y. simpl. rewrite elem_of_mergeArrays. tauto.
  - intros x.
    apply (aggregate_union fontPostScriptName font_init font_merge
             fontPostScriptName (ltac:(done)) (ltac:(done))
             fontLayerIds fontLayerIds).
    + intros u d y. apply elem_of_mergeArrays.
    + intros d y. simpl. rewrite elem_of_mergeArrays, elem_of_nil. tauto.
Qed.

Lemma bitmap_merge_again u d :
  bitmap_merge (bitmap_merge u d) d = bitmap_merge u d.
Proof. unfold bitmap_merge. simpl. by rewrite mergeArrays_again. Qed.

Lemma bitmap_merge_fixed_mono u d d' :
  bitmap_merge u d = u ->
  bitmap_merge (bitmap_merge u d') d = bitmap_merge u d'.
Proof.
  unfold bitmap_merge. destruct u as [n ids p]. simpl. intros [= E].
  by rewrite mergeArrays_fixed_mono.
Qed.

Lemma font_merge_again u d : font_merge (font_merge u d) d = font_merge u d.
Proof. unfold font_merge. simpl. by rewrite !mergeArrays_again. Qed.

Lemma font_merge_fixed_mono u d d' :
  font_merge u d = u -> font_merge (font_merge u d') d = font_merge u d'.
Proof.
  unfold font_merge. destruct u as [n s ts fn ids]. simpl. intros [= E1 E2].
  by rewrite !mergeArrays_fixed_mono.
Qed.

(** C8 (amended).  Each function keeps one descriptor for each name, in
    the order in which the names first occur in the input, and gives each
    name, as a set, the layers (and the font types) of the descriptors of
    that name.  Descriptors that were seen before add nothing: the input
    followed by a copy of itself gives the very same result.  The other
    fields of a descriptor of the result are those of the first descriptor
    of its name, wherever it stands in the input; a permutation of the
    input gives the same names with the same sets of layers and font types,
    and nothing more: the order of the result and of its arrays, and the
    fields decided by the first descriptor, follow the input. *)
Theorem aggregation_unions_per_name_in_input_order :
  (forall l : list AggregatedBitmapAssetDescriptor,
     NoDup (name <$> keepUniqueBitmapAssetDescriptors l)
     /\ name <$> keepUniqueBitmapAssetDescriptors l
        = first_occurrence_order (name <$> l)
     /\ same_bitmap_assets (keepUniqueBitmapAssetDescriptors l) l
     /\ (forall l', (forall d, d ∈ l' -> d ∈ l) ->
           keepUniqueBitmapAssetDescriptors (l ++ l')
           = keepUniqueBitmapAssetDescriptors l)
     /\ keepUniqueBitmapAssetDescriptors (l ++ l)
        = keepUniqueBitmapAssetDescriptors l
     /\ (forall l1 d l2,
           l = l1 ++ d :: l2 -> (forall d', d' ∈ l1 -> name d' <> name d) ->
           exists u, u ∈ keepUniqueBitmapAssetDescriptors l
                     /\ name u = name d /\ prerendered u = prerendered d)
     /\ (forall l', l ≡ₚ l' ->
           same_bitmap_assets (keepUniqueBitmapAssetDescriptors l)
             (keepUniqueBitmapAssetDescriptors l')))
  /\ (forall l : list AggregatedFontDescriptor,
        NoDup (fontPostScriptName <$> keepUniqueFontDescriptors l)
        /\ fontPostScriptName <$> keepUniqueFontDescriptors l
           = first_occurrence_order (fontPostScriptName <$> l)
        /\ same_fonts (keepUniqueFontDescriptors l) l
        /\ (forall l', (forall d, d ∈ l' -> d ∈ l) ->
              keepUniqueFontDescriptors (l ++ l') = keepUniqueFontDescriptors l)
        /\ keepUniqueFontDescriptors (l ++ l) = keepUniqueFontDescriptors l
        /\ (forall l1 d l2,
              l = l1 ++ d :: l2 ->
              (forall d', d' ∈ l1 ->
                 fontPostScriptName d' <> fontPostScriptName d) ->
              exists u, u ∈ keepUniqueFontDescriptors l
                        /\ fontPostScriptName u = fontPostScriptName d
                        /\ fontName u = fontName d
                        /\ fontPostScriptNameSynthetic u
                           = fontPostScriptNameSynthetic d)
        /\ (forall l', l ≡ₚ l' ->
              same_fonts (keepUniqueFontDescriptors l)
                (keepUniqueFontDescriptors l'))).
Proof.
  split; intros l.
  - assert (forall l', (forall d, d ∈ l' -> d ∈ l) ->
              keepUniqueBitmapAssetDescriptors (l ++ l')
              = keepUniqueBitmapAssetDescriptors l) as Hseen.
    { intros l' H.
      rewrite (keepUniqueBitmapAssetDescriptors_aggregate (l ++ l')),
        (keepUniqueBitmapAssetDescriptors_aggregate l).
      apply aggregate_seen;
        [apply bitmap_merge_again | apply bitmap_merge_fixed_mono | done]. }
    split_and!.
    + rewrite keepUniqueBitmapAssetDescriptors_aggregate.
      by apply NoDup_aggregate.
    + rewrite keepUniqueBitmapAssetDescriptors_aggregate.
      by apply aggregate_order.
    + apply same_bitmap_assets_keepUnique.
    + exact Hseen.
    + by apply Hseen.
    + intros l1 d l2 -> Hl1.
      rewrite keepUniqueBitmapAssetDescriptors_aggregate.
      by apply (aggregate_first_of_key name bitmap_init bitmap_merge name
                  (ltac:(done)) (ltac:(done)) prerendered).
    + intros l' H. rewrite (same_bitmap_assets_keepUnique l).
      rewrite (same_bitmap_assets_keepUnique l').
      by apply same_bitmap_assets_Permutation.
  - assert (forall l', (forall d, d ∈ l' -> d ∈ l) ->
              keepUniqueFontDescriptors (l ++ l')
              = keepUniqueFontDescriptors l) as Hseen.
    { intros l' H.
      rewrite (keepUniqueFontDescriptors_aggregate (l ++ l')),
        (keepUniqueFontDescriptors_aggregate l).
      apply aggregate_seen;
        [apply font_merge_again | apply font_merge_fixed_mono | done]. }
    split_and!.
    + rewrite keepUniqueFontDescriptors_aggregate. by apply NoDup_aggregate.
    + rewrite keepUniqueFontDescriptors_aggregate. by apply aggregate_order.
    + apply same_fonts_keepUnique.
    + exact Hseen.
    + by apply Hseen.
    + intros l1 d l2 -> Hl1. rewrite keepUniqueFontDescriptors_aggregate.
      destruct (aggregate_first_of_key fontPostScriptName font_init
                  font_merge fontPostScriptName (ltac:(done)) (ltac:(done))
                  (fun u => (fontName u, fontPostScriptNameSynthetic u))
                  (ltac:(done)) l1 d l2 Hl1) as (u & Hu & Hk & [= H1 H2]).
      by exists u.
    + intros l' H. rewrite (same_fonts_keepUnique l).
      rewrite (same_fonts_keepUnique l').
      by apply same_fonts_Permutation.
Qed.

(** The result depends on the order of the input.  Two descriptors of one
    bitmap, one of them prerendered: whichever comes first decides the flag
    of the result and the order of its layers.  Two fonts: the result lists
    them in the order of the input. *)
Lemma aggregation_depends_on_input_order :
  [mkBitmapAssetDescriptor "img" ["1"] true;
   mkBitmapAssetDescriptor "img" ["2"] false]
  ≡ₚ [mkBitmapAssetDescriptor "img" ["2"] false;
      mkBitmapAssetDescriptor "img" ["1"] true]
  /\ keepUniqueBitmapAssetDescriptors
       [mkBitmapAssetDescriptor "img" ["1"] true;
        mkBitmapAssetDescriptor "img" ["2"] false]
     = [mkBitmapAssetDescriptor "img" ["1"; "2"] true]
  /\ keepUniqueBitmapAssetDescriptors
       [mkBitmapAssetDescriptor "img" ["2"] false;
        mkBitmapAssetDescriptor "img" ["1"] true]
     = [mkBitmapAssetDescriptor "img" ["2"; "1"] false]
  /\ keepUniqueFontDescriptors
       [mkFontDescriptor "Arial" false ["regular"] (Some "Arial") ["1"];
        mkFontDescriptor "Inter" false ["regular"] None ["2"]]
     = [mkFontDescriptor "Arial" false ["regular"] (Some "Arial") ["1"];
        mkFontDescriptor "Inter" false ["regular"] None ["2"]]
  /\ keepUniqueFontDescriptors
       [mkFontDescriptor "Inter" false ["regular"] None ["2"];
        mkFontDescriptor "Arial" false ["regular"] (Some "Arial") ["1"]]
     = [mkFontDescriptor "Inter" false ["regular"] None ["2"];
        mkFontDescriptor "Arial" false ["regular"] (Some "Arial") ["1"]].
Proof.
  split_and!; [apply Permutation_swap|vm_compute; reflexivity..].
Qed.

Lemma aggregation_unions_per_name_in_input_order_witness :
  same_bitmap_assets
    (keepUniqueBitmapAssetDescriptors
       [mkBitmapAssetDescriptor "img" ["1"] true;
        mkBitmapAssetDescriptor "img" ["2"] false])
    (keepUniqueBitmapAssetDescriptors
       [mkBitmapAssetDescriptor "img" ["2"] false;
        mkBitmapAssetDescriptor "img" ["1"] true])
  /\ keepUniqueBitmapAssetDescriptors
       ([mkBitmapAssetDescriptor "img" ["1"] true;
         mkBitmapAssetDescriptor "img" ["2"] false]
        ++ [mkBitmapAssetDescriptor "img" ["2"] false])
     = keepUniqueBitmapAssetDescriptors
         [mkBitmapAssetDescriptor "img" ["1"] true;
          mkBitmapAssetDescriptor "img" ["2"] false]
  /\ same_fonts
       (keepUniqueFontDescriptors
          [mkFontDescriptor "Arial" false ["regular"] (Some "Arial") ["1"];
           mkFontDescriptor "Inter" false ["regular"] None ["2"]])
       (keepUniqueFontDescriptors
          [mkFontDescriptor "Inter" false ["regular"] None ["2"];
           mkFontDescriptor "Arial" false ["regular"] (Some "Arial") ["1"]]).
Proof.
  destruct aggregation_unions_per_name_in_input_order as [Hb Hf].
  destruct (Hb [mkBitmapAssetDescriptor "img" ["1"] true;
                mkBitmapAssetDescriptor "img" ["2"] false])
    as (_ & _ & _ & Hseen & _ & _ & Hperm).
  destruct (Hf [mkFontDescriptor "Arial" false ["regular"] (Some "Arial") ["1"];
                mkFontDescriptor "Inter" false ["regular"] None ["2"]])
    as (_ & _ & _ & _ & _ & _ & Hperm').
  split_and!.
  - apply Hperm, Permutation_swap.
  - apply Hseen. intros d Hd. apply list_elem_of_singleton in Hd as ->.
    right. left.
  - apply Hperm', Permutation_swap.
Defined.

End AssetsUtils.

(** * The fonts of a text layer (octopus-reader, layer-info/text)

    [Text.getFonts] collects the fonts of the styles of a text layer, one
    descriptor per postScript name.  These descriptors are what the layers
    hand to the aggregation of [AssetsUtils]. *)

Module Text.

(** The octopus of a text, as far as [getFonts] reads it: the font of a
    style, with the four keys that are looked at, each of which may be
    missing. *)
Record Font : Type := mkFont {
  postScriptName : option string;
  name : option string;
  type : option string;
  syntheticPostScriptName : option bool;
}.

Record Style : Type := mkStyle {
  font : option Font;
}.

Record Octopus : Type := mkOctopus {
  defaultStyle : option Style;
  styles : option (list Style);
}.

(** [TextFontDescriptor] *)
Record TextFontDescriptor : Type := mkTextFontDescriptor {
  fontPostScriptName : string;
  fontPostScriptNameSynthetic : bool;
  fontName : option string;
  fontTypes : list string;
}.

(** The objects of [fontDescsByPostScriptName]: [name], [types] (a [Set],
    which lists its values in the order of their insertion) and
    [postScriptNameSynthetic]. *)
Record FontDesc : Type := mkFontDesc {
  name' : option string;
  types : list string;
  postScriptNameSynthetic : bool;
}.

(** [Boolean(value)] of an optional boolean *)
Definition Boolean (value : option bool) : bool := default false value.

(** ** An object used as a map *)

(** [fontDescsByPostScriptName] is a plain object.  Its own keys are kept in
    a [JsMap]; a property that it inherits has no [types], so that a lookup
    of [types] sees the own keys only. *)

(** [o[key] = value].  ['__proto__'] is no key of the object: the
    assignment sets the prototype of the object, and the object does not
    list it among its keys. *)
Definition set_property {V : Type} (key : string) (value : V)
    (o : AssetsUtils.JsMap V) : AssetsUtils.JsMap V :=
  if decide (key = "__proto__") then o else AssetsUtils.map_set key value o.

Definition digit (c : Ascii.ascii) : option N :=
  let n := Ascii.N_of_ascii c in
  if decide (48 <= n <= 57)%N then Some (n - 48)%N else None.

Fixpoint number (acc : N) (s : string) : option N :=
  match s with
  | EmptyString => Some acc
  | String c s => d ← digit c; number (10 * acc + d)%N s
  end.

(** An array index: the decimal numeral, without leading zeros, of an
    integer below [2^32 - 1]. *)
Definition array_index (key : string) : option N :=
  if decide (key = "0") then Some 0%N
  else if decide (key = "") then None
  else if String.prefix "0" key then None
  else n ← number 0 key; if decide (n < 2 ^ 32 - 1)%N then Some n else None.

Definition index_le (a b : string) : Prop :=
  (default 0 (array_index a) <= default 0 (array_index b))%N.

#[global] Instance index_le_dec : RelDecision index_le.
Proof. intros a b. unfold index_le. apply _. Defined.

(** [Object.keys(o)]: the keys that are array indexes in ascending order,
    then the other keys in the order of their creation. *)
Definition Object_keys {V : Type} (o : AssetsUtils.JsMap V) : list string :=
  merge_sort index_le (filter (fun key => is_Some (array_index key)) o.*1)
  ++ filter (fun key => ~ is_Some (array_index key)) o.*1.

(** ** [getFonts] *)

(** The callback of [styles.forEach]. *)
Definition addStyle (fontDescsByPostScriptName : AssetsUtils.JsMap FontDesc)
    (style : option Style) : AssetsUtils.JsMap FontDesc :=
  let font := style ≫= font in
  let postScriptName := font ≫= postScriptName in
  match font, or_null postScriptName with
  | Some font, Some postScriptName =>
      let types :=
        default []
          (types <$> AssetsUtils.map_get postScriptName
                       fontDescsByPostScriptName) in
      let types := AssetsUtils.set_add types (default "" (type font)) in
      set_property postScriptName
        (mkFontDesc (or_null (name font)) types
           (Boolean (syntheticPostScriptName font)))
        fontDescsByPostScriptName
  | _, _ => fontDescsByPostScriptName
  end.

(** [getFonts] of the text with the given octopus.  The result is memoized;
    the octopus is read only, so that every call gives this list. *)
Definition getFonts (octopus : Octopus) : list TextFontDescriptor :=
  let styles :=
    defaultStyle octopus :: (Some <$> default [] (styles octopus)) in
  let fontDescsByPostScriptName := foldl addStyle [] styles in
  (fun fontPostScriptName =>
     let fontDesc :=
       default (mkFontDesc None [] false)
         (AssetsUtils.map_get fontPostScriptName fontDescsByPostScriptName) in
     mkTextFontDescriptor fontPostScriptName
       (postScriptNameSynthetic fontDesc) (name' fontDesc) (types fontDesc))
  <$> Object_keys fontDescsByPostScriptName.

(** ** Properties *)

(** The fonts of the styles, the default style first. *)
Definition fonts (octopus : Octopus) : list Font :=
  omap (fun style => style ≫= font)
    (defaultStyle octopus :: (Some <$> default [] (styles octopus))).

(** The font is listed under the name: its postScript name, when it is
    neither missing or empty nor ['__proto__']. *)
Definition listed (f : Font) : option string :=
  n ← or_null (postScriptName f);
  if decide (n = "__proto__") then None else Some n.

Definition uses (n : string) (f : Font) : Prop := listed f = Some n.

#[global] Instance uses_dec n f : Decision (uses n f).
Proof. unfold uses. apply _. Defined.

(** The values of an array, each once, in the order of their first
    occurrence. *)
Definition first_occurrences (l : list string) : list string :=
  foldl AssetsUtils.set_add [] l.

(** What the object holds under a name, given the fonts that use it. *)
Definition described (used : list Font) : option FontDesc :=
  f ← last used;
  Some (mkFontDesc (or_null (name f))
          (first_occurrences ((fun f => default "" (type f)) <$> used))
          (Boolean (syntheticPostScriptName f))).

Lemma addStyle_listed m style :
  addStyle m style
  = match style ≫= font with
    | Some f =>
        match listed f with
        | Some n =>
            AssetsUtils.map_set n
              (mkFontDesc (or_null (name f))
                 (AssetsUtils.set_add
                    (default [] (types <$> AssetsUtils.map_get n m))
                    (default "" (type f)))
                 (Boolean (syntheticPostScriptName f))) m
        | None => m
        end
    | None => m
    end.
Proof.
  unfold addStyle, listed, set_property.
  destruct (style ≫= font) as [f|]; [|done]. simpl.
  destruct (or_null (postScriptName f)) as [n|]; [|done]. simpl.
  by destruct (decide (n = "__proto__")).
Qed.

Lemma omap_cons {A B : Type} (f : A -> option B) (x : A) (l : list A) :
  omap f (x :: l)
  = match f x with Some y => y :: omap f l | None => omap f l end.
Proof. done. Qed.

Lemma keys_foldl_addStyle sts m :
  (foldl addStyle m sts).*1
  = foldl AssetsUtils.set_add m.*1
      (omap listed (omap (fun style => style ≫= font) sts)).
Proof.
  revert m. induction sts as [|style sts IH]; intros m; [done|].
  cbn [foldl]. rewrite IH, addStyle_listed, (omap_cons _ style).
  destruct (style ≫= font) as [f|]; [|done].
  rewrite (omap_cons _ f). destruct (listed f) as [n|]; [|done].
  cbn [foldl]. by rewrite AssetsUtils.map_set_keys.
Qed.

Lemma get_foldl_addStyle n sts :
  AssetsUtils.map_get n (foldl addStyle [] sts)
  = described (filter (uses n) (omap (fun style => style ≫= font) sts)).
Proof.
  induction sts as [|style sts IH] using rev_ind; [done|].
  rewrite foldl_app, omap_app, filter_app. cbn [foldl].
  rewrite addStyle_listed, (omap_cons _ style).
  change (omap _ []) with (@nil Font).
  destruct (style ≫= font) as [f|]; [|by rewrite filter_nil, app_nil_r].
  destruct (listed f) as [p|] eqn:Ep.
  2:{ rewrite filter_cons_False, filter_nil, app_nil_r; [done|].
      unfold uses. congruence. }
  rewrite AssetsUtils.map_get_set.
  destruct (decide (n = p)) as [->|Hn].
  - rewrite filter_cons_True by done. rewrite filter_nil.
    rewrite IH. unfold described at 2. rewrite last_snoc. simpl.
    unfold first_occurrences. rewrite fmap_app, foldl_app. simpl.
    do 3 f_equal. unfold described.
    destruct (last _) eqn:El; [done|]. apply last_None in El.
    by rewrite El.
  - rewrite filter_cons_False, filter_nil, app_nil_r; [done|].
    unfold uses. congruence.
Qed.

Lemma Object_keys_Permutation {V : Type} (o : AssetsUtils.JsMap V) :
  Object_keys o ≡ₚ o.*1.
Proof.
  unfold Object_keys. rewrite merge_sort_Permutation.
  apply filter_app_complement.
Qed.

Lemma index_le_total : Total index_le.
Proof. intros a b. unfold index_le. lia. Qed.

(** Without a key that is an array index, the keys are listed in the order
    of their creation. *)
Lemma Object_keys_no_index {V : Type} (o : AssetsUtils.JsMap V) :
  (forall key, key ∈ o.*1 -> array_index key = None) ->
  Object_keys o = o.*1.
Proof.
  intros H. unfold Object_keys.
  assert (filter (fun key => is_Some (array_index key)) o.*1 = []) as ->.
  { induction (o.*1) as [|k l IH]; [done|].
    rewrite filter_cons_False.
    - apply IH. intros key Hk. apply H. by right.
    - rewrite (H k) by left. by intros [? ?]. }
  simpl. induction (o.*1) as [|k l IH]; [done|].
  rewrite filter_cons_True.
  - f_equal. apply IH. intros key Hk. apply H. by right.
  - rewrite (H k) by left. by intros [? ?].
Qed.

Lemma names_getFonts octopus :
  fontPostScriptName <$> getFonts octopus
  = Object_keys
      (foldl addStyle []
         (defaultStyle octopus :: (Some <$> default [] (styles octopus)))).
Proof.
  unfold getFonts. cbv zeta. rewrite <- list_fmap_compose.
  rewrite <- (list_fmap_id (Object_keys _)) at 2.
  by apply list_fmap_ext.
Qed.

Lemma keys_fonts octopus :
  (foldl addStyle []
     (defaultStyle octopus :: (Some <$> default [] (styles octopus)))).*1
  = first_occurrences (omap listed (fonts octopus)).
Proof. by rewrite keys_foldl_addStyle. Qed.

(** [getFonts] lists every font of the styles once: no two descriptors have
    the same postScript name, and a name is listed exactly when a style
    (the default style or another) has a font of this postScript name.
    Fonts without a postScript name, or with an empty one, are left out,
    and so is a font whose postScript name is ['__proto__']. *)
Theorem getFonts_lists_each_font_once (octopus : Octopus) :
  NoDup (fontPostScriptName <$> getFonts octopus)
  /\ forall n,
       n ∈ fontPostScriptName <$> getFonts octopus
       <-> n <> "" /\ n <> "__proto__"
           /\ exists f, f ∈ fonts octopus /\ postScriptName f = Some n.
Proof.
  rewrite names_getFonts. split.
  - rewrite Object_keys_Permutation, keys_fonts.
    apply AssetsUtils.NoDup_foldl_set_add, NoDup_nil_2.
  - intros n. rewrite Object_keys_Permutation, keys_fonts.
    unfold first_occurrences. rewrite AssetsUtils.elem_of_foldl_set_add.
    rewrite elem_of_nil, list_elem_of_omap. split.
    + intros [[]|(f & Hf & Hl)]. unfold listed in Hl.
      apply bind_Some in Hl as (p & Hp & Hl).
      destruct (decide (p = "__proto__")); [done|]. simplify_eq.
      destruct (postScriptName f) as [[|c s]|] eqn:E; simplify_eq/=.
      split_and!; [done..|]. by exists f.
    + intros (Hn & Hp & f & Hf & E). right. exists f. split; [done|].
      unfold listed. rewrite E. destruct n; [done|]. simpl.
      by rewrite decide_False.
Qed.

(** A font that several styles use is described from all of them.  The
    types of its descriptor are the types of all these styles (the empty
    string for a style without a type), each once; its name and its
    synthetic flag are those of the last such style, whatever the ones
    before said. *)
Theorem getFonts_types_of_all_styles_name_of_last (octopus : Octopus)
    (d : TextFontDescriptor) :
  d ∈ getFonts octopus ->
  let used :=
    filter (fun f => postScriptName f = Some (fontPostScriptName d))
      (fonts octopus) in
  NoDup (fontTypes d)
  /\ (forall ty, ty ∈ fontTypes d
                 <-> exists f, f ∈ used /\ default "" (type f) = ty)
  /\ exists f, last used = Some f
       /\ fontName d = or_null (name f)
       /\ fontPostScriptNameSynthetic d
          = Boolean (syntheticPostScriptName f).
Proof.
  intros Hd. cbv zeta.
  assert (fontPostScriptName d ∈ fontPostScriptName <$> getFonts octopus)
    as Hn by (apply list_elem_of_fmap; by exists d).
  rewrite names_getFonts, Object_keys_Permutation in Hn.
  unfold getFonts in Hd. cbv zeta in Hd.
  apply list_elem_of_fmap in Hd as (n & -> & _). cbn [fontPostScriptName] in *.
  assert (n <> "" /\ n <> "__proto__") as [Hn1 Hn2].
  { rewrite keys_fonts in Hn. unfold first_occurrences in Hn.
    apply AssetsUtils.elem_of_foldl_set_add in Hn as [[]%elem_of_nil|Hn].
    apply list_elem_of_omap in Hn as (f & _ & Hl). unfold listed in Hl.
    apply bind_Some in Hl as (p & Hp & Hl).
    destruct (decide (p = "__proto__")); [done|]. simplify_eq.
    split; [|done]. intros ->.
    by destruct (postScriptName f) as [[|c s]|]. }
  assert (filter (fun f => postScriptName f = Some n) (fonts octopus)
          = filter (uses n) (fonts octopus)) as ->.
  { apply list_filter_iff. intros f. unfold uses, listed. split.
    - intros ->. destruct n; [done|]. simpl. by rewrite decide_False.
    - intros H. apply bind_Some in H as (p & Hp & H).
      destruct (decide (p = "__proto__")); [done|]. simplify_eq.
      by destruct (postScriptName f) as [[|c s]|]; simplify_eq/=. }
  assert (AssetsUtils.map_get n
            (foldl addStyle []
               (defaultStyle octopus :: (Some <$> default [] (styles octopus))))
          <> None) as Hg.
  { rewrite AssetsUtils.map_get_None. by intros H. }
  rewrite get_foldl_addStyle in Hg |- *. fold (fonts octopus) in Hg |- *.
  unfold described in *.
  destruct (last (filter (uses n) (fonts octopus))) as [f|]; [|done].
  simpl. split_and!.
  - apply AssetsUtils.NoDup_foldl_set_add, NoDup_nil_2.
  - intros ty. unfold first_occurrences.
    rewrite AssetsUtils.elem_of_foldl_set_add, elem_of_nil, list_elem_of_fmap.
    split.
    + intros [[]|(f' & -> & Hf')]. by exists f'.
    + intros (f' & Hf' & <-). right. by exists f'.
  - by exists f.
Qed.

(** When no postScript name is an array index (the decimal numeral of an
    integer), the fonts are listed in the order in which the styles first
    use them, the default style first. *)
Theorem getFonts_lists_fonts_in_order_of_first_use (octopus : Octopus) :
  (forall f n, f ∈ fonts octopus -> postScriptName f = Some n ->
     array_index n = None) ->
  fontPostScriptName <$> getFonts octopus
  = first_occurrences (omap listed (fonts octopus)).
Proof.
  intros H. rewrite names_getFonts, <- keys_fonts.
  apply Object_keys_no_index. intros key Hk.
  rewrite keys_fonts in Hk. unfold first_occurrences in Hk.
  apply AssetsUtils.elem_of_foldl_set_add in Hk as [[]%elem_of_nil|Hk].
  apply list_elem_of_omap in Hk as (f & Hf & Hl). apply (H f); [done|].
  unfold listed in Hl. apply bind_Some in Hl as (p & Hp & Hl).
  destruct (decide (p = "__proto__")); [done|]. simplify_eq.
  by destruct (postScriptName f) as [[|c s]|]; simplify_eq/=.
Qed.

(** ** On a concrete text *)

(** A text set in Arial Bold, with a run in Helvetica, a run in a font
    whose postScript name is a numeral, a second run in Arial Bold whose
    font has another type and no name, and a run without a font. *)
Definition text_octopus : Octopus :=
  mkOctopus
    (Some (mkStyle (Some (mkFont (Some "Arial-Bold") (Some "Arial Bold")
                            (Some "TrueType") None))))
    (Some [ mkStyle (Some (mkFont (Some "Helvetica") (Some "Helvetica")
                             None None));
            mkStyle (Some (mkFont (Some "7") (Some "Seven")
                             (Some "TrueType") None));
            mkStyle (Some (mkFont (Some "Arial-Bold") None
                             (Some "OpenType") (Some true)));
            mkStyle None ]).

Example getFonts_run :
  getFonts text_octopus
  = [ mkTextFontDescriptor "7" false (Some "Seven") ["TrueType"];
      mkTextFontDescriptor "Arial-Bold" true None ["TrueType"; "OpenType"];
      mkTextFontDescriptor "Helvetica" false (Some "Helvetica") [""] ].
Proof. by vm_compute. Qed.

Lemma getFonts_types_of_all_styles_name_of_last_witness :
  let d :=
    mkTextFontDescriptor "Arial-Bold" true None ["TrueType"; "OpenType"] in
  let used :=
    filter (fun f => postScriptName f = Some (fontPostScriptName d))
      (fonts text_octopus) in
  NoDup (fontTypes d)
  /\ (forall ty, ty ∈ fontTypes d
                 <-> exists f, f ∈ used /\ default "" (type f) = ty)
  /\ exists f, last used = Some f
       /\ fontName d = or_null (name f)
       /\ fontPostScriptNameSynthetic d
          = Boolean (syntheticPostScriptName f).
Proof.
  apply (getFonts_types_of_all_styles_name_of_last text_octopus
           (mkTextFontDescriptor "Arial-Bold" true None
              ["TrueType"; "OpenType"])).
  vm_compute. right. left.
Defined.

(** The same text without the font named by a numeral. *)
Definition plain_text_octopus : Octopus :=
  mkOctopus (defaultStyle text_octopus)
    (Some (filter (fun style => font style ≫= postScriptName <> Some "7")
             (default [] (styles text_octopus)))).

Lemma getFonts_lists_fonts_in_order_of_first_use_witness :
  fontPostScriptName <$> getFonts plain_text_octopus
  = first_occurrences (omap listed (fonts plain_text_octopus)).
Proof.
  apply (getFonts_lists_fonts_in_order_of_first_use plain_text_octopus).
  intros f n Hf Hn. vm_compute in Hf.
  repeat (apply elem_of_cons in Hf as [->|Hf]; [by simplify_eq/=|]).
  by apply elem_of_nil in Hf.
Defined.

End Text.

(** * The cache of octopus file names (sdk, local/local-design-cache)

    [LocalDesignCache] remembers, in a JSON file under the working
    directory, where the octopus file of a design version was put.  The
    functions of utils/fs-utils and of the [path] module are not part of
    these sources: they are parameters, and so is the disk they work on. *)

Module LocalDesignCache.

Definition VERSION : Z := 2.

(** [Record<string, Record<number, string>>]: design id, then version id,
    to the relative file name. *)
Abbreviation OctopusFilenames := (gmap string (gmap Z string)) (only parsing).

(** [DesignCacheInfo]: ['version'] and ['design_cache'], the latter from
    the API root to the file names. *)
Record DesignCacheInfo : Type := mkCacheInfo {
  version : Z;
  design_cache : gmap string OctopusFilenames;
}.

(** What [readJsonFile] gives, as far as [_loadCacheInfo] looks at it:
    something that is not an object with a ['version'] key, or such an
    object, which the code takes for a [DesignCacheInfo] when its version is
    [VERSION], without a look at the rest. *)
Inductive JsonData : Type :=
| NotCacheInfo
| CacheInfo (info : DesignCacheInfo).

(** The instance: [_env.workingDirectory] and [_cacheInfo]. *)
Record LocalDesignCache : Type := mkCache {
  workingDirectory : option string;
  _cacheInfo : option DesignCacheInfo;
}.

(** The object that [_loadOctopusFilenames] hands out: the very object
    stored under the API root in the cache info, or a new empty object
    that nothing else refers to ([cacheInfo['design_cache'][apiRoot] ||
    {}]). *)
Inductive Loaded : Type :=
| Stored (octopusFilenames : OctopusFilenames)
| Fresh.

Definition contents (l : Loaded) : OctopusFilenames :=
  match l with
  | Stored octopusFilenames => octopusFilenames
  | Fresh => ∅
  end.

Section Files.

(** The disk, with [checkFile], [readJsonFile] and [writeJsonFile] of
    utils/fs-utils ([readJsonFile] may throw: [None]), and [resolve] and
    [relative] of [path]. *)
Variable Disk : Type.
Variable checkFile : string -> Disk -> bool.
Variable readJsonFile : string -> Disk -> option JsonData.
Variable writeJsonFile : string -> DesignCacheInfo -> Disk -> Disk.
Variable resolvePath : string -> string -> string.
Variable relative : string -> string -> string.

Definition setEnv (workingDirectory : option string)
    (this : LocalDesignCache) : LocalDesignCache :=
  mkCache workingDirectory (_cacheInfo this).

Definition _resolvePath (this : LocalDesignCache) (filePath : string)
    : string :=
  resolvePath (default "." (or_null (workingDirectory this))) filePath.

Definition _getRelativePath (this : LocalDesignCache) (filePath : string)
    : string :=
  relative (_resolvePath this ".") (_resolvePath this filePath).

Definition _getCacheFilename (this : LocalDesignCache) : string :=
  _resolvePath this "./.opendesign/temp/design-cache.json".

Definition _createCacheInfo : DesignCacheInfo := mkCacheInfo VERSION ∅.

Definition _getCacheInfo (this : LocalDesignCache) : DesignCacheInfo :=
  default _createCacheInfo (_cacheInfo this).

(** [_loadCacheInfo]: the file is read once per instance; a file that is
    not a cache info of this version counts as an empty cache. *)
Definition _loadCacheInfo (this : LocalDesignCache) (disk : Disk)
    : option (DesignCacheInfo * LocalDesignCache) :=
  match _cacheInfo this with
  | Some cacheInfo => Some (cacheInfo, this)
  | None =>
      let cacheFilename := _getCacheFilename this in
      cacheInfoData ←
        (if checkFile cacheFilename disk
         then readJsonFile cacheFilename disk
         else Some NotCacheInfo);
      let cacheInfo :=
        match cacheInfoData with
        | CacheInfo info =>
            if decide (version info = VERSION) then info else _createCacheInfo
        | NotCacheInfo => _createCacheInfo
        end in
      Some (cacheInfo, mkCache (workingDirectory this) (Some cacheInfo))
  end.

Definition _loadOctopusFilenames (this : LocalDesignCache) (disk : Disk)
    (apiRoot : string) : option (Loaded * LocalDesignCache) :=
  '(cacheInfo, this) ← _loadCacheInfo this disk;
  Some (match design_cache cacheInfo !! apiRoot with
        | Some octopusFilenames => Stored octopusFilenames
        | None => Fresh
        end, this).

Definition getDesignOctopusFilename (this : LocalDesignCache) (disk : Disk)
    (apiRoot designId : string) (designVersionId : Z)
    : option (option string * LocalDesignCache) :=
  '(octopusFilenames, this) ← _loadOctopusFilenames this disk apiRoot;
  let optimizedFilename :=
    or_null (contents octopusFilenames !! designId ≫= (.!! designVersionId)) in
  Some (_resolvePath this <$> optimizedFilename, this).

(** [_saveOctopusFilenames] writes the cache info of the instance with the
    given object under the API root; [this._cacheInfo] is not assigned. *)
Definition _saveOctopusFilenames (this : LocalDesignCache) (disk : Disk)
    (apiRoot : string) (octopusFilenames : OctopusFilenames) : Disk :=
  let prevCacheInfo := _getCacheInfo this in
  let nextCacheInfo :=
    mkCacheInfo (version prevCacheInfo)
      (<[apiRoot := octopusFilenames]> (design_cache prevCacheInfo)) in
  writeJsonFile (_getCacheFilename this) nextCacheInfo disk.

(** [octopusFilenames[designId] = ...] on the object that was handed out:
    when it is the object of the cache info, the cache info of the instance
    changes with it; a fresh object changes alone. *)
Definition assign (this : LocalDesignCache) (apiRoot : string)
    (loaded : Loaded) (octopusFilenames : OctopusFilenames)
    : LocalDesignCache :=
  match loaded, _cacheInfo this with
  | Stored _, Some cacheInfo =>
      mkCache (workingDirectory this)
        (Some (mkCacheInfo (version cacheInfo)
                 (<[apiRoot := octopusFilenames]> (design_cache cacheInfo))))
  | _, _ => this
  end.

Definition setDesignOctopusFilename (this : LocalDesignCache) (disk : Disk)
    (apiRoot designId : string) (designVersionId : Z)
    (octopusFilename : string) : option (LocalDesignCache * Disk) :=
  '(loaded, this) ← _loadOctopusFilenames this disk apiRoot;
  let optimizedFilename := _getRelativePath this octopusFilename in
  let octopusFilenames :=
    <[designId :=
        <[designVersionId := optimizedFilename]>
          (default ∅ (contents loaded !! designId))]> (contents loaded) in
  let this := assign this apiRoot loaded octopusFilenames in
  Some (this, _saveOctopusFilenames this disk apiRoot octopusFilenames).

(** ** Properties *)

(** The cache info of an instance has the version of the class. *)
Definition valid (this : LocalDesignCache) : Prop :=
  forall cacheInfo, _cacheInfo this = Some cacheInfo ->
    version cacheInfo = VERSION.

Lemma _loadCacheInfo_loaded this disk cacheInfo this' :
  _loadCacheInfo this disk = Some (cacheInfo, this') ->
  _cacheInfo this' = Some cacheInfo
  /\ workingDirectory this' = workingDirectory this
  /\ (valid this -> version cacheInfo = VERSION).
Proof.
  unfold _loadCacheInfo. destruct (_cacheInfo this) as [ci|] eqn:E.
  - intros [= <- <-]. split_and!; [done..|]. intros H. by apply H.
  - intros H. apply bind_Some in H as (data & _ & H). simplify_eq/=.
    split_and!; [done..|]. intros _.
    destruct data as [|info]; [done|]. by destruct (decide _).
Qed.


Lemma _resolvePath_env this this' filePath :
  workingDirectory this' = workingDirectory this ->
  _resolvePath this' filePath = _resolvePath this filePath.
Proof. unfold _resolvePath. by intros ->. Qed.

(** What [setDesignOctopusFilename] leaves: the cache info of the instance
    is the loaded one, with the new entry when the API root was in it; the
    file holds the loaded cache info with the object of the API root
    replaced. *)
Lemma setDesignOctopusFilename_result this disk apiRoot designId
    designVersionId octopusFilename this' disk' :
  setDesignOctopusFilename this disk apiRoot designId designVersionId
    octopusFilename = Some (this', disk') ->
  exists cacheInfo this1,
    _loadCacheInfo this disk = Some (cacheInfo, this1)
    /\ workingDirectory this' = workingDirectory this
    /\ let stored := design_cache cacheInfo !! apiRoot in
       let octopusFilenames :=
         <[designId :=
             <[designVersionId := _getRelativePath this octopusFilename]>
               (default ∅ (default ∅ stored !! designId))]>
           (default ∅ stored) in
       _cacheInfo this'
       = Some (match stored with
               | Some _ =>
                   mkCacheInfo (version cacheInfo)
                     (<[apiRoot := octopusFilenames]> (design_cache cacheInfo))
               | None => cacheInfo
               end)
       /\ disk'
          = writeJsonFile (_getCacheFilename this)
              (mkCacheInfo (version cacheInfo)
                 (<[apiRoot := octopusFilenames]> (design_cache cacheInfo)))
              disk.
Proof.
  unfold setDesignOctopusFilename, _loadOctopusFilenames. intros H.
  apply bind_Some in H as ([loaded this1] & H1 & H).
  apply bind_Some in H1 as ([cacheInfo this0] & H0 & H1).
  simpl in H1, H. injection H1 as <- <-. injection H as <- <-.
  rename this0 into this1. exists cacheInfo, this1. split; [done|].
  apply _loadCacheInfo_loaded in H0 as (Hci & Hwd & _).
  assert (forall f, _resolvePath this1 f = _resolvePath this f) as Hres.
  { intros f. by apply _resolvePath_env. }
  unfold _saveOctopusFilenames, _getCacheInfo, assign, _getCacheFilename,
    _getRelativePath.
  rewrite Hci.
  destruct (design_cache cacheInfo !! apiRoot) as [names|] eqn:E; simpl;
    rewrite ?Hci; simpl.
  - split_and!; [done|by rewrite !Hres|].
    unfold _resolvePath. simpl. rewrite Hwd.
    by rewrite insert_insert_eq.
  - split_and!; [done..|]. by rewrite !Hres.
Qed.

Lemma valid_setDesignOctopusFilename this disk apiRoot designId
    designVersionId octopusFilename this' disk' :
  valid this ->
  setDesignOctopusFilename this disk apiRoot designId designVersionId
    octopusFilename = Some (this', disk') ->
  valid this'.
Proof.
  intros Hv H. apply setDesignOctopusFilename_result in H
    as (cacheInfo & this1 & H1 & _ & H2 & _).
  apply _loadCacheInfo_loaded in H1 as (_ & _ & Hver).
  intros ci Hci. rewrite H2 in Hci.
  destruct (design_cache cacheInfo !! apiRoot); simplify_eq/=; auto.
Qed.


Section Written.

(** A file that was written is there, and reads as what was written. *)
Hypothesis checkFile_written : forall f info d,
  checkFile f (writeJsonFile f info d) = true.
Hypothesis readJsonFile_written : forall f info d,
  readJsonFile f (writeJsonFile f info d) = Some (CacheInfo info).



End Written.

End Files.

(** ** A disk that holds the cache file alone *)

Definition Disk1 : Type := option DesignCacheInfo.

Definition checkFile1 (f : string) (d : Disk1) : bool :=
  bool_decide (is_Some d).

Definition readJsonFile1 (f : string) (d : Disk1) : option JsonData :=
  CacheInfo <$> d.

Definition writeJsonFile1 (f : string) (info : DesignCacheInfo) (d : Disk1)
    : Disk1 :=
  Some info.

Definition resolve1 (dir file : string) : string :=
  if String.eqb file "." then dir else dir +:+ "/" +:+ file.

Definition relative1 (from to : string) : string :=
  String.substring (String.length from + 1)
    (String.length to - (String.length from + 1)) to.

Definition set1 := setDesignOctopusFilename Disk1 checkFile1 readJsonFile1
                     writeJsonFile1 resolve1 relative1.

Definition get1 := getDesignOctopusFilename Disk1 checkFile1 readJsonFile1
                     resolve1.

(** A new instance on an empty disk sets two file names under one API
    root: it finds neither, and the file holds the second one only. *)
Example new_root_run :
  let this := mkCache None None in
  let r1 := default (this, None) (set1 this None "api" "d1" 1 "a.octopus") in
  let r2 := default r1 (set1 r1.1 r1.2 "api" "d2" 1 "b.octopus") in
  fst <$> get1 r2.1 r2.2 "api" "d1" 1 = Some None
  /\ fst <$> get1 r2.1 r2.2 "api" "d2" 1 = Some None
  /\ fst <$> get1 this r2.2 "api" "d1" 1 = Some None
  /\ fst <$> get1 this r2.2 "api" "d2" 1 = Some (Some "./b.octopus").
Proof. vm_compute. done. Qed.




End LocalDesignCache.

(** * Names of temporary octopus files (sdk, local/local-design-manager)

    [_createTempLocation] puts the octopus file of a design under
    [./.opendesign/temp/<uuid>/<name>.octopus], where the name is the name
    of the design after [sanitizeName]. *)

Module LocalDesignManager.

Import Stdlib.Strings.Ascii.

(** [[^.]+$], after its first character: no dot up to the end. *)
Fixpoint dotless (s : string) : bool :=
  match s with
  | EmptyString => true
  | String c s => negb (Ascii.eqb c "."%char) && dotless s
  end.

(** [name.replace(/\.[^.]+$/, '')]: the first place, from the left, where a
    dot is followed by one character or more, none of them a dot, up to the
    end of the name; the name is cut there. *)
Fixpoint replace_extension (name : string) : string :=
  match name with
  | EmptyString => EmptyString
  | String c rest =>
      if Ascii.eqb c "."%char && negb (String.eqb rest "") && dotless rest
      then EmptyString
      else String c (replace_extension rest)
  end.

(** The characters of the class [[\^:~/\\]]: the caret, the colon, the
    tilde, the slash and the backslash (the character 92). *)
Definition reserved : list ascii :=
  ["^"; ":"; "~"; "/"; ascii_of_nat 92]%char.

(** [name.replace(/[\^:~/\\]/g, '-')] *)
Fixpoint replace_reserved (name : string) : string :=
  match name with
  | EmptyString => EmptyString
  | String c rest =>
      String (if decide (c ∈ reserved) then "-"%char else c)
        (replace_reserved rest)
  end.

Definition sanitizeName (name : string) : string :=
  replace_reserved (replace_extension name).

(** ** Properties *)

Lemma replace_reserved_clean name c :
  c ∈ reserved -> c ∉ String.list_ascii_of_string (replace_reserved name).
Proof.
  intros Hc. induction name as [|c' rest IH]; simpl.
  - apply not_elem_of_nil.
  - apply not_elem_of_cons. split; [|done].
    destruct (decide (c' ∈ reserved)) as [|Hc']; [|by intros ->].
    intros ->. revert Hc. unfold reserved.
    rewrite !elem_of_cons, elem_of_nil. by intros [|[|[|[|[|]]]]].
Qed.

Lemma length_replace_reserved name :
  String.length (replace_reserved name) = String.length name.
Proof. induction name as [|c rest IH]; simpl; [done|]. by rewrite IH. Qed.

Lemma length_replace_extension name :
  String.length (replace_extension name) <= String.length name.
Proof.
  induction name as [|c rest IH]; simpl; [done|].
  destruct (_ && _); simpl; lia.
Qed.

Lemma dotless_dot base ext : dotless (base +:+ String "."%char ext) = false.
Proof.
  induction base as [|c base IH]; simpl; [done|].
  rewrite IH. apply andb_false_r.
Qed.

Lemma replace_extension_last base ext :
  ext <> "" -> dotless ext = true ->
  replace_extension (base +:+ String "."%char ext) = base.
Proof.
  intros He Hd. induction base as [|c base IH]; simpl.
  - rewrite Hd. destruct ext; [done|]. done.
  - rewrite dotless_dot, andb_false_r. by rewrite IH.
Qed.

Lemma replace_extension_none name :
  dotless name = true -> replace_extension name = name.
Proof.
  induction name as [|c rest IH]; simpl; [done|].
  intros [Hc Hr]%andb_true_iff. apply negb_true_iff in Hc.
  rewrite Hc. simpl. by rewrite IH.
Qed.

(** The sanitized name holds none of the characters [^ : ~ / \], so that
    it names one entry of a directory, and is not longer than the name.
    What follows the last dot of the name is dropped with the dot, whatever
    it is (when it is not empty); a name without a dot keeps its length. *)
Theorem sanitizeName_leaves_no_separator (name : string) :
  (forall c, c ∈ reserved ->
     c ∉ String.list_ascii_of_string (sanitizeName name))
  /\ String.length (sanitizeName name) <= String.length name
  /\ (forall base ext,
        name = base +:+ String "."%char ext -> ext <> "" -> dotless ext = true ->
        sanitizeName name = replace_reserved base)
  /\ (dotless name = true -> sanitizeName name = replace_reserved name).
Proof.
  unfold sanitizeName. split_and!.
  - intros c Hc. by apply replace_reserved_clean.
  - rewrite length_replace_reserved. apply length_replace_extension.
  - intros base ext -> He Hd. by rewrite replace_extension_last.
  - intros Hd. by rewrite replace_extension_none.
Qed.

Example sanitizeName_run :
  sanitizeName "v1.2 draft/final" = "v1"
  /\ sanitizeName "a/b:c.sketch" = "a-b-c"
  /\ sanitizeName "design" = "design"
  /\ sanitizeName ".." = "..".
Proof. by vm_compute. Qed.

End LocalDesignManager.

(** * The artboards of a design (octopus-reader, nodes/file)

    The class [File] keeps the artboards of a design in a list, with three
    indexes: by id, by component id and by page id. *)

Module File.

(** Modelled from the spec: an artboard is identified by its id and is
    optionally tagged with a component id and a page id.  [symbolID] is
    [octopus['symbolID']] and [pageId] is [params.pageId], as
    [addArtboard] received them.  The class compares artboards as objects
    ([===]): [ref] tells the objects apart, by the number of artboards that
    the file had created before. *)
Record Artboard : Type := mkArtboard {
  ref : nat;
  id : string;
  symbolID : option string;
  pageId : option string;
}.

#[global] Instance Artboard_eq_dec : EqDecision Artboard.
Proof. solve_decision. Defined.

(** [File]: the four fields of the class, the memoized result of
    [getComponentArtboards] ([None] after [clear()]), and the number of
    artboards created so far.  The three indexes are plain objects used as
    maps; the ids are taken not to be names of properties that every object
    inherits (['constructor'], ['toString'], ...), for which a lookup in an
    empty index would find the inherited property. *)
Record File : Type := mkFile {
  _artboardsById : gmap string Artboard;
  _artboardsByComponentId : gmap string Artboard;
  _artboardsByPageId : gmap string (list Artboard);
  _artboardList : list Artboard;
  componentArtboards : option (list Artboard);
  created : nat;
}.

(** [new File()] *)
Definition empty : File := mkFile ∅ ∅ ∅ [] None 0.

(** [list.findIndex((artboard) => artboard === target)] *)
Definition findIndex (target : Artboard) (l : list Artboard) : option nat :=
  fst <$> list_find (fun artboard => ref artboard = ref target) l.

(** [[...list.slice(0, index), ...list.slice(index + 1)]] *)
Definition without (index : nat) (l : list Artboard) : list Artboard :=
  take index l ++ drop (S index) l.

(** [addArtboard]; [None] is the error 'Duplicate artboard'. *)
Definition addArtboard (this : File) (artboardId : string)
    (symbolID pageId : option string) : option (Artboard * File) :=
  if decide (is_Some (_artboardsById this !! artboardId)) then None
  else
    let artboard := mkArtboard (created this) artboardId symbolID pageId in
    Some (artboard,
          mkFile
            (<[artboardId := artboard]> (_artboardsById this))
            (match or_null symbolID with
             | Some componentId =>
                 <[componentId := artboard]> (_artboardsByComponentId this)
             | None => _artboardsByComponentId this
             end)
            (match or_null pageId with
             | Some pageId =>
                 <[pageId :=
                     default [] (_artboardsByPageId this !! pageId)
                     ++ [artboard]]> (_artboardsByPageId this)
             | None => _artboardsByPageId this
             end)
            (_artboardList this ++ [artboard])
            None
            (S (created this))).

Definition removeArtboard (this : File) (artboardId : string) : bool * File :=
  match _artboardsById this !! artboardId with
  | None => (false, this)
  | Some removedArtboard =>
      (true,
       mkFile
         (delete artboardId (_artboardsById this))
         (match or_null (symbolID removedArtboard) with
          | Some componentId =>
              delete componentId (_artboardsByComponentId this)
          | None => _artboardsByComponentId this
          end)
         (match or_null (pageId removedArtboard) with
          | Some pageId =>
              let pageArtboardList :=
                default [] (_artboardsByPageId this !! pageId) in
              match findIndex removedArtboard pageArtboardList with
              | Some indexInPage =>
                  <[pageId := without indexInPage pageArtboardList]>
                    (_artboardsByPageId this)
              | None => _artboardsByPageId this
              end
          | None => _artboardsByPageId this
          end)
         (match findIndex removedArtboard (_artboardList this) with
          | Some index => without index (_artboardList this)
          | None => _artboardList this
          end)
         None
         (created this))
  end.

Definition getArtboards (this : File) : list Artboard := _artboardList this.

Definition getPageArtboards (this : File) (pageId : string) : list Artboard :=
  default [] (_artboardsByPageId this !! pageId).


Definition getArtboardByComponentId (this : File) (componentId : string)
    : option Artboard :=
  _artboardsByComponentId this !! componentId.

Section Components.

(** [artboard.isComponent()], of the class [Artboard]. *)
Variable isComponent : Artboard -> bool.

(** [getComponentArtboards], memoized: the list is computed at the first
    call after a [clear()], and kept. *)
Definition getComponentArtboards (this : File) : list Artboard * File :=
  match componentArtboards this with
  | Some l => (l, this)
  | None =>
      let l := List.filter isComponent (_artboardList this) in
      (l, mkFile (_artboardsById this) (_artboardsByComponentId this)
            (_artboardsByPageId this) (_artboardList this) (Some l)
            (created this))
  end.

(** The calls that change a file. *)
Inductive Call : Type :=
| AddArtboard (artboardId : string) (symbolID pageId : option string)
| RemoveArtboard (artboardId : string)
| GetComponentArtboards.

(** The file after a call; a call that throws leaves it as it is. *)
Definition after (this : File) (c : Call) : File :=
  match c with
  | AddArtboard artboardId symbolID pageId =>
      match addArtboard this artboardId symbolID pageId with
      | Some (_, this') => this'
      | None => this
      end
  | RemoveArtboard artboardId => (removeArtboard this artboardId).2
  | GetComponentArtboards => (getComponentArtboards this).2
  end.

(** ** The indexes and the list *)
























End Components.

(** ** On a concrete file *)

(** Modelled from the spec: the component id is non-null exactly when the
    artboard is a component. *)
Definition isComponent (artboard : Artboard) : bool :=
  bool_decide (is_Some (symbolID artboard)).

(** A file whose artboard ["a"] defines the component ["c"]. *)
Definition components_file : list Call :=
  [AddArtboard "a" (Some "c") (Some "p")].

(** A second artboard with the component ["c"] is added and removed: the
    artboard ["a"] is still in the file and still a component, and the
    index by component does not find it any more. *)
Example component_index_run :
  let this := foldl (after isComponent) empty components_file in
  let added := after isComponent this (AddArtboard "b" (Some "c") (Some "p")) in
  let removed := after isComponent added (RemoveArtboard "b") in
  id <$> getArtboardByComponentId this "c" = Some "a"
  /\ id <$> getArtboardByComponentId added "c" = Some "b"
  /\ getArtboardByComponentId removed "c" = None
  /\ id <$> getArtboards removed = ["a"]
  /\ id <$> (getComponentArtboards isComponent removed).1 = ["a"]
  /\ id <$> getPageArtboards removed "p" = ["a"].
Proof. vm_compute. done. Qed.


End File.
